(** * merge-zip-suite (Go implementation): a shallow embedding of [go/main.go]

    The embedding starts with machine integers and the functions of the Go
    runtime that the program calls, then come [listZipFiles],
    [sumUncompressed], [shouldSkipPath], [mapTargetName],
    [printZipProgress], [parseSize], [rawSplit] and [mergeZIP], and after
    them [humanBytes], [fmtHMS], [parseFlags] and [main].  The program's
    effects are explicit: what it asks of the operating system is answered
    by a [world], what it does is recorded as a list of [event]s.  After the
    program come the vocabulary of the specification, some sample worlds,
    and the theorems. *)

From Stdlib Require Import ZArith Lia Ascii String List Bool.
From Stdlib Require Import Decimal DecimalString DecimalZ.
From Stdlib Require Import Floats.
From stdpp Require Import gmap strings list fin_maps sorting.

Local Open Scope Z_scope.

(** ** Machine integers

    Go's [int] and [int64] are 64-bit two's complement, [uint64] is 64-bit
    unsigned.  Values are kept in [Z]; every arithmetic result is brought
    back into range by the matching wrap function. *)

Module Int.
Definition two63 : Z := 2 ^ 63.
Definition two64 : Z := 2 ^ 64.
Definition MaxInt64 : Z := two63 - 1.

(** [uint64(x)]: reduction modulo 2^64. *)
Definition u64 (x : Z) : Z := x mod two64.

(** [int64(x)] / [int(x)]: the signed reading of the low 64 bits. *)
Definition i64 (x : Z) : Z := (x + two63) mod two64 - two63.
End Int.

(** ** Strings

    A Go [string] is a sequence of bytes; so is a Rocq [string].  The
    helpers below are the byte-level behaviour of the [strings] and
    [path/filepath] functions the program calls.  The path functions are the
    Unix ones ([os.PathSeparator] is ["/"]). *)

Module Str.
Definition len (s : string) : Z := Z.of_nat (String.length s).

(** [s[lo:hi]] *)
Definition slice (s : string) (lo hi : Z) : string :=
  String.substring (Z.to_nat lo) (Z.to_nat (hi - lo)) s.

Definition HasPrefix (s p : string) : bool := String.prefix p s.

Definition HasSuffix (s suf : string) : bool :=
  String.prefix (String.rev suf) (String.rev s).

Fixpoint contains_char (c : ascii) (s : string) : bool :=
  match s with
  | EmptyString => false
  | String d s' => if Ascii.eqb c d then true else contains_char c s'
  end.

(** [strings.TrimLeft(s, cutset)] for a cutset of ASCII characters. *)
Fixpoint TrimLeft (s cutset : string) : string :=
  match s with
  | EmptyString => EmptyString
  | String c s' => if contains_char c cutset then TrimLeft s' cutset else s
  end.

(** [strings.TrimSuffix(s, suffix)] *)
Definition TrimSuffix (s suf : string) : string :=
  if HasSuffix s suf then slice s 0 (len s - len suf) else s.

(** [strings.LastIndex(s, sub)]: the index of the last occurrence of
    [sub] in [s], or -1. *)
Fixpoint LastIndex_from (s sub : string) (i : Z) (found : Z) : Z :=
  let found' := if String.prefix sub s then i else found in
  match s with
  | EmptyString => found'
  | String _ s' => LastIndex_from s' sub (i + 1) found'
  end.

Definition LastIndex (s sub : string) : Z := LastIndex_from s sub 0 (-1).

(** [strings.Join(elems, sep)] *)
Fixpoint Join (elems : list string) (sep : string) : string :=
  match elems with
  | [] => ""
  | [e] => e
  | e :: rest => e +:+ sep +:+ Join rest sep
  end.

(** Splitting at every ["/"]; [split_slash "a//b" = ["a"; ""; "b"]]. *)
Fixpoint split_slash_go (cur : string) (s : string) : list string :=
  match s with
  | EmptyString => [String.rev cur]
  | String c s' =>
      if Ascii.eqb c "/" then String.rev cur :: split_slash_go "" s'
      else split_slash_go (String c cur) s'
  end.

Definition split_slash (s : string) : list string := split_slash_go "" s.
End Str.

Module filepath.
(** [filepath.Ext(path)]: the suffix beginning at the final dot in the
    final slash-separated element of [path]; empty if there is no dot.
    The scan runs from the end of the string towards the last
    separator. *)
Fixpoint Ext_rev (r : string) (acc : string) : string :=
  match r with
  | EmptyString => ""
  | String c r' =>
      if Ascii.eqb c "/" then ""
      else if Ascii.eqb c "." then String c acc
      else Ext_rev r' (String c acc)
  end.

Definition Ext (path : string) : string := Ext_rev (String.rev path) "".

(** The element stack of [filepath.Clean]: [.] and empty elements are
    dropped, [..] removes the element before it, is dropped at the root
    and is kept at the front of a relative path. *)
Fixpoint clean_elems (rooted : bool) (stack : list string) (elems : list string)
  : list string :=
  match elems with
  | [] => rev stack
  | e :: rest =>
      if String.eqb e "" then clean_elems rooted stack rest
      else if String.eqb e "." then clean_elems rooted stack rest
      else if String.eqb e ".." then
        match stack with
        | top :: below =>
            if String.eqb top ".." then clean_elems rooted (e :: stack) rest
            else clean_elems rooted below rest
        | [] =>
            if rooted then clean_elems rooted stack rest
            else clean_elems rooted (e :: stack) rest
        end
      else clean_elems rooted (e :: stack) rest
  end.

(** [filepath.Clean(path)] *)
Definition Clean (path : string) : string :=
  if String.eqb path "" then "."
  else
    let rooted := Str.HasPrefix path "/" in
    let body := Str.Join (clean_elems rooted [] (Str.split_slash path)) "/" in
    if rooted then "/" +:+ body
    else if String.eqb body "" then "." else body.

(** [filepath.Join(elem...)]: leading empty elements are ignored; from
    the first non-empty one on, the elements are joined with the
    separator and the result is cleaned.  All empty gives [""]. *)
Fixpoint Join (elem : list string) : string :=
  match elem with
  | [] => ""
  | e :: rest =>
      if String.eqb e "" then Join rest else Clean (Str.Join elem "/")
  end.

(** [filepath.ToSlash(path)] replaces the separator by a slash; the
    separator is a slash already. *)
Definition ToSlash (path : string) : string := path.
End filepath.

(** ** [float64]

    IEEE 754 binary64 arithmetic is the kernel's primitive [float].  The two
    conversions the program uses are written out: [float64(x)] of an
    integer rounds to nearest-even, [uint64(f)] discards the fraction.
    When [f] has no [uint64] value the Go specification leaves the result
    to the implementation; that result is the parameter [ovf]. *)

Module F64.
Definition of_int (x : Z) : float :=
  SF2Prim (SpecFloat.binary_normalize prec emax x 0 false).

Definition trunc (f : float) : option Z :=
  match Prim2SF f with
  | SpecFloat.S754_zero _ => Some 0
  | SpecFloat.S754_finite s m e =>
      let v := if 0 <=? e then Z.pos m * 2 ^ e else Z.pos m / 2 ^ (- e) in
      Some (if s then - v else v)
  | SpecFloat.S754_infinity _ | SpecFloat.S754_nan => None
  end.

Definition to_u64 (ovf : float -> Z) (f : float) : Z :=
  match trunc f with
  | Some v => if (0 <=? v) && (v <? Int.two64) then v else ovf f
  | None => ovf f
  end.

(** The literals [1.05], [1.25] and [1.10] as the compiler rounds them. *)
Definition c1_05 : float := 0x1.0cccccccccccdp+0%float.
Definition c1_25 : float := 0x1.4p+0%float.
Definition c1_10 : float := 0x1.199999999999ap+0%float.
End F64.

(** ** The program's surroundings

    Everything the program obtains from outside is data here.  A [world]
    answers each call the program makes to the operating system, to the
    [archive/zip] package and to the parts of the Go runtime whose tables
    are not program text.  Times, the deflate level and the ETA text have no
    influence on any decision the program takes and are left out.

    [mergeZIP] either returns or panics.  The one statement of it that can
    panic on its own is the [make] of the copy buffer; that outcome is
    written as the error [PanicMakeSlice], which is not an error value of
    the program: no caller sees it, the deferred calls run and the process
    ends. *)

Inductive error :=
| ErrMkdirAll
| ErrReadDir
| ErrBadPattern
| ErrNoZip
| ErrNoSpace (need freeBytes : Z)
| ErrCreate
| ErrWrite
| ErrCloseZip
| ErrCloseFile
| ErrBadSize
| ErrSizeNotPositive
| ErrOpen
| ErrStat
| ErrRead
| ErrRemove
| PanicMakeSlice.

Inductive result (A : Type) :=
| Ok (a : A)
| Err (e : error).
Arguments Ok {A} a.
Arguments Err {A} e.

(** The error half of what [Read] returns. *)
Inductive readErr := EOF | ReadFailure.

(** One iteration of the copy loop of [mergeZIP] as the surroundings decide
    it: [rc.Read(buf)] returns [(rd_n, rd_err)], and [bw.Write(buf[:n])],
    if it is reached, fails or not. *)
Record readResult := {
  rd_n : Z;
  rd_err : option readErr;
  wr_fails : bool
}.

(** An entry of a source archive ([zip.File]), with the answers to the
    calls made for it: [zw.CreateHeader], [f.Open], the successive
    [rc.Read]s and the [bw.Flush] after them.  A stream read past the end
    of [reads] is at [io.EOF]. *)
Record zipFile := {
  Name : string;
  IsDir : bool;
  UncompressedSize64 : Z;
  CompressedSize64 : Z;
  createHeader_fails : bool;
  open_fails : bool;
  reads : list readResult;
  flush_fails : bool
}.

Record DirEntry := {
  de_Name : string;
  de_IsDir : bool
}.

Record world := {
  ToLower : string -> string;
  Match : string -> string -> option bool;
  u64_of_float_overflow : float -> Z;
  (** The largest allocation of the runtime ([maxAlloc] of
      [runtime/malloc.go]); 2^48 bytes on 64-bit Linux. *)
  maxAlloc : Z;
  GOOS_windows : bool;
  MkdirAll_fails : string -> bool;
  ReadDir : string -> option (list DirEntry);
  (** [zip.OpenReader] at its three call sites, numbered 0, 1, 2 in
      program order. *)
  OpenReader : nat -> string -> option (list zipFile);
  (** [syscall.Statfs]: [Bavail] and [Bsize] when the call succeeds. *)
  Statfs : string -> option (Z * Z);
  Create_fails : string -> bool;
  zwClose_fails : bool;
  outFileClose_fails : bool;
  (** [rawSplit]: [os.Open], [in.Stat] and [os.Remove] by path; the
      [k]-th [in.Read] and the [out.Write] that follows it by [k].  A read
      returns at most [Read_limit k] bytes (at least one). *)
  Open_fails : string -> bool;
  Stat_fails : string -> bool;
  Read_limit : nat -> Z;
  Read_fails : nat -> bool;
  Write_fails : nat -> bool;
  Remove_fails : string -> bool
}.

Record options := {
  inputDir : string;
  outDir : string;
  outBase : string;
  filterGlob : string;
  store : bool;
  deflateLevel : Z;
  chunkMB : Z;
  prefixByZip : bool;
  splitSize : string;
  splitMode : string;
  rmAfterSplit : bool
}.

(** What the program does to its surroundings, in order. *)
Inductive event :=
| WarnOpenZip (name : string)
| CreateFile (path : string)
| EntryHeader (zipName inner target : string)
| WarnHeader (target : string)
| WarnOpenEntry (zipName inner : string)
| Wrote (n : Z)
| WriteFailed
| WarnRead (zipName inner : string)
| Flush
| Progress (zp ap : Z)
| Newline
| CloseZip
| CloseFile
| Done (outPath : string)
| SplitPart (partName : string) (copied : Z)
| RemovedOriginal (path : string)
| DoneRawSplit (pfx : string).

(** ** [listZipFiles] *)

(** Lines 66-74: the filter loop. *)
Fixpoint listZipFiles_filter (w : world) (glob : string)
    (ents : list DirEntry) (out : list string) : result (list string) :=
  match ents with
  | [] => Ok out
  | e :: rest =>
      if de_IsDir e then listZipFiles_filter w glob rest out
      else
        let name := de_Name e in
        match Match w glob name with
        | None => Err ErrBadPattern
        | Some match_ =>
            if match_ && Str.HasSuffix (ToLower w name) ".zip"
            then listZipFiles_filter w glob rest (out ++ [name])
            else listZipFiles_filter w glob rest out
        end
  end.

(** Line 78: [if out[j] < out[i] { out[i], out[j] = out[j], out[i] }]. *)
Definition swap_if_less (out : list string) (i j : nat) : list string :=
  match out !! i, out !! j with
  | Some a, Some b => if String.ltb b a then <[i := b]> (<[j := a]> out) else out
  | _, _ => out
  end.

(** Lines 76-80: the two nested index loops. *)
Definition simple_sort (out : list string) : list string :=
  let n := length out in
  foldl (fun out i =>
           foldl (fun out j => swap_if_less out i j) out (seq (S i) (n - S i)))
        out (seq 0 n).

Definition listZipFiles (w : world) (dir glob : string) : result (list string) :=
  match ReadDir w dir with
  | None => Err ErrReadDir
  | Some ents =>
      match listZipFiles_filter w glob ents [] with
      | Err e => Err e
      | Ok out => Ok (simple_sort out)
      end
  end.

(** ** [sumUncompressed] *)
Definition sumUncompressed (zr : list zipFile) : Z :=
  fold_left (fun total f =>
               if IsDir f then total
               else Int.u64 (total + UncompressedSize64 f))
            zr 0.

(** ** [fmt.Sprintf("%d", c)] for an [int] *)
Definition fmt_d (c : Z) : string := NilZero.string_of_int (Z.to_int c).

(** ** [shouldSkipPath] *)
Definition shouldSkipPath (p : string) : bool :=
  if String.eqb p "" then true
  else if Str.HasPrefix p "__MACOSX/" then true
  else if Str.HasSuffix p ".DS_Store" then true
  else false.

(** ** [mapTargetName]

    The Go map [dedup] is mutated in place; the embedding returns the
    updated table next to the target name.  [mapTargetName_base] is the
    first half of the function body, the candidate path [base]. *)
Definition mapTargetName_base (prefixByZip : bool) (zipName inner : string)
    : string :=
  let inner := Str.TrimLeft inner "/\" in
  if prefixByZip then
    let prefix := Str.TrimSuffix zipName (filepath.Ext zipName) in
    filepath.ToSlash (filepath.Join [prefix; inner])
  else filepath.ToSlash inner.

Definition mapTargetName (prefixByZip : bool) (zipName inner : string)
    (dedup : gmap string Z) : string * gmap string Z :=
  let base := mapTargetName_base prefixByZip zipName inner in
  match dedup !! base with
  | Some c =>
      let dot := Str.LastIndex base "." in
      let '(root, ext) :=
        if 0 <=? dot
        then (Str.slice base 0 dot, Str.slice base dot (Str.len base))
        else (base, "") in
      (root +:+ "__dup" +:+ fmt_d c +:+ ext,
       <[base := Int.i64 (c + 1)]> dedup)
  | None => (base, <[base := 1]> dedup)
  end.

(** ** [printZipProgress]

    The variables of [mergeZIP] that the copy loops update. *)
Record state := State {
  overallDone : Z;
  dedup : gmap string Z;
  doneZip : Z;
  lastZipPct : Z;
  lastAllPct : Z;
  log : list event
}.

Definition emit (evs : list event) (s : state) : state :=
  State (overallDone s) (dedup s) (doneZip s) (lastZipPct s) (lastAllPct s)
        (log s ++ evs).

(** [int((done * 100) / total)] on [uint64] operands, 100 when [total]
    is 0. *)
Definition percent (done total : Z) : Z :=
  if 0 <? total then Int.i64 (Int.u64 (done * 100) / total) else 100.

Definition printZipProgress (done total overallDone_ overallTotal : Z)
    (s : state) : state :=
  let zp := percent done total in
  let ap := percent overallDone_ overallTotal in
  if negb (zp =? lastZipPct s) || negb (ap =? lastAllPct s) then
    State (overallDone s) (dedup s) (doneZip s) zp ap
          (log s ++ [Progress zp ap])
  else s.

(** ** [parseSize] *)

(** The six ASCII bytes [strings.TrimSpace] removes. *)
Definition asciiSpace (c : ascii) : bool :=
  match c with
  | "009" | "010" | "011" | "012" | "013" | " " => true
  | _ => false
  end%char.

(** The other white space of [unicode.IsSpace], as UTF-8: U+0085 and
    U+00A0 in two bytes; U+1680, U+2000..U+200A, U+2028, U+2029, U+202F,
    U+205F and U+3000 in three. *)
Definition space2 (a b : ascii) : bool :=
  Ascii.eqb a "194" && (Ascii.eqb b "133" || Ascii.eqb b "160").

Definition space3 (a b c : ascii) : bool :=
  let n := Ascii.N_of_ascii c in
  (Ascii.eqb a "225" && Ascii.eqb b "154" && Ascii.eqb c "128")
  || (Ascii.eqb a "226" && Ascii.eqb b "128"
      && (((128 <=? n) && (n <=? 138)) || (n =? 168) || (n =? 169) || (n =? 175))%N)
  || (Ascii.eqb a "226" && Ascii.eqb b "129" && Ascii.eqb c "159")
  || (Ascii.eqb a "227" && Ascii.eqb b "128" && Ascii.eqb c "128").

(** Removing leading white space; with [back] the string is a reversed
    one and the multi-byte encodings are read back to front. *)
Fixpoint trimSpaceFront (back : bool) (s : string) : string :=
  match s with
  | String a s1 =>
      if asciiSpace a then trimSpaceFront back s1
      else
        match s1 with
        | String b s2 =>
            if (if back then space2 b a else space2 a b)
            then trimSpaceFront back s2
            else
              match s2 with
              | String c s3 =>
                  if (if back then space3 c b a else space3 a b c)
                  then trimSpaceFront back s3
                  else s
              | EmptyString => s
              end
        | EmptyString => s
        end
  | EmptyString => s
  end.

(** [strings.TrimSpace(s)] *)
Definition TrimSpace (s : string) : string :=
  String.rev (trimSpaceFront true (String.rev (trimSpaceFront false s))).

(** [\s] of the regular expression: tab, newline, form feed, carriage
    return, space. *)
Definition re_space (c : ascii) : bool :=
  match c with
  | "009" | "010" | "012" | "013" | " " => true
  | _ => false
  end%char.

Definition is_digit (c : ascii) : bool :=
  let n := Ascii.N_of_ascii c in ((48 <=? n) && (n <=? 57))%N.

Fixpoint skip_re_space (s : string) : string :=
  match s with
  | String c s' => if re_space c then skip_re_space s' else s
  | EmptyString => s
  end.

Fixpoint take_digits (s : string) : string * string :=
  match s with
  | String c s' =>
      if is_digit c
      then let '(d, rest) := take_digits s' in (String c d, rest)
      else ("", s)
  | EmptyString => ("", s)
  end.

(** [(?i)[kmgt]?]: one of the four letters in either case, or U+212A
    (the Kelvin sign, which folds to [k]), or nothing. *)
Definition take_unit (s : string) : string * string :=
  match s with
  | String c s' =>
      if Str.contains_char c "kmgtKMGT" then (String c "", s')
      else
        match s' with
        | String c2 (String c3 s3) =>
            if Ascii.eqb c "226" && Ascii.eqb c2 "132" && Ascii.eqb c3 "170"
            then (String c (String c2 (String c3 "")), s3)
            else ("", s)
        | _ => ("", s)
        end
  | EmptyString => ("", s)
  end.

(** [splitSizeRe.FindStringSubmatch(s)]: the two groups of
    [(?i)^\s*([0-9]+)\s*([kmgt]?)\s*$], or no match. *)
Definition splitSizeRe (s : string) : option (string * string) :=
  let '(m1, s) := take_digits (skip_re_space s) in
  if String.eqb m1 "" then None
  else
    let '(m2, s) := take_unit (skip_re_space s) in
    if String.eqb (skip_re_space s) "" then Some (m1, m2) else None.

(** [strconv.ParseInt(digits, 10, 64)] with its error dropped: the value,
    or the largest [int64] when the value is out of range. *)
Definition ParseInt_digits (digits : string) : Z :=
  match NilEmpty.uint_of_string digits with
  | Some d => Z.min (Z.of_uint d) Int.MaxInt64
  | None => 0
  end.

Definition parseSize (w : world) (s : string) : result Z :=
  match splitSizeRe (TrimSpace s) with
  | None => Err ErrBadSize
  | Some (m1, m2) =>
      let num := ParseInt_digits m1 in
      let unit_ := ToLower w m2 in
      let mul :=
        if String.eqb unit_ "k" then 1024
        else if String.eqb unit_ "m" then 1024 * 1024
        else if String.eqb unit_ "g" then 1024 * 1024 * 1024
        else if String.eqb unit_ "t" then 1024 * 1024 * 1024 * 1024
        else 1 in
      Ok (Int.i64 (num * mul))
  end.

(** ** [rawSplit]

    The file system is a finite map from paths to contents.  [rawSplit]
    reads the open input through its offset and appends to the part file it
    has created.  The loops are given [fuel], one unit per [Read] call and
    per part; [None] means the fuel ran out. *)

(** [fmt.Sprintf("%03d", n)] *)
Definition fmt_03d (n : Z) : string :=
  let pad (w : nat) (s : string) :=
    String.concat "" (repeat "0" (w - String.length s)) +:+ s in
  if n <? 0 then "-" +:+ pad 2%nat (fmt_d (- n)) else pad 3%nat (fmt_d n).

Record splitState := SplitState {
  fs : gmap string (list Byte.byte);
  offset : Z;
  nreads : nat;
  written : Z;
  out : list event
}.

(** [in.Read(buf[:toRead])] on a regular file at [offset_]. *)
Definition readAt (w : world) (k : nat) (content : list Byte.byte)
    (offset_ toRead : Z) : Z * option readErr :=
  if Read_fails w k then (0, Some ReadFailure)
  else
    let remaining := Z.of_nat (length content) - offset_ in
    if remaining <=? 0 then (0, Some EOF)
    else (Z.min (Z.min toRead remaining) (Z.max 1 (Read_limit w k)), None).

(** Lines 209-223: filling one part. *)
Fixpoint copyPart (fuel : nat) (w : world) (content : list Byte.byte)
    (partName : string) (partSize copied : Z) (st : splitState)
    : option (result Z * splitState) :=
  match fuel with
  | O => None
  | S fuel' =>
      if copied <? partSize then
        let toRead := 4 * 1024 * 1024 in
        let remain := Int.i64 (partSize - copied) in
        let toRead := if remain <? toRead then remain else toRead in
        let '(n, rErr) := readAt w (nreads st) content (offset st) toRead in
        let k := nreads st in
        if (0 <? n) && Write_fails w k
        then Some (Err ErrWrite, SplitState (fs st) (offset st + n) (S k)
                                   (written st) (out st))
        else
          let data := take (Z.to_nat n) (drop (Z.to_nat (offset st)) content) in
          let st' :=
            if 0 <? n then
              SplitState (alter (fun old => old ++ data) partName (fs st))
                         (offset st + n) (S k)
                         (Int.i64 (written st + n)) (out st)
            else SplitState (fs st) (offset st) (S k) (written st) (out st) in
          let copied' := if 0 <? n then Int.i64 (copied + n) else copied in
          match rErr with
          | None => copyPart fuel' w content partName partSize copied' st'
          | Some EOF => Some (Ok copied', st')
          | Some ReadFailure => Some (Err ErrRead, st')
          end
      else Some (Ok copied, st)
  end.

(** Lines 204-228: one part after the other. *)
Fixpoint splitLoop (fuel : nat) (w : world) (content : list Byte.byte)
    (pfx : string) (partSize total partIdx : Z) (st : splitState)
    : option (result unit * splitState) :=
  match fuel with
  | O => None
  | S fuel' =>
      let partName := pfx +:+ fmt_03d partIdx in
      if Create_fails w partName then Some (Err ErrCreate, st)
      else
        let st := SplitState (<[partName := []]> (fs st)) (offset st)
                             (nreads st) (written st) (out st) in
        match copyPart fuel w content partName partSize 0 st with
        | None => None
        | Some (Err e, st') => Some (Err e, st')
        | Some (Ok copied, st') =>
            let st' := SplitState (fs st') (offset st') (nreads st')
                                  (written st')
                                  (out st' ++ [SplitPart partName copied]) in
            if total <=? written st' then Some (Ok tt, st')
            else splitLoop fuel' w content pfx partSize total
                   (Int.i64 (partIdx + 1)) st'
        end
  end.

Definition rawSplit (fuel : nat) (w : world) (path partSizeStr : string)
    (rmAfter : bool) (fs0 : gmap string (list Byte.byte))
    : option (result unit * gmap string (list Byte.byte) * list event) :=
  match parseSize w partSizeStr with
  | Err e => Some (Err e, fs0, [])
  | Ok partSize =>
      if partSize <=? 0 then Some (Err ErrSizeNotPositive, fs0, [])
      else
        match (if Open_fails w path then None else fs0 !! path) with
        | None => Some (Err ErrOpen, fs0, [])
        | Some content =>
            if Stat_fails w path then Some (Err ErrStat, fs0, [])
            else
              let total := Z.of_nat (length content) in
              if total =? 0 then Some (Ok tt, fs0, [])
              else
                let pfx := path +:+ ".part-" in
                match splitLoop fuel w content pfx partSize total 0
                        (SplitState fs0 0 0 0 []) with
                | None => None
                | Some (Err e, st) => Some (Err e, fs st, out st)
                | Some (Ok _, st) =>
                    if rmAfter then
                      if Remove_fails w path
                      then Some (Err ErrRemove, fs st, out st)
                      else Some (Ok tt, delete path (fs st),
                                 out st ++ [RemovedOriginal path;
                                            DoneRawSplit pfx])
                    else Some (Ok tt, fs st, out st ++ [DoneRawSplit pfx])
                end
        end
  end.

(** ** [mergeZIP] *)

(** Lines 246-257: per-archive and overall uncompressed totals.  The slice
    [zipTotals] starts out as zeros. *)
Fixpoint totalsPass (w : world) (dir : string) (names : list string)
    (overallTotal : Z) : list Z * Z * list event :=
  match names with
  | [] => ([], overallTotal, [])
  | name :: rest =>
      match OpenReader w 0 (filepath.Join [dir; name]) with
      | None =>
          let '(zipTotals, total, warns) := totalsPass w dir rest overallTotal in
          (0 :: zipTotals, total, WarnOpenZip name :: warns)
      | Some zr =>
          let t := sumUncompressed zr in
          let '(zipTotals, total, warns) :=
            totalsPass w dir rest (Int.u64 (overallTotal + t)) in
          (t :: zipTotals, total, warns)
      end
  end.

(** Lines 261-271: the overall compressed size. *)
Fixpoint compressedPass (w : world) (dir : string) (names : list string)
    (overallCompressed : Z) : Z :=
  match names with
  | [] => overallCompressed
  | name :: rest =>
      match OpenReader w 1 (filepath.Join [dir; name]) with
      | None => compressedPass w dir rest overallCompressed
      | Some zr =>
          compressedPass w dir rest
            (fold_left (fun acc f =>
                          if IsDir f then acc
                          else Int.u64 (acc + CompressedSize64 f))
                       zr overallCompressed)
      end
  end.

(** Lines 272-278: the free space, 0 when it is not measured. *)
Definition freeBytesOf (w : world) (dir : string) : Z :=
  if negb (GOOS_windows w) then
    match Statfs w dir with
    | Some (Bavail, Bsize) => Int.u64 (Bavail * Int.u64 Bsize)
    | None => 0
    end
  else 0.

(** Lines 279-289: the bytes needed. *)
Definition diskNeed (w : world) (store_ : bool)
    (overallTotal overallCompressed : Z) : Z :=
  let to_u64 := F64.to_u64 (u64_of_float_overflow w) in
  if store_ then to_u64 (F64.of_int overallTotal * F64.c1_05)%float
  else
    let candidate := to_u64 (F64.of_int overallCompressed * F64.c1_25)%float in
    let candidate := if overallTotal <? candidate then overallTotal else candidate in
    to_u64 (F64.of_int candidate * F64.c1_10)%float.

(** A loop body either falls through to the next iteration or leaves
    [mergeZIP] with an error. *)
Inductive step :=
| Next (s : state)
| Fatal (e : error) (s : state).

(** Lines 342-358: the copy loop of one entry.  [wr_fails] is the error
    of [bw.Write(buf[:n])].  On a failed write the program closes the
    reader, flushes and returns; whatever [bw.Flush] and the [Close] calls
    return there is discarded. *)
Fixpoint copyLoop (zipName inner : string) (totalZip overallTotal : Z)
    (rs : list readResult) (s : state) : step :=
  match rs with
  | [] => Next s
  | r :: rest =>
      let n := rd_n r in
      let written :=
        if 0 <? n then
          if wr_fails r then Fatal ErrWrite (emit [WriteFailed; Flush] s)
          else
            let doneZip' := Int.u64 (doneZip s + Int.u64 n) in
            let overallDone' := Int.u64 (overallDone s + Int.u64 n) in
            let s' := State overallDone' (dedup s) doneZip'
                            (lastZipPct s) (lastAllPct s) (log s ++ [Wrote n]) in
            Next (printZipProgress doneZip' totalZip overallDone' overallTotal s')
        else Next s in
      match written with
      | Fatal e s' => Fatal e s'
      | Next s' =>
          match rd_err r with
          | None => copyLoop zipName inner totalZip overallTotal rest s'
          | Some EOF => Next s'
          | Some ReadFailure => Next (emit [WarnRead zipName inner] s')
          end
      end
  end.

(** Lines 320-361: the entries of one archive.  The header's method and
    modification time do not influence the control flow and are not
    recorded.  Lines 359-360 discard what [rc.Close] and [bw.Flush] return:
    [flush_fails] is not looked at, the flush is logged and the loop goes on
    with the next entry. *)
Fixpoint entryLoop (opt : options) (zipName : string)
    (totalZip overallTotal : Z) (files : list zipFile) (s : state) : step :=
  match files with
  | [] => Next s
  | f :: rest =>
      if IsDir f then entryLoop opt zipName totalZip overallTotal rest s
      else if shouldSkipPath (Name f)
      then entryLoop opt zipName totalZip overallTotal rest s
      else
        let '(target, dedup') :=
          mapTargetName (prefixByZip opt) zipName (Name f) (dedup s) in
        let s := State (overallDone s) dedup' (doneZip s)
                       (lastZipPct s) (lastAllPct s) (log s) in
        let hdrName := filepath.ToSlash target in
        if createHeader_fails f
        then entryLoop opt zipName totalZip overallTotal rest
               (emit [WarnHeader hdrName] s)
        else
          let s := emit [EntryHeader zipName (Name f) hdrName] s in
          if open_fails f
          then entryLoop opt zipName totalZip overallTotal rest
                 (emit [WarnOpenEntry zipName (Name f)] s)
          else
            match copyLoop zipName (Name f) totalZip overallTotal (reads f) s with
            | Fatal e s' => Fatal e s'
            | Next s' =>
                entryLoop opt zipName totalZip overallTotal rest (emit [Flush] s')
            end
  end.

(** Lines 309-365: the archives, each with its total from [zipTotals]. *)
Fixpoint zipLoop (w : world) (opt : options) (overallTotal : Z)
    (names : list string) (zipTotals : list Z) (s : state) : step :=
  match names, zipTotals with
  | name :: names', totalZip :: zipTotals' =>
      match OpenReader w 2 (filepath.Join [inputDir opt; name]) with
      | None =>
          zipLoop w opt overallTotal names' zipTotals'
            (emit [WarnOpenZip name] s)
      | Some zr =>
          let s := State (overallDone s) (dedup s) 0 (-1) (-1) (log s) in
          match entryLoop opt name totalZip overallTotal zr s with
          | Fatal e s' => Fatal e s'
          | Next s' =>
              zipLoop w opt overallTotal names' zipTotals'
                (emit [Newline]
                   (printZipProgress totalZip totalZip (overallDone s')
                      overallTotal s'))
          end
      end
  | _, _ => Next s
  end.

(** The calls deferred at lines 297 and 301, run at every return after
    the output file exists, and when [mergeZIP] panics. *)
Definition deferred : list event := [CloseZip; CloseFile].

(** [make([]byte, n)] panics ([runtime.makeslice]) when [n] is negative
    or larger than the runtime can allocate.  An allocation within that
    limit is taken to succeed. *)
Definition makeslice_panics (w : world) (n : Z) : bool :=
  (n <? 0) || (maxAlloc w <? n).

(** Lines 306-307: the copy buffer.  Its length is the [int] product
    [opt.chunkMB*1024*1024]; when that is 0 the buffer is one of 4 MiB,
    which every platform allocates, as it does for the buffer of
    [rawSplit] (line 201).  What matters to the control flow is whether the
    [make] of line 306 panics.  A [Read] into the buffer returns no more
    than its length, which [io.Reader] promises and [rd_n] is taken to
    respect. *)
Definition copyBuffer_panics (w : world) (chunkMB_ : Z) : bool :=
  makeslice_panics w (Int.i64 (Int.i64 (chunkMB_ * 1024) * 1024)).

Definition mergeZIP (w : world) (opt : options) : result string * list event :=
  if MkdirAll_fails w (outDir opt) then (Err ErrMkdirAll, [])
  else
    let outPath := filepath.Join [outDir opt; outBase opt +:+ ".zip"] in
    match listZipFiles w (inputDir opt) (filterGlob opt) with
    | Err e => (Err e, [])
    | Ok names =>
        if (length names =? 0)%nat then (Err ErrNoZip, [])
        else
          let '(zipTotals, overallTotal, warns) :=
            totalsPass w (inputDir opt) names 0 in
          let overallCompressed := compressedPass w (inputDir opt) names 0 in
          let freeBytes := freeBytesOf w (outDir opt) in
          let need := diskNeed w (store opt) overallTotal overallCompressed in
          if (0 <? freeBytes) && (freeBytes <? need)
          then (Err (ErrNoSpace need freeBytes), warns)
          else if Create_fails w outPath then (Err ErrCreate, warns)
          else if copyBuffer_panics w (chunkMB opt)
          then (Err PanicMakeSlice, warns ++ [CreateFile outPath] ++ deferred)
          else
            let s := State 0 ∅ 0 (-1) (-1) (warns ++ [CreateFile outPath]) in
            match zipLoop w opt overallTotal names zipTotals s with
            | Fatal e s' => (Err e, log s' ++ deferred)
            | Next s' =>
                if zwClose_fails w
                then (Err ErrCloseZip, log s' ++ [CloseZip] ++ deferred)
                else if outFileClose_fails w
                then (Err ErrCloseFile,
                      log s' ++ [CloseZip; CloseFile] ++ deferred)
                else (Ok outPath,
                      log s' ++ [CloseZip; CloseFile; Done outPath] ++ deferred)
            end
    end.

(** ** [humanBytes] *)

(** The quotient [num / den] rounded to the nearest integer, to the even
    one on a tie. *)
Definition round_half_even (num den : Z) : Z :=
  let q := num / den in
  let r := num mod den in
  if (den <? 2 * r) || ((den =? 2 * r) && Z.odd q) then q + 1 else q.

(** [fmt.Sprintf("%.1f", f)]: the decimal expansion of [f] rounded to one
    digit after the point, to nearest and to even on a tie. *)
Definition fmt_1f (f : float) : string :=
  match Prim2SF f with
  | SpecFloat.S754_zero s => (if s then "-" else "") +:+ "0.0"
  | SpecFloat.S754_finite s m e =>
      let tenths :=
        if 0 <=? e then 10 * Z.pos m * 2 ^ e
        else round_half_even (10 * Z.pos m) (2 ^ (- e)) in
      (if s then "-" else "")
        +:+ fmt_d (tenths / 10) +:+ "." +:+ fmt_d (tenths mod 10)
  | SpecFloat.S754_infinity s => if s then "-Inf" else "+Inf"
  | SpecFloat.S754_nan => "NaN"
  end.

(** Line 89: the loop over the units; [units] is what is left of the
    slice from index [i] on. *)
Fixpoint humanBytes_loop (f : float) (i_unit : string) (units : list string)
    : float * string :=
  match units with
  | [] => (f, i_unit)
  | next :: rest =>
      if PrimFloat.leb 0x1p+10%float f
      then humanBytes_loop (f / 0x1p+10)%float next rest
      else (f, i_unit)
  end.

Definition humanBytes (n : Z) : string :=
  let '(f, unit_) :=
    humanBytes_loop (F64.of_int n) "B" ["KB"; "MB"; "GB"; "TB"] in
  fmt_1f f +:+ " " +:+ unit_.

(** ** [fmtHMS] *)

(** [fmt.Sprintf("%02d", n)] *)
Definition fmt_02d (n : Z) : string :=
  let pad (w : nat) (s : string) :=
    String.concat "" (repeat "0" (w - String.length s)) +:+ s in
  if n <? 0 then "-" +:+ pad 1%nat (fmt_d (- n)) else pad 2%nat (fmt_d n).

(** [d.Seconds()] for a [time.Duration] of [d] nanoseconds. *)
Definition Seconds (d : Z) : float :=
  (F64.of_int (Z.quot d 1000000000)
   + F64.of_int (Z.rem d 1000000000) / 0x1.dcd65p+29)%float.

(** [int(f)]; a duration has fewer than 2^34 seconds, so the conversion
    is always defined. *)
Definition int_of_float (f : float) : Z :=
  match F64.trunc f with
  | Some v => Int.i64 v
  | None => - Int.two63
  end.

Definition fmtHMS (d : Z) : string :=
  let d := if d <? 0 then 0 else d in
  let s := int_of_float (Seconds d) in
  fmt_02d (Int.i64 (Z.quot s 3600)) +:+ ":"
    +:+ fmt_02d (Int.i64 (Z.quot (Z.rem s 3600) 60)) +:+ ":"
    +:+ fmt_02d (Z.rem s 60).

(** ** [parseFlags]

    [flag.Parse] fills the record from the command line, starting from the
    defaults of lines 37-47; what it leaves is the argument here.  The only
    error is the empty output name. *)

(** [strings.TrimRight(s, cutset)] for a cutset of ASCII characters. *)
Definition TrimRight (s cutset : string) : string :=
  String.rev (Str.TrimLeft (String.rev s) cutset).


(** [string(os.PathSeparator)] *)
Definition PathSeparator (w : world) : string :=
  if GOOS_windows w then "\" else "/".

Definition parseFlags (w : world) (opt : options) : option options :=
  if String.eqb (outBase opt) "" then None
  else
    let chunkMB_ := if chunkMB opt <=? 0 then 4 else chunkMB opt in
    let outDir_ :=
      if String.eqb (outDir opt) ""
      then TrimRight (inputDir opt) (PathSeparator w) +:+ "_output"
      else outDir opt in
    Some {| inputDir := inputDir opt; outDir := outDir_;
            outBase := outBase opt; filterGlob := filterGlob opt;
            store := store opt; deflateLevel := deflateLevel opt;
            chunkMB := chunkMB_; prefixByZip := prefixByZip opt;
            splitSize := splitSize opt; splitMode := splitMode opt;
            rmAfterSplit := rmAfterSplit opt |}.

(** ** [main]

    What [main] prints besides the output of [mergeZIP] and [rawSplit], and
    the exit code.  The bytes that [archive/zip] writes are not modelled, so
    the file system that [rawSplit] finds after the merge is an argument,
    [fs1]; it is returned unchanged when [rawSplit] is not called.  When
    [mergeZIP] panics, [main] does not get to look at a result: the runtime
    prints its report of the panic and the process ends with status 2. *)
Inductive output :=
| FlagError
| MergeEvent (e : event)
| MergeError (e : error)
| PanicReport
| NoteZipSplit
| SplitEvent (e : event)
| SplitError (e : error).

Definition main (fuel : nat) (w : world) (flags : options)
    (fs1 : gmap string (list Byte.byte))
    : option (Z * list output * gmap string (list Byte.byte)) :=
  match parseFlags w flags with
  | None => Some (2, [FlagError], fs1)
  | Some opt =>
      match mergeZIP w opt with
      | (Err PanicMakeSlice, evs) =>
          Some (2, map MergeEvent evs ++ [PanicReport], fs1)
      | (Err e, evs) => Some (1, map MergeEvent evs ++ [MergeError e], fs1)
      | (Ok outPath, evs) =>
          if negb (String.eqb (splitSize opt) "") then
            let note :=
              if negb (String.eqb (ToLower w (splitMode opt)) "raw")
              then [NoteZipSplit] else [] in
            match rawSplit fuel w outPath (splitSize opt)
                    (rmAfterSplit opt) fs1 with
            | None => None
            | Some (Err e, fs2, sevs) =>
                Some (3, map MergeEvent evs ++ note ++ map SplitEvent sevs
                           ++ [SplitError e], fs2)
            | Some (Ok _, fs2, sevs) =>
                Some (0, map MergeEvent evs ++ note ++ map SplitEvent sevs,
                      fs2)
            end
          else Some (0, map MergeEvent evs, fs1)
      end
  end.

(** * Vocabulary of the specification

    Names for what the theorems talk about: runs of the program, the
    wording of the specification, and invariants of the loops. *)

(** ** Running the deduplicator over a job

    [mergeZIP] starts from an empty table and threads it through every
    call.  [mapTargets] is that sequence of calls on a list of
    (archive name, inner path) pairs; [dedup_after] is the table they
    leave behind. *)
Fixpoint mapTargets (prefixByZip : bool) (inputs : list (string * string))
    (dedup : gmap string Z) : list string :=
  match inputs with
  | [] => []
  | (zipName, inner) :: rest =>
      let '(target, dedup') := mapTargetName prefixByZip zipName inner dedup in
      target :: mapTargets prefixByZip rest dedup'
  end.

Definition dedup_after (prefixByZip : bool) (inputs : list (string * string))
    : gmap string Z :=
  fold_left (fun d x => (mapTargetName prefixByZip x.1 x.2 d).2) inputs ∅.

(** How often the candidate [base] occurs among the candidates of
    [inputs]. *)
Definition occurrences (prefixByZip : bool) (inputs : list (string * string))
    (base : string) : nat :=
  length (filter (fun x => mapTargetName_base prefixByZip x.1 x.2 = base) inputs).

(** The specification's wording of the suffix: [__dup<N>] goes immediately
    before the final ["."] of the candidate, or at the end when the
    candidate has none. *)
Inductive dup_inserted (base : string) (N : Z) : string -> Prop :=
| dup_before_ext root tail :
    base = root +:+ "." +:+ tail ->
    Str.contains_char "." tail = false ->
    dup_inserted base N (root +:+ "__dup" +:+ fmt_d N +:+ "." +:+ tail)
| dup_at_end :
    Str.contains_char "." base = false ->
    dup_inserted base N (base +:+ "__dup" +:+ fmt_d N).

(** The entries created in the output, in order, each with the archive and
    inner path it was copied from. *)
Definition created (evs : list event) : list (string * string * string) :=
  omap (fun e => match e with
                 | EntryHeader z i t => Some (z, i, t)
                 | _ => None
                 end) evs.

(** ** The disk-space estimate *)

(** Section 4.3 of the specification in its own words.  A byte count
    times a factor is the binary64 product cut to whole bytes. *)
Definition scale_bytes (ovf : float -> Z) (bytes : Z) (factor : float) : Z :=
  F64.to_u64 ovf (F64.of_int bytes * factor)%float.

Definition required_spec (ovf : float -> Z) (store_ : bool)
    (uncompressed compressed : Z) : Z :=
  if store_ then scale_bytes ovf uncompressed F64.c1_05
  else
    let candidate := Z.min uncompressed (scale_bytes ovf compressed F64.c1_25) in
    scale_bytes ovf candidate F64.c1_10.

(** The integers [start], [start + 1], ..., [n] of them. *)
Fixpoint zrange (n : nat) (start : Z) : list Z :=
  match n with
  | O => []
  | S n' => start :: zrange n' (start + 1)
  end.

(** [uint64(f)] is defined and is [v]. *)
Definition trunc_is (f : float) (v : Z) : bool :=
  match F64.trunc f with
  | Some x => x =? v
  | None => false
  end.

(** ** Names for what [mergeZIP] computes before the gate *)

Definition scanTotal (w : world) (opt : options) (names : list string) : Z :=
  (totalsPass w (inputDir opt) names 0).1.2.

Definition scanWarnings (w : world) (opt : options) (names : list string)
    : list event :=
  (totalsPass w (inputDir opt) names 0).2.

Definition neededBytes (w : world) (opt : options) (names : list string) : Z :=
  diskNeed w (store opt) (scanTotal w opt names)
           (compressedPass w (inputDir opt) names 0).

Definition outPathOf (opt : options) : string :=
  filepath.Join [outDir opt; outBase opt +:+ ".zip"].

(** An event that leaves the output location alone. *)
Definition only_warning (e : event) : Prop :=
  match e with
  | WarnOpenZip _ => True
  | _ => False
  end.

(** ** The log of a job *)

(** The events of the copy loops other than a failed write. *)
Definition loop_event (e : event) : Prop :=
  match e with
  | EntryHeader _ _ _ | WarnHeader _ | WarnOpenEntry _ _ | Wrote _
  | WarnRead _ _ | Flush | Progress _ _ | Newline | WarnOpenZip _ => True
  | _ => False
  end.

(** A loop result whose log extends that of [s]: by loop events when the
    loop falls through, and by loop events, the failed write and the flush
    when it leaves with [ErrWrite]. *)
Definition grows (s : state) (r : step) : Prop :=
  match r with
  | Next s' => exists evs, log s' = log s ++ evs /\ Forall loop_event evs
  | Fatal e s' =>
      e = ErrWrite
      /\ exists evs, log s' = log s ++ evs ++ [WriteFailed; Flush]
           /\ Forall loop_event evs
  end.

(** Lines 367-371 and the deferred calls: how [mergeZIP] returns once
    the archive loop is over. *)
Definition finishJob (w : world) (opt : options) (r : step)
    : result string * list event :=
  match r with
  | Fatal e s' => (Err e, log s' ++ deferred)
  | Next s' =>
      if zwClose_fails w
      then (Err ErrCloseZip, log s' ++ [CloseZip] ++ deferred)
      else if outFileClose_fails w
      then (Err ErrCloseFile, log s' ++ [CloseZip; CloseFile] ++ deferred)
      else (Ok (outPathOf opt),
            log s' ++ [CloseZip; CloseFile; Done (outPathOf opt)] ++ deferred)
  end.

(** The state a loop ends in, with or without an error. *)
Definition state_of (r : step) : state :=
  match r with
  | Next s => s
  | Fatal _ s => s
  end.

(** ** Failed writes *)

(** Whether the copy loop of a stream gets to a [bw.Write] that fails: a
    read that returns bytes and whose write fails, with no read before it
    that ended the stream. *)
Fixpoint write_fails_in (rs : list readResult) : bool :=
  match rs with
  | [] => false
  | r :: rest =>
      ((0 <? rd_n r) && wr_fails r)
      || match rd_err r with
         | None => write_fails_in rest
         | Some _ => false
         end
  end.

(** An entry whose copy gets to a failing write: it is a file, it is not
    excluded by name, its header is created and its stream opens. *)
Definition entry_write_fails (f : zipFile) : bool :=
  negb (IsDir f) && negb (shouldSkipPath (Name f))
  && negb (createHeader_fails f) && negb (open_fails f)
  && write_fails_in (reads f).

(** A job in which some archive that opens for copying has such an
    entry. *)
Definition job_write_fails (w : world) (opt : options) (names : list string)
    : bool :=
  existsb (fun name =>
             match OpenReader w 2 (filepath.Join [inputDir opt; name]) with
             | Some zr => existsb entry_write_fails zr
             | None => false
             end) names.

(** The surroundings [w] with other answers to [bw.Flush]: [b] decides,
    entry by entry, whether the flush fails. *)
Definition set_flush (b : zipFile -> bool) (f : zipFile) : zipFile :=
  {| Name := Name f; IsDir := IsDir f;
     UncompressedSize64 := UncompressedSize64 f;
     CompressedSize64 := CompressedSize64 f;
     createHeader_fails := createHeader_fails f; open_fails := open_fails f;
     reads := reads f;
     flush_fails := b f |}.

Definition flush_world (b : zipFile -> bool) (w : world) : world :=
  {| ToLower := ToLower w;
     Match := Match w;
     u64_of_float_overflow := u64_of_float_overflow w;
     maxAlloc := maxAlloc w;
     GOOS_windows := GOOS_windows w;
     MkdirAll_fails := MkdirAll_fails w;
     ReadDir := ReadDir w;
     OpenReader := fun k path => map (set_flush b) <$> OpenReader w k path;
     Statfs := Statfs w;
     Create_fails := Create_fails w;
     zwClose_fails := zwClose_fails w;
     outFileClose_fails := outFileClose_fails w;
     Open_fails := Open_fails w;
     Stat_fails := Stat_fails w;
     Read_limit := Read_limit w;
     Read_fails := Read_fails w;
     Write_fails := Write_fails w;
     Remove_fails := Remove_fails w |}.

(** ** The progress lines *)

(** The overall percentages of the rendered status lines, in order. *)
Definition rendered (evs : list event) : list Z :=
  omap (fun e => match e with
                 | Progress _ ap => Some ap
                 | _ => None
                 end) evs.

(** An upper bound on the bytes the copy loops can count: everything the
    streams of the archives opened for copying would hand out. *)
Definition offered_reads (rs : list readResult) : Z :=
  foldr (fun r acc => Z.max 0 (rd_n r) + acc) 0 rs.

Definition offered_files (zr : list zipFile) : Z :=
  foldr (fun f acc => offered_reads (reads f) + acc) 0 zr.

Definition offered (w : world) (opt : options) (names : list string) : Z :=
  foldr (fun name acc =>
           match OpenReader w 2 (filepath.Join [inputDir opt; name]) with
           | Some zr => offered_files zr
           | None => 0
           end + acc) 0 names.

(** The bytes a stream hands to the copy loop when nothing goes wrong:
    no failed write, no read failure. *)
Fixpoint delivered (rs : list readResult) : option Z :=
  match rs with
  | [] => Some 0
  | r :: rest =>
      if (0 <? rd_n r) && wr_fails r then None
      else
        match rd_err r with
        | Some ReadFailure => None
        | Some EOF => Some (Z.max 0 (rd_n r))
        | None => (fun d => Z.max 0 (rd_n r) + d) <$> delivered rest
        end
  end.

(** An entry that is copied in full: it is a directory, or it is not
    excluded by name, its header and its stream open, and the stream
    delivers the declared size. *)
Definition copied_in_full (f : zipFile) : Prop :=
  IsDir f = true
  \/ (shouldSkipPath (Name f) = false
      /\ createHeader_fails f = false
      /\ open_fails f = false
      /\ delivered (reads f) = Some (UncompressedSize64 f)).

(** A job each of whose archives opens neither at the scan nor at the
    copy, or opens the same at both with entries that are all copied in
    full. *)
Definition faithful (w : world) (opt : options) (names : list string) : Prop :=
  Forall (fun name =>
            (OpenReader w 0 (filepath.Join [inputDir opt; name]) = None
             /\ OpenReader w 2 (filepath.Join [inputDir opt; name]) = None)
            \/ exists zr,
              OpenReader w 0 (filepath.Join [inputDir opt; name]) = Some zr
              /\ OpenReader w 2 (filepath.Join [inputDir opt; name]) = Some zr
              /\ Forall copied_in_full zr) names.

(** The archives that open for copying. *)
Definition opens (w : world) (opt : options) (name : string) : Prop :=
  is_Some (OpenReader w 2 (filepath.Join [inputDir opt; name])).

(** The bytes the copy loops count in a job without a failed write: of
    every stream that is copied, the reads up to and including the first
    that returns an error. *)
Fixpoint copied_reads (rs : list readResult) : Z :=
  match rs with
  | [] => 0
  | r :: rest =>
      Z.max 0 (rd_n r)
      + match rd_err r with
        | None => copied_reads rest
        | Some _ => 0
        end
  end.

Definition copied_entry (f : zipFile) : Z :=
  if IsDir f || shouldSkipPath (Name f) || createHeader_fails f
     || open_fails f
  then 0 else copied_reads (reads f).

Definition copied_files (zr : list zipFile) : Z :=
  foldr (fun f acc => copied_entry f + acc) 0 zr.

Definition copied (w : world) (opt : options) (names : list string) : Z :=
  foldr (fun name acc =>
           match OpenReader w 2 (filepath.Join [inputDir opt; name]) with
           | Some zr => copied_files zr
           | None => 0
           end + acc) 0 names.

(** What holds of the progress lines while an archive is copied, for the
    overall total [T]: the rendered percentages are sorted and none exceeds
    the percentage of the bytes done so far; and once a line was rendered
    for this archive, the last rendered percentage is [lastAllPct]. *)
Definition progress_inv (T : Z) (s : state) : Prop :=
  0 <= overallDone s
  /\ StronglySorted Z.le (rendered (log s))
  /\ Forall (fun x => x <= percent (overallDone s) T) (rendered (log s))
  /\ (lastZipPct s = -1 \/ last (rendered (log s)) = Some (lastAllPct s)).

(** The declared sizes of the file entries of an archive, and of the
    archives opened for copying, as plain sums. *)
Definition declared_total (zr : list zipFile) : Z :=
  foldr (fun f acc => (if IsDir f then 0 else UncompressedSize64 f) + acc) 0 zr.

Definition declared (w : world) (opt : options) (names : list string) : Z :=
  foldr (fun name acc =>
           match OpenReader w 2 (filepath.Join [inputDir opt; name]) with
           | Some zr => declared_total zr
           | None => 0
           end + acc) 0 names.

(** ** The parts of a raw split *)

(** Line 205: the name of part [i] of the file at [path]. *)
Definition partName (path : string) (i : Z) : string :=
  (path +:+ ".part-") +:+ fmt_03d i.

(** Bytes [i * partSize] up to [(i + 1) * partSize] of the content. *)
Definition chunk (content : list Byte.byte) (partSize : Z) (i : nat)
    : list Byte.byte :=
  take (Z.to_nat partSize) (drop (i * Z.to_nat partSize) content).

(** The file system after parts [i], [i + 1], ..., [i + m - 1] have been
    written. *)
Definition store_parts (path : string) (content : list Byte.byte)
    (partSize : Z) (fs0 : gmap string (list Byte.byte)) (i m : nat)
    : gmap string (list Byte.byte) :=
  foldl (fun fs_ j => <[partName path (Z.of_nat j) := chunk content partSize j]> fs_)
        fs0 (seq i m).

(** The number of parts: [total / partSize], rounded up. *)
Definition nparts (total partSize : Z) : nat :=
  Z.to_nat ((total + partSize - 1) / partSize).

(** No call of [rawSplit] on [path] fails. *)
Definition split_io_ok (w : world) (path : string) : Prop :=
  Open_fails w path = false
  /\ Stat_fails w path = false
  /\ Remove_fails w path = false
  /\ (forall name, Create_fails w name = false)
  /\ (forall k, Read_fails w k = false)
  /\ (forall k, Write_fails w k = false).

(** Decimal digits only. *)
Fixpoint all_digits (s : string) : bool :=
  match s with
  | EmptyString => true
  | String c s' => is_digit c && all_digits s'
  end.

(** ** The listing of archives *)

(** [a <= b] in Go's order on strings (byte-wise lexicographic): the
    comparison [b < a] of line 78 is false. *)
Definition str_le (a b : string) : Prop := String.ltb b a = false.

(** The names [listZipFiles] keeps, in directory order. *)
Definition zip_candidates (w : world) (glob : string) (ents : list DirEntry)
    : list string :=
  omap (fun e =>
          if de_IsDir e then None
          else
            match Match w glob (de_Name e) with
            | Some true =>
                if Str.HasSuffix (ToLower w (de_Name e)) ".zip"
                then Some (de_Name e) else None
            | _ => None
            end) ents.

(** An entry on which [filepath.Match] reports a malformed pattern. *)
Definition bad_pattern_at (w : world) (glob : string) (e : DirEntry) : Prop :=
  de_IsDir e = false /\ Match w glob (de_Name e) = None.

(** *** The exchange sort *)

(** Position [a] holds a least element of the list from [a] on. *)
Definition least_at (l : list string) (a : nat) : Prop :=
  forall b x y, (a < b)%nat -> l !! a = Some x -> l !! b = Some y -> str_le x y.

(** ** Size texts *)

(** White space of the regular expression only. *)
Fixpoint blanks (s : string) : bool :=
  match s with
  | EmptyString => true
  | String c s' => re_space c && blanks s'
  end.

(** The unit letters and their factors; no letter is a factor of 1. *)
Definition unit_factor (u : string) : option Z :=
  if String.eqb u "" then Some 1
  else if String.eqb u "k" || String.eqb u "K" then Some 1024
  else if String.eqb u "m" || String.eqb u "M" then Some (1024 * 1024)
  else if String.eqb u "g" || String.eqb u "G" then Some (1024 * 1024 * 1024)
  else if String.eqb u "t" || String.eqb u "T"
       then Some (1024 * 1024 * 1024 * 1024)
  else None.

(** An ASCII character that is not white space. *)
Definition plain (c : ascii) : Prop :=
  (Ascii.N_of_ascii c < 128)%N /\ asciiSpace c = false.

(** A character that cannot occur in a size: ASCII, not white space, not a
    digit and not a unit letter. *)
Definition foreign (c : ascii) : Prop :=
  plain c /\ is_digit c = false /\ Str.contains_char c "kmgtKMGT" = false.

Fixpoint chars (s : string) : list ascii :=
  match s with
  | EmptyString => []
  | String c s' => c :: chars s'
  end.

(** *** What a size text can contain *)

(** The characters of a text the regular expression matches. *)
Definition size_char (c : ascii) : bool :=
  re_space c || is_digit c || Str.contains_char c "kmgtKMGT"
  || (128 <=? Ascii.N_of_ascii c)%N.

(** ** The report of a split *)

(** The lines [rawSplit] prints for parts [i], [i + 1], ... of the sizes
    given. *)
Definition part_lines (path : string) (i : nat) (sizes : list Z) : list event :=
  imap (fun j c => SplitPart (partName path (Z.of_nat (i + j))) c) sizes.

(** The sum of a list of sizes. *)
Definition sum_sizes (sizes : list Z) : Z := foldr Z.add 0 sizes.

(** ** The entries of a job *)

(** An entry the copy loop does not pass over (lines 321-322). *)
Definition wanted (f : zipFile) : bool :=
  negb (IsDir f) && negb (shouldSkipPath (Name f)).

(** The (archive name, inner path) pairs of the wanted entries of one
    archive, and of all archives that open for copying, in order. *)
Definition archive_inputs (zipName : string) (zr : list zipFile)
    : list (string * string) :=
  map (fun f => (zipName, Name f)) (List.filter wanted zr).

Definition job_inputs (w : world) (opt : options) (names : list string)
    : list (string * string) :=
  flat_map (fun name =>
              match OpenReader w 2 (filepath.Join [inputDir opt; name]) with
              | Some zr => archive_inputs name zr
              | None => []
              end) names.

(** The table after the deduplicator has run over [inputs] from the
    table [d]. *)
Definition dedup_from (prefixByZip : bool) (inputs : list (string * string))
    (d : gmap string Z) : gmap string Z :=
  fold_left (fun d x => (mapTargetName prefixByZip x.1 x.2 d).2) inputs d.

(** The target names for which a header was asked of the archive writer,
    whether it was created or refused. *)
Definition header_targets (evs : list event) : list string :=
  omap (fun e => match e with
                 | EntryHeader _ _ t | WarnHeader t => Some t
                 | _ => None
                 end) evs.

(** [x] is an entry created from the wanted entry [f] of archive [z]
    whose header the archive writer accepted. *)
Definition entry_of (z : string) (files : list zipFile)
    (x : string * string * string) : Prop :=
  x.1.1 = z
  /\ exists f, f ∈ files /\ Name f = x.1.2 /\ IsDir f = false
       /\ shouldSkipPath (Name f) = false /\ createHeader_fails f = false.

Definition job_entry (w : world) (opt : options) (names : list string)
    (x : string * string * string) : Prop :=
  x.1.1 ∈ names
  /\ exists zr,
       OpenReader w 2 (filepath.Join [inputDir opt; x.1.1]) = Some zr
       /\ entry_of x.1.1 zr x.

(** ** Units and clock times *)

(** The name of unit number [j]. *)
Definition unit_name (j : nat) : string :=
  nth j ["B"; "KB"; "MB"; "GB"; "TB"] "TB".

(** [s] seconds as hours, minutes and seconds, each on two digits at
    least. *)
Definition hms (s : Z) : string :=
  fmt_02d (s / 3600) +:+ ":" +:+ fmt_02d (s mod 3600 / 60) +:+ ":"
    +:+ fmt_02d (s mod 60).

(** ** [main] *)



(** The flags with another value for [-splitmode]. *)
Definition with_splitMode (m : string) (o : options) : options :=
  {| inputDir := inputDir o; outDir := outDir o; outBase := outBase o;
     filterGlob := filterGlob o; store := store o;
     deflateLevel := deflateLevel o; chunkMB := chunkMB o;
     prefixByZip := prefixByZip o; splitSize := splitSize o;
     splitMode := m; rmAfterSplit := rmAfterSplit o |}.

(** What is printed, without the note about zip-split. *)
Definition without_note (outs : list output) : list output :=
  List.filter (fun o => match o with NoteZipSplit => false | _ => true end) outs.

(** ** The status line *)

(** The status line on the screen after [evs], when the line was [line]
    before: a progress line overwrites it, a newline leaves a fresh, empty
    line. *)
Fixpoint line_after (line : option (Z * Z)) (evs : list event)
    : option (Z * Z) :=
  match evs with
  | [] => line
  | Progress zp ap :: rest => line_after (Some (zp, ap)) rest
  | Newline :: rest => line_after None rest
  | _ :: rest => line_after line rest
  end.

(** No progress line repeats the line it overwrites. *)
Fixpoint fresh_lines (line : option (Z * Z)) (evs : list event) : Prop :=
  match evs with
  | [] => True
  | Progress zp ap :: rest =>
      line <> Some (zp, ap) /\ fresh_lines (Some (zp, ap)) rest
  | Newline :: rest => fresh_lines None rest
  | _ :: rest => fresh_lines line rest
  end.

(** The status lines that are on the screen when a newline is printed,
    in order. *)
Fixpoint closed_lines (line : option (Z * Z)) (evs : list event)
    : list (option (Z * Z)) :=
  match evs with
  | [] => []
  | Progress zp ap :: rest => closed_lines (Some (zp, ap)) rest
  | Newline :: rest => line :: closed_lines None rest
  | _ :: rest => closed_lines line rest
  end.

(** The variables [lastZipPct] and [lastAllPct] hold what is on the
    status line, if anything is. *)
Definition line_inv (s : state) : Prop :=
  fresh_lines None (log s)
  /\ match line_after None (log s) with
     | Some (zp, ap) => lastZipPct s = zp /\ lastAllPct s = ap
     | None => lastZipPct s = -1
     end.

(** An event that leaves the status line alone. *)
Definition quiet (e : event) : Prop :=
  match e with
  | Progress _ _ | Newline => False
  | _ => True
  end.

(** The archive opens for copying. *)
Definition opensb (w : world) (opt : options) (name : string) : bool :=
  match OpenReader w 2 (filepath.Join [inputDir opt; name]) with
  | Some _ => true
  | None => false
  end.

(** * Sample surroundings

    Concrete worlds on which the program is run below.  [lower_ascii] is
    [strings.ToLower] on ASCII text; [match_star_zip] is
    [filepath.Match("*.zip", name)] on names without a separator. *)

Definition lower_ascii_char (c : ascii) : ascii :=
  let n := Ascii.N_of_ascii c in
  if ((65 <=? n) && (n <=? 90))%N then Ascii.ascii_of_N (n + 32) else c.

Fixpoint lower_ascii (s : string) : string :=
  match s with
  | EmptyString => EmptyString
  | String c s' => String (lower_ascii_char c) (lower_ascii s')
  end.

Definition match_star_zip (glob name : string) : option bool :=
  Some (Str.HasSuffix name ".zip").

(** A file entry of [size] bytes that is read in one piece, then [io.EOF]. *)
Definition file_entry (name : string) (size : Z) : zipFile :=
  {| Name := name; IsDir := false;
     UncompressedSize64 := size; CompressedSize64 := size;
     createHeader_fails := false; open_fails := false;
     reads := [{| rd_n := size; rd_err := None; wr_fails := false |}];
     flush_fails := false |}.

(** The input directory ["in"] holds the archives [zips], every call
    succeeds, and [statfs] is what [syscall.Statfs] reports. *)
Definition sample_world (zips : list (string * list zipFile))
    (statfs : option (Z * Z)) : world :=
  {| ToLower := lower_ascii;
     Match := match_star_zip;
     u64_of_float_overflow := fun _ => Int.two63;
     maxAlloc := 2 ^ 48;
     GOOS_windows := false;
     MkdirAll_fails := fun _ => false;
     ReadDir := fun dir =>
       if String.eqb dir "in"
       then Some (map (fun z => {| de_Name := z.1; de_IsDir := false |}) zips)
       else None;
     OpenReader := fun _ path =>
       snd <$> list_find (fun z => ("in/" +:+ z.1) = path) zips
       ≫= fun z => Some z.2;
     Statfs := fun _ => statfs;
     Create_fails := fun _ => false;
     zwClose_fails := false;
     outFileClose_fails := false;
     Open_fails := fun _ => false;
     Stat_fails := fun _ => false;
     Read_limit := fun _ => 4 * 1024 * 1024;
     Read_fails := fun _ => false;
     Write_fails := fun _ => false;
     Remove_fails := fun _ => false |}.

Definition sample_options (store_ prefixByZip_ : bool) : options :=
  {| inputDir := "in"; outDir := "in_output"; outBase := "merged";
     filterGlob := "*.zip"; store := store_; deflateLevel := -1; chunkMB := 4;
     prefixByZip := prefixByZip_; splitSize := ""; splitMode := "raw";
     rmAfterSplit := false |}.

(** A file entry read in [count] pieces of [chunk] bytes. *)
Definition chunked_entry (name : string) (chunk : Z) (count : nat) : zipFile :=
  {| Name := name; IsDir := false;
     UncompressedSize64 := chunk * Z.of_nat count;
     CompressedSize64 := chunk * Z.of_nat count;
     createHeader_fails := false; open_fails := false;
     reads := repeat {| rd_n := chunk; rd_err := None; wr_fails := false |}
                     count;
     flush_fails := false |}.

(** One archive of 10 GiB, read 1 GiB at a time ([-store -chunk 1024]);
    the output file system has [blocks] free blocks of 4096 bytes. *)
Definition ten_GiB_world (blocks : Z) : world :=
  sample_world [("big.zip", [chunked_entry "big.bin" (1024 * 1024 * 1024) 10])]
               (Some (blocks, 4096)).

Definition ten_GiB_options : options :=
  {| inputDir := "in"; outDir := "in_output"; outBase := "merged";
     filterGlob := "*.zip"; store := true; deflateLevel := -1; chunkMB := 1024;
     prefixByZip := false; splitSize := ""; splitMode := "raw";
     rmAfterSplit := false |}.

(** A full disk: [Statfs] succeeds and reports no free block. *)
Definition full_disk_world : world :=
  sample_world [("a.zip", [file_entry "a.txt" 100])] (Some (0, 4096)).

(** The first entry cannot be given a header; the second is fine. *)
Definition header_failure_world : world :=
  sample_world
    [("a.zip",
      [{| Name := "bad.txt"; IsDir := false;
          UncompressedSize64 := 3; CompressedSize64 := 3;
          createHeader_fails := true; open_fails := false;
          reads := [{| rd_n := 3; rd_err := None; wr_fails := false |}];
          flush_fails := false |};
       file_entry "good.txt" 4])]
    None.

(** A read failure in the middle of an entry: 10 bytes declared, 5
    delivered. *)
Definition read_failure_world : world :=
  sample_world
    [("a.zip",
      [{| Name := "a.bin"; IsDir := false;
          UncompressedSize64 := 10; CompressedSize64 := 10;
          createHeader_fails := false; open_fails := false;
          reads := [{| rd_n := 5; rd_err := Some ReadFailure;
                       wr_fails := false |}];
          flush_fails := false |}])]
    None.

(** One archive with one entry of 100 bytes; the free space is not
    measured. *)
Definition plain_world : world :=
  sample_world [("a.zip", [file_entry "a.txt" 100])] None.

(** The job of [sample_options] with another [-chunk]. *)
Definition chunk_options (chunkMB_ : Z) : options :=
  {| inputDir := "in"; outDir := "in_output"; outBase := "merged";
     filterGlob := "*.zip"; store := false; deflateLevel := -1;
     chunkMB := chunkMB_;
     prefixByZip := false; splitSize := ""; splitMode := "raw";
     rmAfterSplit := false |}.

(** The second write of [big.bin] fails; one entry and one archive come
    after it. *)
Definition write_failure_world : world :=
  sample_world
    [("a.zip",
      [file_entry "first.txt" 3;
       {| Name := "big.bin"; IsDir := false;
          UncompressedSize64 := 12; CompressedSize64 := 12;
          createHeader_fails := false; open_fails := false;
          reads := [{| rd_n := 4; rd_err := None; wr_fails := false |};
                    {| rd_n := 4; rd_err := None; wr_fails := true |};
                    {| rd_n := 4; rd_err := None; wr_fails := false |}];
          flush_fails := false |};
       file_entry "late.txt" 5]);
     ("b.zip", [file_entry "b.txt" 6])]
    None.

(** Three archives are listed; [bad.zip] cannot be opened, neither at the
    scan nor at the copy. *)
Definition unreadable_archive_world : world :=
  {| ToLower := lower_ascii;
     Match := match_star_zip;
     u64_of_float_overflow := fun _ => Int.two63;
     maxAlloc := 2 ^ 48;
     GOOS_windows := false;
     MkdirAll_fails := fun _ => false;
     ReadDir := fun dir =>
       if String.eqb dir "in"
       then Some (map (fun n => {| de_Name := n; de_IsDir := false |})
                      ["a.zip"; "bad.zip"; "c.zip"])
       else None;
     OpenReader := fun _ path =>
       if String.eqb path "in/a.zip" then Some [file_entry "a.txt" 1]
       else if String.eqb path "in/c.zip" then Some [file_entry "c.txt" 4]
       else None;
     Statfs := fun _ => None;
     Create_fails := fun _ => false;
     zwClose_fails := false;
     outFileClose_fails := false;
     Open_fails := fun _ => false;
     Stat_fails := fun _ => false;
     Read_limit := fun _ => 4 * 1024 * 1024;
     Read_fails := fun _ => false;
     Write_fails := fun _ => false;
     Remove_fails := fun _ => false |}.

(** The second part of ["m.zip"] cannot be created. *)
Definition part_failure_world : world :=
  {| ToLower := lower_ascii;
     Match := match_star_zip;
     u64_of_float_overflow := fun _ => Int.two63;
     maxAlloc := 2 ^ 48;
     GOOS_windows := false;
     MkdirAll_fails := fun _ => false;
     ReadDir := fun _ => None;
     OpenReader := fun _ _ => None;
     Statfs := fun _ => None;
     Create_fails := fun name => String.eqb name "m.zip.part-001";
     zwClose_fails := false;
     outFileClose_fails := false;
     Open_fails := fun _ => false;
     Stat_fails := fun _ => false;
     Read_limit := fun _ => 4 * 1024 * 1024;
     Read_fails := fun _ => false;
     Write_fails := fun _ => false;
     Remove_fails := fun _ => false |}.

(** Two archives with the same file; the first also holds a directory
    and a Finder file. *)
Definition two_archives_world : world :=
  sample_world
    [("a.zip",
      [{| Name := "docs/"; IsDir := true;
          UncompressedSize64 := 0; CompressedSize64 := 0;
          createHeader_fails := false; open_fails := false; reads := [];
          flush_fails := false |};
       file_entry "docs/a.txt" 3;
       file_entry "docs/.DS_Store" 6]);
     ("b.zip", [file_entry "docs/a.txt" 4])]
    None.

(** Two archives are listed and neither can be opened. *)
Definition unreadable_world : world :=
  {| ToLower := lower_ascii;
     Match := match_star_zip;
     u64_of_float_overflow := fun _ => Int.two63;
     maxAlloc := 2 ^ 48;
     GOOS_windows := false;
     MkdirAll_fails := fun _ => false;
     ReadDir := fun _ =>
       Some [{| de_Name := "a.zip"; de_IsDir := false |};
             {| de_Name := "b.zip"; de_IsDir := false |}];
     OpenReader := fun _ _ => None;
     Statfs := fun _ => Some (1000, 4096);
     Create_fails := fun _ => false;
     zwClose_fails := false;
     outFileClose_fails := false;
     Open_fails := fun _ => false;
     Stat_fails := fun _ => false;
     Read_limit := fun _ => 4 * 1024 * 1024;
     Read_fails := fun _ => false;
     Write_fails := fun _ => false;
     Remove_fails := fun _ => false |}.


(** * Theorems *)

Lemma u64_small x : 0 <= x < Int.two64 -> Int.u64 x = x.
Proof. intros H. unfold Int.u64. now apply Z.mod_small. Qed.

Lemma i64_small x : - Int.two63 <= x < Int.two63 -> Int.i64 x = x.
Proof.
  intros H. unfold Int.i64.
  rewrite Z.mod_small; unfold Int.two63, Int.two64 in *; lia.
Qed.

Lemma u64_range x : 0 <= Int.u64 x < Int.two64.
Proof. unfold Int.u64, Int.two64. apply Z.mod_pos_bound. lia. Qed.

(** ** Strings: slices and the last dot *)

Lemma append_cons c s t : String c s +:+ t = String c (s +:+ t).
Proof. reflexivity. Qed.

Lemma append_nil_l t : "" +:+ t = t.
Proof. reflexivity. Qed.

Lemma append_nil_r s : s +:+ "" = s.
Proof. induction s as [|c s IH]; [done|]. by rewrite append_cons, IH. Qed.

Lemma append_assoc s t u : (s +:+ t) +:+ u = s +:+ t +:+ u.
Proof.
  induction s as [|c s IH]; [done|]. by rewrite !append_cons, IH.
Qed.

Lemma length_append s t :
  String.length (s +:+ t) = (String.length s + String.length t)%nat.
Proof.
  induction s as [|c s IH]; [done|]. rewrite append_cons. simpl. by rewrite IH.
Qed.

Lemma substring_all s : String.substring 0 (String.length s) s = s.
Proof. induction s as [|c s IH]; [done|]. simpl. by rewrite IH. Qed.

Lemma substring_app_l a b :
  String.substring 0 (String.length a) (a +:+ b) = a.
Proof.
  induction a as [|c a IH]; simpl.
  - by destruct b.
  - by rewrite IH.
Qed.

Lemma substring_app_r a b :
  String.substring (String.length a) (String.length b) (a +:+ b) = b.
Proof.
  induction a as [|c a IH]; simpl.
  - apply substring_all.
  - exact IH.
Qed.

Lemma slice_app_l a b : Str.slice (a +:+ b) 0 (Str.len a) = a.
Proof.
  unfold Str.slice, Str.len. rewrite Z.sub_0_r, Nat2Z.id. simpl Z.to_nat.
  apply substring_app_l.
Qed.

Lemma slice_app_r a b : Str.slice (a +:+ b) (Str.len a) (Str.len (a +:+ b)) = b.
Proof.
  unfold Str.slice, Str.len. rewrite length_append, Nat2Z.id.
  replace (Z.to_nat _) with (String.length b) by lia.
  apply substring_app_r.
Qed.

Lemma prefix_dot c s :
  String.prefix "." (String c s) = Ascii.eqb "." c.
Proof.
  change (String.prefix "." (String c s))
    with (if ascii_dec "." c then String.prefix "" s else false).
  destruct (ascii_dec "." c) as [<-|Hne].
  - by destruct s.
  - symmetry. by apply Ascii.eqb_neq.
Qed.

Lemma LastIndex_from_dot s : forall i found,
  (Str.contains_char "." s = false /\ Str.LastIndex_from s "." i found = found)
  \/ (exists a tail, s = a +:+ "." +:+ tail
        /\ Str.contains_char "." tail = false
        /\ Str.LastIndex_from s "." i found = i + Str.len a).
Proof.
  induction s as [|c s IH]; intros i found.
  - left. by split.
  - cbn [Str.LastIndex_from Str.contains_char]. rewrite prefix_dot.
    destruct (IH (i + 1) (if Ascii.eqb "." c then i else found))
      as [[Hno ->]|(a & tail & -> & Htail & ->)].
    + destruct (Ascii.eqb "." c) eqn:Hc.
      * right. apply Ascii.eqb_eq in Hc as <-.
        exists "", s. repeat split; [done|]. unfold Str.len. simpl. lia.
      * left. by split.
    + right. exists (String c a), tail. repeat split; [done|].
      unfold Str.len. simpl String.length. lia.
Qed.

(** What [strings.LastIndex(base, ".")] and the two slices compute: either
    [base] has no dot, or it splits at its last dot. *)
Lemma LastIndex_dot_split base :
  (Str.contains_char "." base = false /\ Str.LastIndex base "." = -1)
  \/ (exists root tail, base = root +:+ "." +:+ tail
        /\ Str.contains_char "." tail = false
        /\ 0 <= Str.LastIndex base "."
        /\ Str.slice base 0 (Str.LastIndex base ".") = root
        /\ Str.slice base (Str.LastIndex base ".") (Str.len base)
           = "." +:+ tail).
Proof.
  unfold Str.LastIndex.
  destruct (LastIndex_from_dot base 0 (-1))
    as [[Hno ->]|(a & tail & -> & Htail & ->)]; [by left|right].
  exists a, tail. rewrite Z.add_0_l. repeat split; try done.
  - unfold Str.len. lia.
  - apply slice_app_l.
  - apply slice_app_r.
Qed.

(** ** The path deduplicator *)

Lemma mapTargetName_fresh p z i (d : gmap string Z) :
  d !! mapTargetName_base p z i = None ->
  mapTargetName p z i d
  = (mapTargetName_base p z i, <[mapTargetName_base p z i := 1]> d).
Proof. intros H. unfold mapTargetName. cbv zeta. by rewrite H. Qed.

Lemma mapTargetName_collision p z i (d : gmap string Z) c :
  d !! mapTargetName_base p z i = Some c ->
  exists t, dup_inserted (mapTargetName_base p z i) c t
    /\ mapTargetName p z i d
       = (t, <[mapTargetName_base p z i := Int.i64 (c + 1)]> d).
Proof.
  intros H. unfold mapTargetName. cbv zeta. rewrite H.
  set (base := mapTargetName_base p z i).
  destruct (LastIndex_dot_split base)
    as [[Hno ->]|(root & tail & Hb & Htail & Hdot & -> & ->)].
  - change (0 <=? -1) with false. cbv iota beta.
    eexists; split; [|reflexivity].
    rewrite append_nil_r. by apply dup_at_end.
  - apply Z.leb_le in Hdot as ->.
    eexists; split; [|reflexivity]. by apply dup_before_ext.
Qed.

Lemma mapTargetName_table p z i (d : gmap string Z) :
  (mapTargetName p z i d).2
  = <[mapTargetName_base p z i :=
        match d !! mapTargetName_base p z i with
        | Some c => Int.i64 (c + 1)
        | None => 1
        end]> d.
Proof.
  unfold mapTargetName. cbv zeta.
  destruct (d !! mapTargetName_base p z i); [|done].
  by destruct (0 <=? _).
Qed.

Lemma occurrences_snoc p pre x b :
  occurrences p (pre ++ [x]) b
  = (occurrences p pre b
     + if decide (mapTargetName_base p x.1 x.2 = b) then 1 else 0)%nat.
Proof.
  unfold occurrences. rewrite filter_app, length_app. f_equal.
  rewrite filter_cons, filter_nil. by case_decide.
Qed.

Lemma occurrences_le p pre b : (occurrences p pre b <= length pre)%nat.
Proof. unfold occurrences. apply length_filter. Qed.

(** The table after a run holds, for every candidate, the number of times
    it has occurred; candidates that never occurred are absent. *)
Lemma dedup_after_lookup p pre b :
  Z.of_nat (length pre) < Int.two63 ->
  dedup_after p pre !! b
  = match occurrences p pre b with
    | O => None
    | S _ as n => Some (Z.of_nat n)
    end.
Proof.
  induction pre as [|x pre IH] using rev_ind; intros Hlen.
  - done.
  - rewrite length_app in Hlen. simpl in Hlen.
    unfold dedup_after. rewrite fold_left_app. cbn [fold_left].
    fold (dedup_after p pre). rewrite mapTargetName_table.
    rewrite occurrences_snoc.
    pose proof (occurrences_le p pre b) as Hle.
    destruct (decide (mapTargetName_base p x.1 x.2 = b)) as [->|Hne].
    + rewrite lookup_insert_eq, IH by lia.
      destruct (occurrences p pre b) as [|n] eqn:Hocc.
      * done.
      * rewrite i64_small by (unfold Int.two63 in *; lia).
        replace (S n + 1)%nat with (S (S n)) by lia. f_equal. lia.
    + rewrite lookup_insert_ne by done. rewrite IH by lia.
      by rewrite Nat.add_0_r.
Qed.

(** C2.  Processing [(z, i)] after the inputs [pre] of the same job: the
    first occurrence of a candidate is returned unchanged and its counter
    is seeded at 1; the n-th repetition (n = 1, 2, ...) returns the
    candidate with [__dup<n>] inserted immediately before its final ["."]
    (or appended when it has none), and the stored counter advances by one. *)
Theorem mapTargetName_dedup_numbering
    (p : bool) (pre : list (string * string)) (z i : string) :
  Z.of_nat (length pre) + 1 < Int.two63 ->
  let base := mapTargetName_base p z i in
  let n := occurrences p pre base in
  exists t,
    mapTargetName p z i (dedup_after p pre)
    = (t, <[base := Z.of_nat n + 1]> (dedup_after p pre))
    /\ (n = O -> t = base)
    /\ (n <> O -> dup_inserted base (Z.of_nat n) t).
Proof.
  intros Hlen base n.
  pose proof (dedup_after_lookup p pre base ltac:(lia)) as Hlk.
  pose proof (occurrences_le p pre base) as Hle.
  fold n in Hlk, Hle. destruct n as [|n'] eqn:Hn.
  - exists base. rewrite (mapTargetName_fresh _ _ _ _ Hlk). by repeat split.
  - destruct (mapTargetName_collision _ _ _ _ _ Hlk) as (t & Hins & ->).
    exists t. rewrite i64_small by (unfold Int.two63 in *; lia).
    by repeat split.
Qed.

Lemma mapTargetName_dedup_numbering_witness :
  exists t,
    mapTargetName false "b.zip" "a.txt"
      (dedup_after false [("a.zip", "a.txt")])
    = (t, <["a.txt" := 2]> (dedup_after false [("a.zip", "a.txt")]))
    /\ dup_inserted "a.txt" 1 t.
Proof.
  destruct (mapTargetName_dedup_numbering false [("a.zip", "a.txt")]
              "b.zip" "a.txt") as (t & H1 & _ & H3).
  - vm_compute. reflexivity.
  - exists t. split; [exact H1|]. apply H3. vm_compute. discriminate.
Defined.

(** ** Two archives with the same entry *)

(** C1, as stated, fails: the second [a.txt] is not named [a.txt__dup1]. *)
Lemma same_entry_suffix_not_appended :
  map snd (created (mergeZIP
     (sample_world [("a.zip", [file_entry "a.txt" 3]);
                    ("b.zip", [file_entry "a.txt" 4])] None)
     (sample_options false false)).2)
  <> ["a.txt"; "a.txt__dup1"].
Proof. vm_compute. discriminate. Qed.

(** C1, amended.  In flat mode two entries [a.txt] come out as [a.txt]
    and [a__dup1.txt], two entries [root/file.txt] as [root/file.txt] and
    [root/file__dup1.txt], whatever the archives are called; the unsuffixed
    name goes to the entry of the archive that sorts first, also when the
    directory lists the archives in the other order.  In prefixed mode
    [x.zip] and [y.zip] give [x/root/file.txt] and [y/root/file.txt]. *)
Theorem same_entry_in_two_archives :
  (forall z1 z2,
      mapTargets false [(z1, "a.txt"); (z2, "a.txt")] ∅
      = ["a.txt"; "a__dup1.txt"])
  /\ (forall z1 z2,
      mapTargets false [(z1, "root/file.txt"); (z2, "root/file.txt")] ∅
      = ["root/file.txt"; "root/file__dup1.txt"])
  /\ mapTargets true [("x.zip", "root/file.txt"); ("y.zip", "root/file.txt")] ∅
     = ["x/root/file.txt"; "y/root/file.txt"]
  /\ created (mergeZIP
       (sample_world [("b.zip", [file_entry "a.txt" 4]);
                      ("a.zip", [file_entry "a.txt" 3])] None)
       (sample_options false false)).2
     = [("a.zip", "a.txt", "a.txt"); ("b.zip", "a.txt", "a__dup1.txt")]
  /\ created (mergeZIP
       (sample_world [("x.zip", [file_entry "root/file.txt" 3]);
                      ("y.zip", [file_entry "root/file.txt" 4])] None)
       (sample_options false false)).2
     = [("x.zip", "root/file.txt", "root/file.txt");
        ("y.zip", "root/file.txt", "root/file__dup1.txt")]
  /\ created (mergeZIP
       (sample_world [("x.zip", [file_entry "root/file.txt" 3]);
                      ("y.zip", [file_entry "root/file.txt" 4])] None)
       (sample_options false true)).2
     = [("x.zip", "root/file.txt", "x/root/file.txt");
        ("y.zip", "root/file.txt", "y/root/file.txt")].
Proof.
  repeat split; try (intros z1 z2); vm_compute; reflexivity.
Qed.

(** C3: a literal entry name that already carries the suffix collides with
    a generated one.  Three archives holding [a.txt], [a.txt] and
    [a__dup1.txt] give the target [a__dup1.txt] twice. *)
Theorem mapTargetName_repeats_a_target :
  mapTargets false
    [("a.zip", "a.txt"); ("b.zip", "a.txt"); ("c.zip", "a__dup1.txt")] ∅
  = ["a.txt"; "a__dup1.txt"; "a__dup1.txt"]
  /\ map snd (created (mergeZIP
       (sample_world [("a.zip", [file_entry "a.txt" 1]);
                      ("b.zip", [file_entry "a.txt" 1]);
                      ("c.zip", [file_entry "a__dup1.txt" 1])] None)
       (sample_options false false)).2)
     = ["a.txt"; "a__dup1.txt"; "a__dup1.txt"]
  /\ ~ NoDup (mapTargets false
       [("a.zip", "a.txt"); ("b.zip", "a.txt"); ("c.zip", "a__dup1.txt")] ∅).
Proof.
  split; [vm_compute; reflexivity|]. split; [vm_compute; reflexivity|].
  intros H. apply NoDup_cons in H as [_ H]. apply NoDup_cons in H as [H _].
  apply H. vm_compute. left.
Qed.

(** ** The catalog totals *)

(** C6: [sumUncompressed] leaves out directories only.  An entry under
    [__MACOSX/] and one named [.DS_Store], which the copy loop skips, are
    counted in the total. *)
Theorem sumUncompressed_counts_skipped_entries :
  let zr := [file_entry "__MACOSX/._foo" 10; file_entry "sub/.DS_Store" 20;
             file_entry "a.txt" 5] in
  forallb (fun f => shouldSkipPath (Name f)) (take 2 zr) = true
  /\ sumUncompressed zr = 35
  /\ totalsPass (sample_world [("a.zip", zr)] None) "in" ["a.zip"] 0
     = ([35], 35, [])
  /\ compressedPass (sample_world [("a.zip", zr)] None) "in" ["a.zip"] 0 = 35
  /\ created (mergeZIP (sample_world [("a.zip", zr)] None)
                (sample_options false false)).2
     = [("a.zip", "a.txt", "a.txt")].
Proof. repeat split; vm_compute; reflexivity. Qed.

(** ** The disk-space estimate *)

Lemma diskNeed_required_spec w st u c :
  diskNeed w st u c = required_spec (u64_of_float_overflow w) st u c.
Proof.
  unfold diskNeed, required_spec, scale_bytes. destruct st; [done|].
  cbv zeta. f_equal. f_equal. f_equal.
  destruct (Z.ltb_spec u (F64.to_u64 (u64_of_float_overflow w)
                            (F64.of_int c * F64.c1_25)%float)); lia.
Qed.

Lemma zrange_In n : forall start u,
  start <= u < start + Z.of_nat n -> In u (zrange n start).
Proof.
  induction n as [|n IH]; intros start u Hu; [lia|].
  cbn [zrange]. destruct (Z.eq_dec u start) as [->|Hne]; [by left|].
  right. apply IH. lia.
Qed.

Lemma scale_bytes_trunc ovf u c v :
  trunc_is (F64.of_int u * c)%float v = true ->
  0 <= v < Int.two64 ->
  scale_bytes ovf u c = v.
Proof.
  unfold trunc_is, scale_bytes, F64.to_u64.
  destruct (F64.trunc _) as [x|]; [|done].
  intros ->%Z.eqb_eq [H1 H2].
  apply Z.leb_le in H1 as ->. by apply Z.ltb_lt in H2 as ->.
Qed.

(** Below 4096 bytes the three binary64 products, cut to whole bytes, are
    the exact products rounded down. *)
Lemma products_exact_below_4096 u :
  0 <= u < 4096 ->
  trunc_is (F64.of_int u * F64.c1_05)%float (u * 21 / 20) = true
  /\ trunc_is (F64.of_int u * F64.c1_25)%float (u * 5 / 4) = true
  /\ trunc_is (F64.of_int u * F64.c1_10)%float (u * 11 / 10) = true.
Proof.
  intros Hu.
  assert (forallb (fun u =>
                     trunc_is (F64.of_int u * F64.c1_05)%float (u * 21 / 20)
                     && trunc_is (F64.of_int u * F64.c1_25)%float (u * 5 / 4)
                     && trunc_is (F64.of_int u * F64.c1_10)%float (u * 11 / 10))
                  (zrange 4096 0) = true) as Hall by (vm_compute; reflexivity).
  rewrite forallb_forall in Hall.
  assert (In u (zrange 4096 0)) as Hin
    by (apply zrange_In; change (Z.of_nat 4096) with 4096; lia).
  apply Hall, andb_prop in Hin as [Hin H3].
  apply andb_prop in Hin as [H1 H2]. done.
Qed.

(** For every whole number of MiB below 4 GiB the store-mode product is
    the exact one rounded down. *)
Lemma store_product_exact_MiB k :
  0 <= k < 4096 ->
  trunc_is (F64.of_int (k * 2 ^ 20) * F64.c1_05)%float (k * 2 ^ 20 * 21 / 20)
  = true.
Proof.
  intros Hk.
  assert (forallb (fun k =>
                     trunc_is (F64.of_int (k * 2 ^ 20) * F64.c1_05)%float
                              (k * 2 ^ 20 * 21 / 20))
                  (zrange 4096 0) = true) as Hall by (vm_compute; reflexivity).
  rewrite forallb_forall in Hall.
  apply Hall, zrange_In. change (Z.of_nat 4096) with 4096. lia.
Qed.

Lemma diskNeed_exact_small w u c :
  0 <= u < 4096 -> 0 <= c < 4096 ->
  diskNeed w true u c = u * 21 / 20
  /\ diskNeed w false u c = Z.min u (c * 5 / 4) * 11 / 10.
Proof.
  intros Hu Hc. rewrite !diskNeed_required_spec. unfold required_spec.
  assert (forall x, 0 <= x < 4096 ->
            0 <= x * 21 / 20 < Int.two64 /\ 0 <= x * 5 / 4 < Int.two64
            /\ 0 <= x * 11 / 10 < Int.two64) as Hr.
  { intros x Hx. unfold Int.two64.
    repeat split; try (apply Z.div_pos; lia);
      apply Z.div_lt_upper_bound; lia. }
  split.
  - apply scale_bytes_trunc; [by apply products_exact_below_4096|].
    by apply Hr.
  - cbv zeta.
    rewrite (scale_bytes_trunc _ c _ (c * 5 / 4));
      [|by apply products_exact_below_4096|by apply Hr].
    assert (0 <= c * 5 / 4) by (apply Z.div_pos; lia).
    apply scale_bytes_trunc; [apply products_exact_below_4096; lia|].
    apply Hr. lia.
Qed.

Lemma diskNeed_store_exact_MiB w k c :
  0 <= k < 4096 ->
  diskNeed w true (k * 2 ^ 20) c = k * 2 ^ 20 * 21 / 20.
Proof.
  intros Hk. rewrite diskNeed_required_spec. unfold required_spec.
  apply scale_bytes_trunc; [by apply store_product_exact_MiB|].
  unfold Int.two64. split; [apply Z.div_pos; lia|].
  apply Z.div_lt_upper_bound; lia.
Qed.

(** C4.  The bytes needed are [uncompressed x 1.05] in store mode and
    [min(uncompressed, compressed x 1.25) x 1.10] in deflate mode, each
    product computed in binary64 and cut to whole bytes.  Below 4096 bytes,
    and in store mode for every whole number of MiB below 4 GiB, that is
    the exact product rounded down.  For 10 GiB in store mode the need is
    10.5 GiB: with 10 GiB free the job is refused before the output file
    exists, with 11 GiB free it runs. *)
Theorem diskNeed_estimate :
  (forall w st u c,
      diskNeed w st u c = required_spec (u64_of_float_overflow w) st u c)
  /\ (forall w u c, 0 <= u < 4096 -> 0 <= c < 4096 ->
        diskNeed w true u c = u * 21 / 20
        /\ diskNeed w false u c = Z.min u (c * 5 / 4) * 11 / 10)
  /\ (forall w k c, 0 <= k < 4096 ->
        diskNeed w true (k * 2 ^ 20) c = k * 2 ^ 20 * 21 / 20)
  /\ (forall w c, diskNeed w true (10 * 2 ^ 30) c = 10 * 2 ^ 30 + 2 ^ 29)
  /\ freeBytesOf (ten_GiB_world 2621440) "in_output" = 10 * 2 ^ 30
  /\ mergeZIP (ten_GiB_world 2621440) ten_GiB_options
     = (Err (ErrNoSpace (10 * 2 ^ 30 + 2 ^ 29) (10 * 2 ^ 30)), [])
  /\ freeBytesOf (ten_GiB_world 2883584) "in_output" = 11 * 2 ^ 30
  /\ (mergeZIP (ten_GiB_world 2883584) ten_GiB_options).1
     = Ok "in_output/merged.zip"
  /\ head (mergeZIP (ten_GiB_world 2883584) ten_GiB_options).2
     = Some (CreateFile "in_output/merged.zip").
Proof.
  split; [apply diskNeed_required_spec|].
  split; [intros w u c; apply diskNeed_exact_small|].
  split; [apply diskNeed_store_exact_MiB|].
  split; [intros w c; vm_compute; reflexivity|].
  repeat split; vm_compute; reflexivity.
Qed.

(** ** The pre-flight gate *)

Lemma totalsPass_warnings w dir names total :
  Forall only_warning (totalsPass w dir names total).2.
Proof.
  revert total. induction names as [|name rest IH]; intros total; simpl.
  - constructor.
  - destruct (OpenReader w 0 _).
    + specialize (IH (Int.u64 (total + sumUncompressed l))).
      by destruct (totalsPass w dir rest _) as [[? ?] ?].
    + specialize (IH total).
      destruct (totalsPass w dir rest total) as [[? ?] ?].
      constructor; [exact I | exact IH].
Qed.

Lemma mergeZIP_reaches_gate w opt names :
  MkdirAll_fails w (outDir opt) = false ->
  listZipFiles w (inputDir opt) (filterGlob opt) = Ok names ->
  names <> [] ->
  mergeZIP w opt
  = let freeBytes := freeBytesOf w (outDir opt) in
    let need := neededBytes w opt names in
    let warns := scanWarnings w opt names in
    if (0 <? freeBytes) && (freeBytes <? need)
    then (Err (ErrNoSpace need freeBytes), warns)
    else if Create_fails w (outPathOf opt) then (Err ErrCreate, warns)
    else if copyBuffer_panics w (chunkMB opt)
    then (Err PanicMakeSlice, warns ++ [CreateFile (outPathOf opt)] ++ deferred)
    else
      finishJob w opt
        (zipLoop w opt (scanTotal w opt names) names
           (totalsPass w (inputDir opt) names 0).1.1
           (State 0 ∅ 0 (-1) (-1) (warns ++ [CreateFile (outPathOf opt)]))).
Proof.
  intros Hmk Hls Hne. unfold mergeZIP. rewrite Hmk, Hls.
  destruct names as [|n0 names']; [done|].
  change (length (n0 :: names') =? 0)%nat with false. cbv iota.
  unfold neededBytes, scanWarnings, scanTotal, outPathOf, finishJob.
  by destruct (totalsPass w (inputDir opt) (n0 :: names') 0) as [[zt tot] warns].
Qed.

(** ** The log only grows

    Each loop appends to the log.  A loop that falls through has logged no
    failed write; a loop that leaves [mergeZIP] does so with [ErrWrite],
    and the failed write and the flush are the last things it logged. *)

Ltac loop_events :=
  repeat (rewrite Forall_app || rewrite Forall_cons || rewrite Forall_nil);
  repeat split; try done.

Lemma printZipProgress_log a b c d s :
  exists evs, log (printZipProgress a b c d s) = log s ++ evs
    /\ Forall loop_event evs.
Proof.
  unfold printZipProgress. cbv zeta. destruct (_ || _).
  - eexists. split; [reflexivity|]. loop_events.
  - exists []. rewrite app_nil_r. split; [done|]. loop_events.
Qed.

Lemma copyLoop_log z i tz ot rs : forall s,
  grows s (copyLoop z i tz ot rs s).
Proof.
  unfold grows. induction rs as [|r rest IH]; intros s.
  - cbn [copyLoop]. exists []. rewrite app_nil_r.
    split; [reflexivity|]. loop_events.
  - cbn [copyLoop]. cbv zeta.
    destruct (0 <? rd_n r).
    + destruct (wr_fails r).
      * split; [reflexivity|]. exists [].
        split; [reflexivity|]. loop_events.
      * set (s1 := State _ _ _ _ _ _).
        destruct (printZipProgress_log
                    (Int.u64 (doneZip s + Int.u64 (rd_n r))) tz
                    (Int.u64 (overallDone s + Int.u64 (rd_n r))) ot s1)
          as (evs1 & Hl1 & Hn1).
        set (s2 := printZipProgress _ _ _ _ s1) in *.
        assert (log s2 = log s ++ (Wrote (rd_n r) :: evs1)
                /\ Forall loop_event (Wrote (rd_n r) :: evs1)) as [Hl2 Hn2].
        { split; [|loop_events]. rewrite Hl1. subst s1. cbn [log].
          by rewrite <- app_assoc. }
        destruct (rd_err r) as [[|]|].
        -- exists (Wrote (rd_n r) :: evs1). by split.
        -- exists ((Wrote (rd_n r) :: evs1) ++ [WarnRead z i]). split.
           ++ unfold emit. cbn [log]. by rewrite Hl2, <- app_assoc.
           ++ loop_events.
        -- specialize (IH s2).
           destruct (copyLoop z i tz ot rest s2) as [s'|e s'].
           ++ destruct IH as (evs & -> & Hn). rewrite Hl2.
              exists ((Wrote (rd_n r) :: evs1) ++ evs).
              split; [by rewrite <- app_assoc|]. loop_events.
           ++ destruct IH as (-> & evs & -> & Hn). split; [reflexivity|].
              rewrite Hl2. exists ((Wrote (rd_n r) :: evs1) ++ evs).
              split; [by rewrite <- !app_assoc|]. loop_events.
    + destruct (rd_err r) as [[|]|].
      * exists []. rewrite app_nil_r. split; [reflexivity|]. loop_events.
      * eexists. split; [reflexivity|]. loop_events.
      * apply IH.
Qed.

Lemma grows_refl s : grows s (Next s).
Proof. exists []. rewrite app_nil_r. split; [done|]. loop_events. Qed.

Lemma grows_trans s s1 evs0 r :
  log s1 = log s ++ evs0 -> Forall loop_event evs0 -> grows s1 r -> grows s r.
Proof.
  intros Hl Hn. destruct r as [s'|e s']; cbn [grows].
  - intros (evs & -> & Hn'). exists (evs0 ++ evs).
    split; [by rewrite Hl, <- app_assoc|]. loop_events.
  - intros (-> & evs & -> & Hn'). split; [done|]. exists (evs0 ++ evs).
    split; [by rewrite Hl, <- !app_assoc|]. loop_events.
Qed.

Lemma copyLoop_grows z i tz ot rs s : grows s (copyLoop z i tz ot rs s).
Proof. apply copyLoop_log. Qed.

Lemma entryLoop_grows opt z tz ot files : forall s,
  grows s (entryLoop opt z tz ot files s).
Proof.
  induction files as [|f rest IH]; intros s; cbn [entryLoop].
  - apply grows_refl.
  - destruct (IsDir f); [apply IH|].
    destruct (shouldSkipPath (Name f)); [apply IH|].
    destruct (mapTargetName (prefixByZip opt) z (Name f) (dedup s))
      as [target dedup'].
    cbv zeta. set (s1 := State _ _ _ _ _ (log s)).
    destruct (createHeader_fails f).
    { eapply grows_trans; [..|apply IH]; [reflexivity|loop_events]. }
    destruct (open_fails f).
    { eapply (grows_trans _ _ [_; _]); [..|apply IH].
      - unfold emit. cbn [log]. by rewrite <- app_assoc.
      - loop_events. }
    pose proof (copyLoop_grows z (Name f) tz ot (reads f)
                  (emit [EntryHeader z (Name f) (filepath.ToSlash target)] s1))
      as Hc.
    destruct (copyLoop _ _ _ _ _ _) as [s'|e s'].
    + destruct Hc as (evs & Hl & Hn).
      eapply (grows_trans _ _ (EntryHeader z (Name f) (filepath.ToSlash target)
                                 :: evs ++ [Flush])); [..|apply IH].
      * unfold emit in *. cbn [log] in *. rewrite Hl.
        by rewrite <- !app_assoc.
      * loop_events.
    + eapply (grows_trans _ _ [_]); [..|exact Hc]; [reflexivity|loop_events].
Qed.

Lemma zipLoop_grows w opt ot names : forall zipTotals s,
  grows s (zipLoop w opt ot names zipTotals s).
Proof.
  induction names as [|name names' IH]; intros zipTotals s; cbn [zipLoop].
  - apply grows_refl.
  - destruct zipTotals as [|tz zipTotals']; [apply grows_refl|].
    destruct (OpenReader w 2 _) as [zr|].
    + cbv zeta. set (s1 := State _ _ _ _ _ (log s)).
      pose proof (entryLoop_grows opt name tz ot zr s1) as He.
      destruct (entryLoop _ _ _ _ _ _) as [s'|e s'].
      * destruct He as (evs & Hl & Hn).
        destruct (printZipProgress_log tz tz (overallDone s') ot s')
          as (evs1 & Hl1 & Hn1).
        eapply (grows_trans _ _ (evs ++ evs1 ++ [Newline])); [..|apply IH].
        -- unfold emit. cbn [log]. rewrite Hl1, Hl. subst s1. cbn [log].
           by rewrite <- !app_assoc.
        -- loop_events.
      * exact He.
    + eapply grows_trans; [..|apply IH]; [reflexivity|loop_events].
Qed.

(** C5 as stated fails on a full disk: the free space is measured, it is
    0 and so less than the 105 bytes needed, and the job still creates the
    output file and runs to the end. *)
Lemma full_disk_not_rejected :
  GOOS_windows full_disk_world = false
  /\ Statfs full_disk_world "in_output" = Some (0, 4096)
  /\ neededBytes full_disk_world (sample_options true false) ["a.zip"] = 105
  /\ (mergeZIP full_disk_world (sample_options true false)).1
     = Ok "in_output/merged.zip"
  /\ head (mergeZIP full_disk_world (sample_options true false)).2
     = Some (CreateFile "in_output/merged.zip").
Proof. repeat split; vm_compute; reflexivity. Qed.

(** C5, amended.  Once the archives are listed: when the free space is
    measured as more than 0 and less than the bytes needed, the job returns
    the rejection carrying both values, and all it has done is warn about
    archives it could not open.  When the free space is not measured (on
    Windows, or [Statfs] fails) the gate does not apply and the program's
    next step is [os.Create] of the output file. *)
Theorem preflight_gate (w : world) (opt : options) (names : list string) :
  MkdirAll_fails w (outDir opt) = false ->
  listZipFiles w (inputDir opt) (filterGlob opt) = Ok names ->
  names <> [] ->
  let free := freeBytesOf w (outDir opt) in
  let need := neededBytes w opt names in
  let warns := scanWarnings w opt names in
  Forall only_warning warns
  /\ (0 < free < need ->
      mergeZIP w opt = (Err (ErrNoSpace need free), warns))
  /\ (GOOS_windows w = true \/ Statfs w (outDir opt) = None ->
      free = 0
      /\ (Create_fails w (outPathOf opt) = true ->
          mergeZIP w opt = (Err ErrCreate, warns))
      /\ (Create_fails w (outPathOf opt) = false ->
          exists res rest,
            mergeZIP w opt
            = (res, warns ++ CreateFile (outPathOf opt) :: rest))).
Proof.
  intros Hmk Hls Hne free need warns.
  split; [apply totalsPass_warnings|].
  rewrite (mergeZIP_reaches_gate w opt names Hmk Hls Hne).
  fold free need warns. cbv zeta. split.
  - intros [Hpos Hlt].
    apply Z.ltb_lt in Hpos as ->. by apply Z.ltb_lt in Hlt as ->.
  - intros Hun.
    assert (free = 0) as Hfree.
    { unfold free, freeBytesOf. destruct Hun as [-> | ->]; [done|].
      by destruct (negb _). }
    split; [exact Hfree|]. rewrite Hfree.
    change (0 <? 0) with false. cbv iota beta. simpl andb. cbv iota.
    split.
    + by intros ->.
    + intros ->.
      destruct (copyBuffer_panics w (chunkMB opt));
        [eexists _, _; reflexivity|].
      set (s0 := State _ _ _ _ _ _).
      pose proof (zipLoop_grows w opt (scanTotal w opt names) names
                    (totalsPass w (inputDir opt) names 0).1.1 s0) as Hlog.
      destruct (zipLoop _ _ _ _ _ s0) as [s'|e s']; cbn [finishJob].
      * destruct Hlog as (evs & -> & _). subst s0. cbn [log].
        destruct (zwClose_fails w); [|destruct (outFileClose_fails w)];
          eexists _, _; rewrite <- !app_assoc; reflexivity.
      * destruct Hlog as (_ & evs & -> & _). subst s0. cbn [log].
        eexists _, _; rewrite <- !app_assoc; reflexivity.
Qed.

(** ** Fatal and non-fatal errors *)

Lemma mergeZIP_cases w opt :
  (exists e warns, mergeZIP w opt = (Err e, warns)
      /\ e <> ErrWrite /\ Forall only_warning warns)
  \/ (exists warns,
        Forall only_warning warns
        /\ copyBuffer_panics w (chunkMB opt) = true
        /\ mergeZIP w opt
           = (Err PanicMakeSlice,
              warns ++ [CreateFile (outPathOf opt)] ++ deferred))
  \/ (exists names zipTotals warns,
        Forall only_warning warns
        /\ copyBuffer_panics w (chunkMB opt) = false
        /\ mergeZIP w opt
           = finishJob w opt
               (zipLoop w opt (scanTotal w opt names) names zipTotals
                  (State 0 ∅ 0 (-1) (-1)
                         (warns ++ [CreateFile (outPathOf opt)])))).
Proof.
  destruct (MkdirAll_fails w (outDir opt)) eqn:Hmk.
  { left. exists ErrMkdirAll, []. unfold mergeZIP. rewrite Hmk.
    repeat split; [done|constructor]. }
  destruct (listZipFiles w (inputDir opt) (filterGlob opt)) as [names|e] eqn:Hls.
  2:{ left. exists e, []. unfold mergeZIP. rewrite Hmk, Hls.
      repeat split; [|constructor].
      unfold listZipFiles in Hls. destruct (ReadDir w _); [|by inversion Hls].
      revert Hls. generalize (@nil string).
      induction l as [|d l IH]; intros out0 Hls; simpl in Hls.
      - done.
      - destruct (de_IsDir d); [by eapply IH|].
        destruct (Match w _ _); [|by inversion Hls].
        destruct (_ && _); by eapply IH. }
  destruct names as [|n0 names'] eqn:Hn.
  { left. exists ErrNoZip, []. unfold mergeZIP. rewrite Hmk, Hls.
    repeat split; [done|constructor]. }
  rewrite <- Hn in *.
  rewrite (mergeZIP_reaches_gate w opt names Hmk Hls) by (by subst).
  cbv zeta. pose proof (totalsPass_warnings w (inputDir opt) names 0) as Hw.
  fold (scanWarnings w opt names) in Hw.
  destruct (_ && _).
  { left. eexists _, _. repeat split; [done|exact Hw]. }
  destruct (Create_fails w _).
  { left. eexists _, _. repeat split; [done|exact Hw]. }
  destruct (copyBuffer_panics w (chunkMB opt)) eqn:Hbuf.
  { right. left. by exists (scanWarnings w opt names). }
  right. right. exists names, (totalsPass w (inputDir opt) names 0).1.1,
    (scanWarnings w opt names).
  split; [exact Hw|]. by split.
Qed.

Lemma only_warning_not_in (e : event) (evs : list event) :
  Forall only_warning evs -> ~ only_warning e -> e ∉ evs.
Proof.
  intros Hall Hne Hin. apply Hne.
  rewrite Forall_forall in Hall. by apply Hall.
Qed.

Lemma loop_event_not_in (e : event) (evs : list event) :
  Forall loop_event evs -> ~ loop_event e -> e ∉ evs.
Proof.
  intros Hall Hne Hin. apply Hne.
  rewrite Forall_forall in Hall. by apply Hall.
Qed.

Ltac absent :=
  try match goal with |- ?x ∈ ?l -> False => change (x ∉ l) end;
  repeat (rewrite not_elem_of_app || rewrite not_elem_of_cons);
  repeat split;
  try discriminate;
  try apply not_elem_of_nil;
  try (eapply only_warning_not_in; [eassumption|by intros []]);
  try (eapply loop_event_not_in; [eassumption|by intros []]).

Lemma entryLoop_header_failure opt z tz ot f rest s :
  IsDir f = false ->
  shouldSkipPath (Name f) = false ->
  createHeader_fails f = true ->
  entryLoop opt z tz ot (f :: rest) s
  = entryLoop opt z tz ot rest
      (emit [WarnHeader
               (filepath.ToSlash
                  (mapTargetName (prefixByZip opt) z (Name f) (dedup s)).1)]
         (State (overallDone s)
                (mapTargetName (prefixByZip opt) z (Name f) (dedup s)).2
                (doneZip s) (lastZipPct s) (lastAllPct s) (log s))).
Proof.
  intros Hd Hs Hh. cbn [entryLoop]. rewrite Hd, Hs.
  destruct (mapTargetName _ _ _ _) as [target dedup']. cbv zeta.
  by rewrite Hh.
Qed.

Lemma mergeZIP_after_gate w opt names :
  MkdirAll_fails w (outDir opt) = false ->
  listZipFiles w (inputDir opt) (filterGlob opt) = Ok names ->
  names <> [] ->
  ~ (0 < freeBytesOf w (outDir opt) < neededBytes w opt names) ->
  Create_fails w (outPathOf opt) = false ->
  copyBuffer_panics w (chunkMB opt) = false ->
  mergeZIP w opt
  = finishJob w opt
      (zipLoop w opt (scanTotal w opt names) names
         (totalsPass w (inputDir opt) names 0).1.1
         (State 0 ∅ 0 (-1) (-1)
                (scanWarnings w opt names ++ [CreateFile (outPathOf opt)]))).
Proof.
  intros Hmk Hls Hne Hgate Hcr Hbuf.
  rewrite (mergeZIP_reaches_gate w opt names Hmk Hls Hne). cbv zeta.
  destruct (_ && _) eqn:Hg.
  { apply andb_true_iff in Hg as [H1 H2].
    apply Z.ltb_lt in H1, H2. lia. }
  by rewrite Hcr, Hbuf.
Qed.

Lemma totalsPass_length w dir names : forall total,
  length (totalsPass w dir names total).1.1 = length names.
Proof.
  induction names as [|name rest IH]; intros total; [done|].
  cbn [totalsPass]. destruct (OpenReader w 0 _) as [zr|].
  - specialize (IH (Int.u64 (total + sumUncompressed zr))).
    destruct (totalsPass w dir rest _) as [[zt tot] warns].
    cbn [fst snd length] in *. by rewrite IH.
  - specialize (IH total).
    destruct (totalsPass w dir rest total) as [[zt tot] warns].
    cbn [fst snd length] in *. by rewrite IH.
Qed.

(** A negative [-chunk] and one whose byte count wraps to a negative
    [int] make the allocation of the copy buffer panic, after the output
    file was created; a byte count that wraps to 0 gives the 4 MiB
    buffer. *)
Lemma copy_buffer_panics_examples :
  mergeZIP plain_world (chunk_options (-1))
  = (Err PanicMakeSlice,
     [CreateFile "in_output/merged.zip"; CloseZip; CloseFile])
  /\ mergeZIP plain_world (chunk_options (2 ^ 43))
     = (Err PanicMakeSlice,
        [CreateFile "in_output/merged.zip"; CloseZip; CloseFile])
  /\ mergeZIP plain_world (chunk_options (2 ^ 30))
     = (Err PanicMakeSlice,
        [CreateFile "in_output/merged.zip"; CloseZip; CloseFile])
  /\ (mergeZIP plain_world (chunk_options (2 ^ 44))).1
     = Ok "in_output/merged.zip"
  /\ (mergeZIP plain_world (chunk_options 0)).1
     = Ok "in_output/merged.zip".
Proof. repeat split; vm_compute; reflexivity. Qed.

(** *** Which loops leave with [ErrWrite] *)

Lemma copyLoop_write_fails z i tz ot rs : forall s,
  match copyLoop z i tz ot rs s with
  | Next _ => write_fails_in rs = false
  | Fatal e _ => e = ErrWrite /\ write_fails_in rs = true
  end.
Proof.
  induction rs as [|r rest IH]; intros s; cbn [copyLoop write_fails_in].
  - done.
  - cbv zeta. destruct (0 <? rd_n r); cbn [andb orb].
    + destruct (wr_fails r); cbn [orb]; [done|].
      destruct (rd_err r) as [[|]|]; [done|done|apply IH].
    + destruct (rd_err r) as [[|]|]; [done|done|apply IH].
Qed.

Lemma entryLoop_write_fails opt z tz ot files : forall s,
  match entryLoop opt z tz ot files s with
  | Next _ => existsb entry_write_fails files = false
  | Fatal e _ => e = ErrWrite /\ existsb entry_write_fails files = true
  end.
Proof.
  induction files as [|f rest IH]; intros s; cbn [entryLoop existsb].
  - done.
  - unfold entry_write_fails at 1 3.
    destruct (IsDir f); cbn [negb andb orb]; [apply IH|].
    destruct (shouldSkipPath (Name f)); cbn [negb andb orb]; [apply IH|].
    destruct (mapTargetName (prefixByZip opt) z (Name f) (dedup s))
      as [target dedup'].
    cbv zeta.
    destruct (createHeader_fails f); cbn [negb andb orb]; [apply IH|].
    destruct (open_fails f); cbn [negb andb orb]; [apply IH|].
    set (s2 := emit _ _).
    pose proof (copyLoop_write_fails z (Name f) tz ot (reads f) s2) as Hc.
    destruct (copyLoop z (Name f) tz ot (reads f) s2) as [s'|e s'].
    + rewrite Hc. cbn [orb]. apply IH.
    + destruct Hc as [-> ->]. done.
Qed.

Lemma zipLoop_write_fails w opt ot names : forall zipTotals s,
  length zipTotals = length names ->
  match zipLoop w opt ot names zipTotals s with
  | Next _ => job_write_fails w opt names = false
  | Fatal e _ => e = ErrWrite /\ job_write_fails w opt names = true
  end.
Proof.
  unfold job_write_fails.
  induction names as [|name rest IH]; intros zipTotals s Hlen;
    cbn [zipLoop existsb].
  - done.
  - destruct zipTotals as [|tz zipTotals']; [done|].
    cbn [length] in Hlen. apply Nat.succ_inj in Hlen.
    destruct (OpenReader w 2 (filepath.Join [inputDir opt; name]))
      as [zr|]; cbn [orb]; [|by apply IH].
    cbv zeta. set (s1 := State _ _ 0 (-1) (-1) (log s)).
    pose proof (entryLoop_write_fails opt name tz ot zr s1) as He.
    destruct (entryLoop opt name tz ot zr s1) as [s'|e s'].
    + rewrite He. cbn [orb]. by apply IH.
    + destruct He as [-> ->]. done.
Qed.

(** The copy loop leaves at the first write that fails: what it has done
    by then is what it does on the reads before that one. *)
Lemma copyLoop_first_failure z i tz ot pre r rest : forall s,
  Forall (fun r0 => rd_err r0 = None) pre ->
  write_fails_in pre = false ->
  0 < rd_n r ->
  wr_fails r = true ->
  copyLoop z i tz ot (pre ++ r :: rest) s
  = Fatal ErrWrite
      (emit [WriteFailed; Flush] (state_of (copyLoop z i tz ot pre s))).
Proof.
  induction pre as [|p pre IH]; intros s Hcont Hok Hn Hw.
  - cbn [app copyLoop state_of]. cbv zeta.
    apply Z.ltb_lt in Hn. by rewrite Hn, Hw.
  - apply Forall_cons in Hcont as [Hp Hcont].
    cbn [write_fails_in] in Hok. rewrite Hp in Hok.
    apply orb_false_iff in Hok as [Hwp Hok].
    cbn [app copyLoop]. cbv zeta. rewrite Hp.
    destruct (0 <? rd_n p); cbn [andb] in Hwp.
    + rewrite Hwp. by apply IH.
    + by apply IH.
Qed.

(** *** What [bw.Flush] returns is not looked at *)

Lemma listZipFiles_filter_flush b w glob entries : forall out,
  listZipFiles_filter (flush_world b w) glob entries out
  = listZipFiles_filter w glob entries out.
Proof.
  induction entries as [|d entries IH]; intros out; [done|].
  cbn [listZipFiles_filter]. destruct (de_IsDir d); [apply IH|].
  change (Match (flush_world b w)) with (Match w).
  change (ToLower (flush_world b w)) with (ToLower w).
  destruct (Match w _ _); [|done]. destruct (_ && _); apply IH.
Qed.

Lemma sumUncompressed_flush b zr :
  sumUncompressed (map (set_flush b) zr) = sumUncompressed zr.
Proof.
  unfold sumUncompressed. generalize 0.
  induction zr as [|f zr IH]; intros acc; [done|].
  cbn [map fold_left]. apply IH.
Qed.

Lemma totalsPass_flush b w dir names : forall total,
  totalsPass (flush_world b w) dir names total = totalsPass w dir names total.
Proof.
  induction names as [|name rest IH]; intros total; [done|].
  cbn [totalsPass].
  change (OpenReader (flush_world b w) 0 (filepath.Join [dir; name]))
    with (map (set_flush b) <$> OpenReader w 0 (filepath.Join [dir; name])).
  destruct (OpenReader w 0 _) as [zr|]; cbn [fmap option_fmap option_map].
  - by rewrite sumUncompressed_flush, IH.
  - by rewrite IH.
Qed.

Lemma compressedPass_flush b w dir names : forall acc,
  compressedPass (flush_world b w) dir names acc
  = compressedPass w dir names acc.
Proof.
  induction names as [|name rest IH]; intros acc; [done|].
  cbn [compressedPass].
  change (OpenReader (flush_world b w) 1 (filepath.Join [dir; name]))
    with (map (set_flush b) <$> OpenReader w 1 (filepath.Join [dir; name])).
  destruct (OpenReader w 1 _) as [zr|]; cbn [fmap option_fmap option_map];
    [|apply IH].
  rewrite IH. f_equal. clear IH. revert acc.
  induction zr as [|f zr IHz]; intros acc; [done|].
  cbn [map fold_left]. apply IHz.
Qed.

Lemma entryLoop_flush b opt z tz ot files : forall s,
  entryLoop opt z tz ot (map (set_flush b) files) s
  = entryLoop opt z tz ot files s.
Proof.
  induction files as [|f rest IH]; intros s; [done|].
  cbn [map entryLoop set_flush Name IsDir createHeader_fails open_fails reads].
  destruct (IsDir f); [apply IH|].
  destruct (shouldSkipPath (Name f)); [apply IH|].
  destruct (mapTargetName _ _ _ _) as [target dedup']. cbv zeta.
  destruct (createHeader_fails f); [apply IH|].
  destruct (open_fails f); [apply IH|].
  destruct (copyLoop _ _ _ _ _ _); [apply IH|done].
Qed.

Lemma zipLoop_flush b w opt ot names : forall zipTotals s,
  zipLoop (flush_world b w) opt ot names zipTotals s
  = zipLoop w opt ot names zipTotals s.
Proof.
  induction names as [|name rest IH]; intros zipTotals s; [done|].
  destruct zipTotals as [|tz zipTotals']; [done|].
  cbn [zipLoop].
  change (OpenReader (flush_world b w) 2
            (filepath.Join [inputDir opt; name]))
    with (map (set_flush b)
            <$> OpenReader w 2 (filepath.Join [inputDir opt; name])).
  destruct (OpenReader w 2 _) as [zr|]; cbn [fmap option_fmap option_map];
    [|apply IH].
  cbv zeta. rewrite entryLoop_flush.
  destruct (entryLoop _ _ _ _ _ _); [apply IH|done].
Qed.

Lemma mergeZIP_flush b w opt :
  mergeZIP (flush_world b w) opt = mergeZIP w opt.
Proof.
  unfold mergeZIP.
  change (MkdirAll_fails (flush_world b w)) with (MkdirAll_fails w).
  destruct (MkdirAll_fails w (outDir opt)); [done|]. cbv zeta.
  assert (listZipFiles (flush_world b w) (inputDir opt) (filterGlob opt)
          = listZipFiles w (inputDir opt) (filterGlob opt)) as ->.
  { unfold listZipFiles.
    change (ReadDir (flush_world b w)) with (ReadDir w).
    destruct (ReadDir w _); [|done].
    by rewrite listZipFiles_filter_flush. }
  destruct (listZipFiles w _ _) as [names|e]; [|done].
  destruct (length names =? 0)%nat; [done|].
  rewrite totalsPass_flush, compressedPass_flush.
  destruct (totalsPass w (inputDir opt) names 0) as [[zt tot] warns].
  change (freeBytesOf (flush_world b w)) with (freeBytesOf w).
  change (diskNeed (flush_world b w)) with (diskNeed w).
  change (Create_fails (flush_world b w)) with (Create_fails w).
  change (copyBuffer_panics (flush_world b w)) with (copyBuffer_panics w).
  change (zwClose_fails (flush_world b w)) with (zwClose_fails w).
  change (outFileClose_fails (flush_world b w)) with (outFileClose_fails w).
  by rewrite zipLoop_flush.
Qed.

(** C7, amended.  Take a job that gets to copy: the archives are listed,
    the gate lets it pass, the output file is created and the copy buffer
    allocated.  The job returns [ErrWrite] exactly when the copy gets to a
    [bw.Write] that fails; otherwise the error of [zw.Close], otherwise
    that of [outFile.Close], otherwise the output path.  Each of these
    errors ends the job at once: after the failed write only the flush and
    the deferred closes happen, and after a failing [Close] only the
    deferred closes, with no completion line.  The copy loop leaves at
    the first write that fails.  A failing header creation is a warning
    and the entry loop goes on with the next entry.  What [bw.Flush]
    returns changes nothing. *)
Theorem write_and_finalize_errors_abort
    (w : world) (opt : options) (names : list string) :
  MkdirAll_fails w (outDir opt) = false ->
  listZipFiles w (inputDir opt) (filterGlob opt) = Ok names ->
  names <> [] ->
  ~ (0 < freeBytesOf w (outDir opt) < neededBytes w opt names) ->
  Create_fails w (outPathOf opt) = false ->
  copyBuffer_panics w (chunkMB opt) = false ->
  let res := (mergeZIP w opt).1 in
  let evs := (mergeZIP w opt).2 in
  let started := scanWarnings w opt names ++ [CreateFile (outPathOf opt)] in
  res = (if job_write_fails w opt names then Err ErrWrite
         else if zwClose_fails w then Err ErrCloseZip
         else if outFileClose_fails w then Err ErrCloseFile
         else Ok (outPathOf opt))
  /\ (exists copy,
        Forall loop_event copy
        /\ evs = started ++ copy
                 ++ (if job_write_fails w opt names then [WriteFailed; Flush]
                     else if zwClose_fails w then [CloseZip]
                     else if outFileClose_fails w then [CloseZip; CloseFile]
                     else [CloseZip; CloseFile; Done (outPathOf opt)])
                 ++ deferred)
  /\ (forall z i tz ot pre r rest s,
        Forall (fun r0 => rd_err r0 = None) pre ->
        write_fails_in pre = false ->
        0 < rd_n r ->
        wr_fails r = true ->
        copyLoop z i tz ot (pre ++ r :: rest) s
        = Fatal ErrWrite
            (emit [WriteFailed; Flush]
               (state_of (copyLoop z i tz ot pre s))))
  /\ (forall z tz ot f rest s,
        IsDir f = false ->
        shouldSkipPath (Name f) = false ->
        createHeader_fails f = true ->
        entryLoop opt z tz ot (f :: rest) s
        = entryLoop opt z tz ot rest
            (emit [WarnHeader
                     (filepath.ToSlash
                        (mapTargetName (prefixByZip opt) z (Name f)
                           (dedup s)).1)]
               (State (overallDone s)
                      (mapTargetName (prefixByZip opt) z (Name f)
                         (dedup s)).2
                      (doneZip s) (lastZipPct s) (lastAllPct s) (log s))))
  /\ (forall b, mergeZIP (flush_world b w) opt = mergeZIP w opt).
Proof.
  intros Hmk Hls Hne Hgate Hcr Hbuf res evs started.
  split; [|split; [|split; [|split]]].
  4: intros; by apply entryLoop_header_failure.
  4: intros; apply mergeZIP_flush.
  3: intros; by apply copyLoop_first_failure.
  all: subst res evs started;
    rewrite (mergeZIP_after_gate w opt names Hmk Hls Hne Hgate Hcr Hbuf);
    set (s0 := State _ _ _ _ _ _);
    pose proof (zipLoop_write_fails w opt (scanTotal w opt names) names
                  (totalsPass w (inputDir opt) names 0).1.1 s0
                  (totalsPass_length _ _ _ _)) as Hwf;
    pose proof (zipLoop_grows w opt (scanTotal w opt names) names
                  (totalsPass w (inputDir opt) names 0).1.1 s0) as Hg;
    destruct (zipLoop _ _ _ _ _ s0) as [s'|e s']; cbn [grows finishJob] in *.
  - rewrite Hwf.
    by destruct (zwClose_fails w); [|destruct (outFileClose_fails w)].
  - by destruct Hwf as [-> ->].
  - rewrite Hwf. destruct Hg as (copy & Hl & Hle). exists copy.
    split; [done|]. rewrite Hl. subst s0. cbn [log].
    destruct (zwClose_fails w); [|destruct (outFileClose_fails w)];
      cbn [snd]; by rewrite <- !app_assoc.
  - destruct Hwf as [-> ->]. destruct Hg as (_ & copy & Hl & Hle).
    exists copy. split; [done|]. rewrite Hl. subst s0. cbn [log snd].
    by rewrite <- !app_assoc.
Qed.

Lemma write_and_finalize_errors_abort_witness :
  job_write_fails write_failure_world (sample_options false false)
    ["a.zip"; "b.zip"] = true
  /\ (mergeZIP write_failure_world (sample_options false false)).1
     = Err ErrWrite
  /\ exists copy,
       Forall loop_event copy
       /\ (mergeZIP write_failure_world (sample_options false false)).2
          = [CreateFile "in_output/merged.zip"] ++ copy
            ++ [WriteFailed; Flush; CloseZip; CloseFile].
Proof.
  pose proof (write_and_finalize_errors_abort write_failure_world
                (sample_options false false) ["a.zip"; "b.zip"]) as H.
  destruct H as (Hres & (copy & Hcopy & Hevs) & _).
  - reflexivity.
  - vm_compute. reflexivity.
  - discriminate.
  - intros [H1 _]. vm_compute in H1. discriminate.
  - reflexivity.
  - vm_compute. reflexivity.
  - split; [vm_compute; reflexivity|]. split.
    + rewrite Hres. vm_compute. reflexivity.
    + exists copy. split; [exact Hcopy|]. rewrite Hevs.
      vm_compute. reflexivity.
Defined.

(** C7 as stated fails for the first of its three errors: the header of
    [bad.txt] cannot be created, the program warns, goes on to copy
    [good.txt] and reports success. *)
Lemma header_error_not_fatal :
  mergeZIP header_failure_world (sample_options false false)
  = (Ok "in_output/merged.zip",
     [CreateFile "in_output/merged.zip"; WarnHeader "bad.txt";
      EntryHeader "a.zip" "good.txt" "good.txt"; Wrote 4; Progress 57 57;
      Flush; Progress 100 57; Newline; CloseZip; CloseFile;
      Done "in_output/merged.zip"; CloseZip; CloseFile]).
Proof. vm_compute. reflexivity. Qed.

Lemma preflight_gate_witness :
  mergeZIP (ten_GiB_world 2621440) ten_GiB_options
  = (Err (ErrNoSpace (10 * 2 ^ 30 + 2 ^ 29) (10 * 2 ^ 30)), []).
Proof.
  destruct (preflight_gate (ten_GiB_world 2621440) ten_GiB_options ["big.zip"])
    as (_ & H & _).
  - reflexivity.
  - vm_compute. reflexivity.
  - discriminate.
  - rewrite H.
    + vm_compute. reflexivity.
    + vm_compute. split; reflexivity.
Defined.
(** ** The progress lines *)

Lemma percent_small d T :
  0 <= d -> d * 100 < Int.two63 -> 0 < T -> percent d T = d * 100 / T.
Proof.
  intros Hd Hb HT. unfold percent.
  apply Z.ltb_lt in HT as HT'. rewrite HT'.
  assert (0 <= d * 100 / T <= d * 100) as Hq.
  { split; [apply Z.div_pos; lia|].
    apply Z.div_le_upper_bound; [lia|]. nia. }
  rewrite u64_small by (unfold Int.two63, Int.two64 in *; lia).
  apply i64_small. unfold Int.two63 in *. lia.
Qed.

Lemma percent_mono d1 d2 T :
  0 <= d1 <= d2 -> d2 * 100 < Int.two63 -> percent d1 T <= percent d2 T.
Proof.
  intros Hd Hb. destruct (Z.ltb_spec 0 T) as [HT|HT].
  - rewrite !percent_small by lia. apply Z.div_le_mono; lia.
  - unfold percent. apply Z.ltb_ge in HT as ->. lia.
Qed.

Lemma percent_all T : 0 <= T -> T * 100 < Int.two63 -> percent T T = 100.
Proof.
  intros HT Hb. destruct (Z.eq_dec T 0) as [->|Hne]; [done|].
  rewrite percent_small by lia. rewrite (Z.mul_comm T 100).
  apply Z.div_mul. lia.
Qed.

(** The archive percentage of the closing line of an archive is never the
    initial -1, whatever the total. *)
Lemma percent_self_range tz : 0 <= percent tz tz <= 100.
Proof.
  unfold percent. destruct (Z.ltb_spec 0 tz) as [HT|HT]; [|lia].
  pose proof (u64_range (tz * 100)) as Hr.
  assert (Int.u64 (tz * 100) <= tz * 100) as Hle.
  { unfold Int.u64. apply Z.mod_le; unfold Int.two64; lia. }
  assert (0 <= Int.u64 (tz * 100) / tz <= 100) as Hq.
  { split; [apply Z.div_pos; lia|].
    apply Z.div_le_upper_bound; lia. }
  rewrite i64_small; unfold Int.two63; lia.
Qed.

Lemma rendered_app evs1 evs2 :
  rendered (evs1 ++ evs2) = rendered evs1 ++ rendered evs2.
Proof. apply omap_app. Qed.

Lemma sorted_snoc (l : list Z) x :
  StronglySorted Z.le l -> Forall (fun y => y <= x) l ->
  StronglySorted Z.le (l ++ [x]).
Proof.
  intros Hs Hall. apply StronglySorted_app_2; [|done|repeat constructor].
  intros x1 x2 H1 H2. apply list_elem_of_singleton in H2 as ->.
  rewrite Forall_forall in Hall. by apply Hall.
Qed.

Lemma progress_inv_same T s s' :
  overallDone s' = overallDone s ->
  rendered (log s') = rendered (log s) ->
  lastZipPct s' = lastZipPct s ->
  lastAllPct s' = lastAllPct s ->
  progress_inv T s -> progress_inv T s'.
Proof. unfold progress_inv. by intros -> -> -> ->. Qed.

Lemma progress_inv_emit T evs s :
  rendered evs = [] -> progress_inv T s -> progress_inv T (emit evs s).
Proof.
  intros Hr. apply progress_inv_same; try done.
  unfold emit. cbn [log]. by rewrite rendered_app, Hr, app_nil_r.
Qed.

Lemma printZipProgress_overallDone a b c d s :
  overallDone (printZipProgress a b c d s) = overallDone s.
Proof. unfold printZipProgress. cbv zeta. by destruct (_ || _). Qed.

Lemma printZipProgress_inv T done total s :
  progress_inv T s ->
  progress_inv T (printZipProgress done total (overallDone s) T s).
Proof.
  intros (Hd & Hs & Hall & Hk). unfold printZipProgress. cbv zeta.
  destruct (_ || _); [|done].
  unfold progress_inv. cbn [overallDone log lastZipPct lastAllPct].
  rewrite rendered_app. change (rendered [Progress _ _]) with [percent (overallDone s) T].
  repeat split.
  - done.
  - by apply sorted_snoc.
  - apply Forall_app. split; [done|]. by repeat constructor.
  - right. apply last_snoc.
Qed.

(** After the closing line of an archive the last rendered overall
    percentage is the current one. *)
Lemma printZipProgress_closing T tz s :
  progress_inv T s ->
  last (rendered (log (printZipProgress tz tz (overallDone s) T s)))
  = Some (percent (overallDone s) T).
Proof.
  intros (Hd & Hs & Hall & Hk). unfold printZipProgress. cbv zeta.
  destruct (negb (percent tz tz =? lastZipPct s)) eqn:Hz; cbn [orb].
  - cbn [log]. rewrite rendered_app. apply last_snoc.
  - apply negb_false_iff, Z.eqb_eq in Hz.
    destruct (negb (percent (overallDone s) T =? lastAllPct s)) eqn:Ha.
    + cbn [log]. rewrite rendered_app. apply last_snoc.
    + apply negb_false_iff, Z.eqb_eq in Ha. rewrite Ha.
      destruct Hk as [Hk|Hk]; [|done].
      pose proof (percent_self_range tz). lia.
Qed.

Lemma offered_reads_cons r rest :
  offered_reads (r :: rest) = Z.max 0 (rd_n r) + offered_reads rest.
Proof. reflexivity. Qed.

Lemma offered_reads_nonneg rs : 0 <= offered_reads rs.
Proof.
  induction rs as [|r rest IH]; [done|]. rewrite offered_reads_cons. lia.
Qed.

(** The copy loop of one entry keeps the invariant and counts at most
    what the stream offers. *)
Lemma copyLoop_inv T B z i tz rs : forall s,
  B * 100 < Int.two63 ->
  progress_inv T s ->
  overallDone s + offered_reads rs <= B ->
  progress_inv T (state_of (copyLoop z i tz T rs s))
  /\ overallDone s <= overallDone (state_of (copyLoop z i tz T rs s))
     <= overallDone s + offered_reads rs.
Proof.
  induction rs as [|r rest IH]; intros s HB Hinv Hoff; cbn [copyLoop].
  - cbn [state_of]. change (offered_reads []) with 0. split; [done|lia].
  - cbv zeta. rewrite offered_reads_cons in Hoff |- *.
    pose proof (offered_reads_nonneg rest) as Hrest.
    pose proof Hinv as (Hd & _).
    destruct (Z.ltb_spec 0 (rd_n r)) as [Hn|Hn].
    + destruct (wr_fails r).
      * cbn [state_of]. split; [|cbn [overallDone emit]; lia].
        by apply progress_inv_emit.
      * assert (Int.u64 (rd_n r) = rd_n r) as Hu.
        { apply u64_small. unfold Int.two63, Int.two64 in *. lia. }
        assert (Int.u64 (overallDone s + rd_n r) = overallDone s + rd_n r)
          as Hu'.
        { apply u64_small. unfold Int.two63, Int.two64 in *. lia. }
        rewrite Hu, Hu'.
        set (s1 := State (overallDone s + rd_n r) _ _ _ _ _).
        assert (progress_inv T s1) as Hinv1.
        { destruct Hinv as (_ & Hs & Hall & Hk). subst s1.
          unfold progress_inv. cbn [overallDone log lastZipPct lastAllPct].
          rewrite rendered_app. change (rendered [Wrote _]) with (@nil Z).
          rewrite app_nil_r. repeat split; [lia|done| |done].
          eapply Forall_impl; [exact Hall|]. cbv beta. intros x Hx.
          etrans; [exact Hx|]. apply percent_mono; lia. }
        pose proof (printZipProgress_inv T
                      (Int.u64 (doneZip s + rd_n r)) tz s1 Hinv1) as Hinv2.
        change (overallDone s1) with (overallDone s + rd_n r) in Hinv2.
        set (s2 := printZipProgress _ _ _ _ s1) in *.
        assert (overallDone s2 = overallDone s + rd_n r) as Hod2.
        { subst s2. by rewrite printZipProgress_overallDone. }
        destruct (rd_err r) as [[|]|].
        -- cbn [state_of]. split; [done|lia].
        -- cbn [state_of]. split; [by apply progress_inv_emit|].
           cbn [emit overallDone]. lia.
        -- destruct (IH s2 HB Hinv2) as [Hi Hb]; [lia|].
           split; [done|]. lia.
    + destruct (rd_err r) as [[|]|].
      * cbn [state_of]. split; [done|lia].
      * cbn [state_of]. split; [by apply progress_inv_emit|].
        cbn [emit overallDone]. lia.
      * destruct (IH s HB Hinv) as [Hi Hb]; [lia|]. split; [done|]. lia.
Qed.

Lemma offered_files_cons f rest :
  offered_files (f :: rest) = offered_reads (reads f) + offered_files rest.
Proof. reflexivity. Qed.

Lemma offered_files_nonneg zr : 0 <= offered_files zr.
Proof.
  induction zr as [|f rest IH]; [done|]. rewrite offered_files_cons.
  pose proof (offered_reads_nonneg (reads f)). lia.
Qed.

Lemma entryLoop_inv T B opt z tz files : forall s,
  B * 100 < Int.two63 ->
  progress_inv T s ->
  overallDone s + offered_files files <= B ->
  progress_inv T (state_of (entryLoop opt z tz T files s))
  /\ overallDone s <= overallDone (state_of (entryLoop opt z tz T files s))
     <= overallDone s + offered_files files.
Proof.
  induction files as [|f rest IH]; intros s HB Hinv Hoff; cbn [entryLoop].
  - cbn [state_of]. change (offered_files []) with 0. split; [done|lia].
  - rewrite offered_files_cons in Hoff |- *.
    pose proof (offered_reads_nonneg (reads f)) as Hf.
    pose proof (offered_files_nonneg rest) as Hrest.
    assert (forall s0, progress_inv T s0 -> overallDone s0 = overallDone s ->
              progress_inv T (state_of (entryLoop opt z tz T rest s0))
              /\ overallDone s
                 <= overallDone (state_of (entryLoop opt z tz T rest s0))
                 <= overallDone s + (offered_reads (reads f)
                                     + offered_files rest)) as Hskip.
    { intros s0 Hinv0 Hod0. destruct (IH s0 HB Hinv0) as [Hi Hb]; [lia|].
      split; [done|]. lia. }
    destruct (IsDir f); [by apply Hskip|].
    destruct (shouldSkipPath (Name f)); [by apply Hskip|].
    destruct (mapTargetName (prefixByZip opt) z (Name f) (dedup s))
      as [target dedup'].
    cbv zeta. set (s1 := State _ _ _ _ _ (log s)).
    assert (progress_inv T s1) as Hinv1
      by (by eapply progress_inv_same; [..|exact Hinv]).
    destruct (createHeader_fails f).
    { apply Hskip; [by apply progress_inv_emit|done]. }
    destruct (open_fails f).
    { apply Hskip; [|done]. by do 2 (apply progress_inv_emit; [done|]). }
    set (s2 := emit [EntryHeader z (Name f) (filepath.ToSlash target)] s1).
    assert (progress_inv T s2) as Hinv2 by (by apply progress_inv_emit).
    destruct (copyLoop_inv T B z (Name f) tz (reads f) s2 HB Hinv2)
      as [Hi Hb]; [cbn [s2 s1 emit overallDone]; lia|].
    change (overallDone s2) with (overallDone s) in Hb.
    destruct (copyLoop z (Name f) tz T (reads f) s2) as [s'|e s'];
      cbn [state_of] in *.
    + destruct (IH (emit [Flush] s') HB) as [Hi' Hb'].
      * by apply progress_inv_emit.
      * cbn [emit overallDone]. lia.
      * split; [done|]. cbn [emit overallDone] in Hb'. lia.
    + split; [done|]. lia.
Qed.

Lemma offered_cons w opt name names :
  offered w opt (name :: names)
  = match OpenReader w 2 (filepath.Join [inputDir opt; name]) with
    | Some zr => offered_files zr
    | None => 0
    end + offered w opt names.
Proof. reflexivity. Qed.

Lemma offered_nonneg w opt names : 0 <= offered w opt names.
Proof.
  induction names as [|name names IH]; [done|]. rewrite offered_cons.
  destruct (OpenReader w 2 _) as [zr|]; [|lia].
  pose proof (offered_files_nonneg zr). lia.
Qed.

(** Between archives: the first three parts of the invariant, and whether
    the last rendered percentage is the current one. *)
Lemma zipLoop_inv w opt T B names : forall zipTotals s,
  B * 100 < Int.two63 ->
  length zipTotals = length names ->
  0 <= overallDone s ->
  StronglySorted Z.le (rendered (log s)) ->
  Forall (fun x => x <= percent (overallDone s) T) (rendered (log s)) ->
  overallDone s + offered w opt names <= B ->
  let r := zipLoop w opt T names zipTotals s in
  StronglySorted Z.le (rendered (log (state_of r)))
  /\ overallDone s <= overallDone (state_of r)
     <= overallDone s + offered w opt names
  /\ forall s', r = Next s' ->
       last (rendered (log s)) = Some (percent (overallDone s) T)
       \/ Exists (fun name =>
                    is_Some (OpenReader w 2
                               (filepath.Join [inputDir opt; name]))) names ->
       last (rendered (log s')) = Some (percent (overallDone s') T).
Proof.
  induction names as [|name names' IH];
    intros zipTotals s HB Hlen Hd Hs Hall Hoff; cbn [zipLoop].
  - cbv zeta. cbn [state_of]. change (offered w opt []) with 0.
    repeat split; [done|lia|lia|].
    intros s' [= <-] [HL|HE]; [done|]. by apply Exists_nil in HE.
  - destruct zipTotals as [|tz zipTotals']; [done|].
    cbn [length] in Hlen. apply Nat.succ_inj in Hlen.
    rewrite offered_cons in Hoff |- *.
    pose proof (offered_nonneg w opt names') as Hrest.
    destruct (OpenReader w 2 (filepath.Join [inputDir opt; name]))
      as [zr|] eqn:Hopen.
    + cbv zeta. set (s1 := State _ _ 0 (-1) (-1) (log s)).
      assert (progress_inv T s1) as Hinv1 by (repeat split; try done; by left).
      pose proof (offered_files_nonneg zr) as Hzr.
      destruct (entryLoop_inv T B opt name tz zr s1 HB Hinv1)
        as [Hi Hb]; [cbn [s1 overallDone]; lia|].
      change (overallDone s1) with (overallDone s) in Hb.
      destruct (entryLoop opt name tz T zr s1) as [s'|e s'];
        cbn [state_of] in *.
      * pose proof (printZipProgress_inv T tz tz s' Hi) as Hi2.
        pose proof (printZipProgress_closing T tz s' Hi) as Hlast.
        set (s2 := printZipProgress tz tz (overallDone s') T s') in *.
        assert (overallDone s2 = overallDone s') as Hod2
          by (subst s2; apply printZipProgress_overallDone).
        destruct Hi2 as (Hd2 & Hs2 & Hall2 & _).
        specialize (IH zipTotals' (emit [Newline] s2) HB Hlen).
        cbn [emit overallDone log] in IH.
        rewrite rendered_app, app_nil_r in IH.
        destruct IH as (IHs & IHb & IHl); try done; try lia.
        cbv zeta. repeat split; [done|lia|lia|].
        intros s'' Heq _. apply IHl; [done|]. left. by rewrite Hod2.
      * destruct Hi as (_ & Hs' & _). cbv zeta. cbn [state_of].
        repeat split; [done|lia|lia|]. by intros s''.
    + specialize (IH zipTotals' (emit [WarnOpenZip name] s) HB Hlen).
      cbn [emit overallDone log] in IH.
      rewrite rendered_app, app_nil_r in IH.
      destruct IH as (IHs & IHb & IHl); try done; try lia.
      cbv zeta. repeat split; [done|lia|lia|].
      intros s'' Heq [HL|HE]; apply IHl; try done; [by left|].
      right. apply Exists_cons in HE as [HE|HE]; [|done].
      rewrite Hopen in HE. by destruct HE.
Qed.

(** *** A job that copies everything *)

Lemma delivered_bounds rs : forall d,
  delivered rs = Some d -> 0 <= d <= offered_reads rs.
Proof.
  induction rs as [|r rest IH]; intros d; cbn [delivered].
  - intros [= <-]. done.
  - rewrite offered_reads_cons. pose proof (offered_reads_nonneg rest).
    destruct (_ && _); [done|].
    destruct (rd_err r) as [[|]|].
    + intros [= <-]. lia.
    + done.
    + destruct (delivered rest) as [d'|]; [|done].
      intros [= <-]. specialize (IH d' eq_refl). lia.
Qed.

Lemma copyLoop_exact z i tz T rs : forall s d,
  delivered rs = Some d ->
  0 <= overallDone s ->
  overallDone s + d < Int.two64 ->
  exists s', copyLoop z i tz T rs s = Next s'
    /\ overallDone s' = overallDone s + d.
Proof.
  induction rs as [|r rest IH]; intros s d; cbn [delivered copyLoop].
  - intros [= <-] _ _. exists s. split; [done|lia].
  - cbv zeta. intros Hdel Hd Hb.
    destruct (Z.ltb_spec 0 (rd_n r)) as [Hn|Hn]; cbn [andb] in Hdel.
    + destruct (wr_fails r); [done|].
      assert (exists d', d = rd_n r + d' /\ 0 <= d'
                /\ match rd_err r with
                   | Some EOF => d' = 0
                   | Some ReadFailure => False
                   | None => delivered rest = Some d'
                   end) as (d' & -> & Hd' & Hcase).
      { destruct (rd_err r) as [[|]|].
        - injection Hdel as <-. exists 0. repeat split; lia.
        - done.
        - destruct (delivered rest) as [d'|] eqn:Hrest; [|done].
          injection Hdel as <-. exists d'.
          pose proof (delivered_bounds rest d' Hrest). repeat split; lia. }
      rewrite (u64_small (rd_n r)) by lia.
      rewrite (u64_small (overallDone s + rd_n r)) by lia.
      set (s1 := State (overallDone s + rd_n r) _ _ _ _ _).
      set (s2 := printZipProgress _ _ _ _ s1).
      assert (overallDone s2 = overallDone s + rd_n r) as Hod2
        by (subst s2; apply printZipProgress_overallDone).
      destruct (rd_err r) as [[|]|].
      * exists s2. split; [done|]. lia.
      * done.
      * destruct (IH s2 d' Hcase) as (s' & -> & Hod'); [lia|lia|].
        exists s'. split; [done|]. lia.
    + destruct (rd_err r) as [[|]|].
      * injection Hdel as <-. exists s. split; [done|]. lia.
      * done.
      * destruct (delivered rest) as [d'|] eqn:Hrest; [|done].
        injection Hdel as <-.
        destruct (IH s d' eq_refl) as (s' & -> & Hod'); [lia|lia|].
        exists s'. split; [done|]. lia.
Qed.

Lemma declared_total_cons f rest :
  declared_total (f :: rest)
  = (if IsDir f then 0 else UncompressedSize64 f) + declared_total rest.
Proof. reflexivity. Qed.

Lemma declared_total_bounds zr :
  Forall copied_in_full zr -> 0 <= declared_total zr <= offered_files zr.
Proof.
  induction 1 as [|f rest Hf _ IH]; [done|].
  rewrite declared_total_cons, offered_files_cons.
  pose proof (offered_reads_nonneg (reads f)).
  destruct Hf as [->|(_ & _ & _ & Hdel)]; [lia|].
  apply delivered_bounds in Hdel. destruct (IsDir f); lia.
Qed.

Lemma entryLoop_exact opt z tz T files : forall s,
  Forall copied_in_full files ->
  0 <= overallDone s ->
  overallDone s + declared_total files < Int.two64 ->
  exists s', entryLoop opt z tz T files s = Next s'
    /\ overallDone s' = overallDone s + declared_total files.
Proof.
  induction files as [|f rest IH]; intros s Hall Hd Hb; cbn [entryLoop].
  - exists s. split; [done|]. change (declared_total []) with 0. lia.
  - apply Forall_cons in Hall as [Hf Hrest].
    rewrite declared_total_cons in Hb |- *.
    pose proof (declared_total_bounds rest Hrest) as Hbr.
    destruct Hf as [Hdir|(Hskip & Hhdr & Hopen & Hdel)].
    { rewrite Hdir in *. destruct (IH s Hrest Hd) as (s' & -> & Hod); [lia|].
      exists s'. split; [done|]. lia. }
    pose proof (delivered_bounds _ _ Hdel) as Hdb.
    destruct (IsDir f).
    { destruct (IH s Hrest Hd) as (s' & -> & Hod); [lia|].
      exists s'. split; [done|]. lia. }
    rewrite Hskip.
    destruct (mapTargetName (prefixByZip opt) z (Name f) (dedup s))
      as [target dedup'].
    cbv zeta. rewrite Hhdr, Hopen.
    set (s2 := emit _ _).
    destruct (copyLoop_exact z (Name f) tz T (reads f) s2 _ Hdel)
      as (s' & -> & Hod'); [done|cbn [s2 emit overallDone]; lia|].
    cbn [s2 emit overallDone] in Hod'.
    destruct (IH (emit [Flush] s') Hrest) as (s'' & -> & Hod'');
      [cbn [emit overallDone]; lia..|].
    exists s''. split; [done|]. cbn [emit overallDone] in Hod''. lia.
Qed.

Lemma sumUncompressed_declared zr :
  Forall copied_in_full zr ->
  declared_total zr < Int.two64 ->
  sumUncompressed zr = declared_total zr.
Proof.
  unfold sumUncompressed. intros Hall Hb.
  enough (forall acc, 0 <= acc -> acc + declared_total zr < Int.two64 ->
            fold_left (fun total f =>
                         if IsDir f then total
                         else Int.u64 (total + UncompressedSize64 f)) zr acc
            = acc + declared_total zr) as H by (apply (H 0); lia).
  clear Hb. induction Hall as [|f rest Hf Hrest IH]; intros acc Hacc Hb.
  - change (declared_total []) with 0. cbn. lia.
  - rewrite declared_total_cons in Hb |- *. cbn [fold_left].
    pose proof (declared_total_bounds rest Hrest) as Hbr.
    destruct Hf as [Hdir|(_ & _ & _ & Hdel)].
    + rewrite Hdir in *. rewrite IH by lia. lia.
    + apply delivered_bounds in Hdel. destruct (IsDir f).
      * rewrite IH by lia. lia.
      * rewrite u64_small by lia. rewrite IH by lia. lia.
Qed.

Lemma declared_cons w opt name names :
  declared w opt (name :: names)
  = match OpenReader w 2 (filepath.Join [inputDir opt; name]) with
    | Some zr => declared_total zr
    | None => 0
    end + declared w opt names.
Proof. reflexivity. Qed.

Lemma declared_bounds w opt names :
  faithful w opt names -> 0 <= declared w opt names <= offered w opt names.
Proof.
  induction 1 as [|name names [[_ H2]|(zr & _ & H2 & Hzr)] _ IH]; [done|..];
    rewrite declared_cons, offered_cons, H2; [lia|].
  pose proof (declared_total_bounds zr Hzr). lia.
Qed.

Lemma totalsPass_declared w opt names : forall total,
  faithful w opt names ->
  0 <= total ->
  total + declared w opt names < Int.two64 ->
  (totalsPass w (inputDir opt) names total).1.2
  = total + declared w opt names.
Proof.
  induction names as [|name rest IH]; intros total Hf Ht Hb.
  - change (declared w opt []) with 0. cbn. lia.
  - apply Forall_cons in Hf as [[[H0 H2]|(zr & H0 & H2 & Hzr)] Hrest];
      rewrite declared_cons, H2 in Hb |- *;
      pose proof (declared_bounds w opt rest Hrest) as Hbr;
      cbn [totalsPass]; rewrite H0.
    + specialize (IH total Hrest).
      destruct (totalsPass w (inputDir opt) rest _) as [[zt tot] warns].
      cbn [fst snd] in *. rewrite IH by lia. lia.
    + pose proof (declared_total_bounds zr Hzr) as Hbz.
      rewrite sumUncompressed_declared by (done || lia).
      rewrite u64_small by lia.
      specialize (IH (total + declared_total zr) Hrest).
      destruct (totalsPass w (inputDir opt) rest _) as [[zt tot] warns].
      cbn [fst snd] in *. rewrite IH by lia. lia.
Qed.

Lemma zipLoop_exact w opt T names : forall zipTotals s,
  faithful w opt names ->
  length zipTotals = length names ->
  0 <= overallDone s ->
  overallDone s + declared w opt names < Int.two64 ->
  exists s', zipLoop w opt T names zipTotals s = Next s'
    /\ overallDone s' = overallDone s + declared w opt names.
Proof.
  induction names as [|name rest IH]; intros zipTotals s Hf Hlen Hd Hb;
    cbn [zipLoop].
  - exists s. split; [done|]. change (declared w opt []) with 0. lia.
  - destruct zipTotals as [|tz zipTotals']; [done|].
    cbn [length] in Hlen. apply Nat.succ_inj in Hlen.
    apply Forall_cons in Hf as [[[H0 H2]|(zr & H0 & H2 & Hzr)] Hrest];
      rewrite declared_cons, H2 in Hb |- *;
      pose proof (declared_bounds w opt rest Hrest) as Hbr.
    { destruct (IH zipTotals' (emit [WarnOpenZip name] s) Hrest Hlen)
        as (s'' & -> & Hod''); [cbn [emit overallDone]; lia..|].
      exists s''. split; [done|]. cbn [emit overallDone] in Hod''. lia. }
    pose proof (declared_total_bounds zr Hzr) as Hbz.
    cbv zeta. set (s1 := State _ _ 0 (-1) (-1) (log s)).
    destruct (entryLoop_exact opt name tz T zr s1 Hzr)
      as (s' & -> & Hod'); [done|cbn [s1 overallDone]; lia|].
    cbn [s1 overallDone] in Hod'.
    set (s2 := emit [Newline] _).
    assert (overallDone s2 = overallDone s') as Hod2.
    { subst s2. cbn [emit overallDone]. apply printZipProgress_overallDone. }
    destruct (IH zipTotals' s2 Hrest Hlen) as (s'' & -> & Hod''); [lia..|].
    exists s''. split; [done|]. lia.
Qed.

Lemma rendered_warnings evs : Forall only_warning evs -> rendered evs = [].
Proof.
  induction 1 as [|e evs He _ IH]; [done|].
  by destruct e.
Qed.

Lemma rendered_finishJob w opt r :
  rendered (finishJob w opt r).2 = rendered (log (state_of r)).
Proof.
  destruct r as [s'|e s']; cbn [finishJob state_of].
  - destruct (zwClose_fails w); [|destruct (outFileClose_fails w)];
      cbn [snd]; rewrite rendered_app; apply app_nil_r.
  - cbn [snd]. rewrite rendered_app. apply app_nil_r.
Qed.

Lemma scanTotal_range w opt names : 0 <= scanTotal w opt names.
Proof.
  unfold scanTotal.
  enough (forall total, 0 <= total ->
            0 <= (totalsPass w (inputDir opt) names total).1.2) as H
    by (by apply H).
  induction names as [|name rest IH]; intros total Ht; [done|].
  cbn [totalsPass]. destruct (OpenReader w 0 _) as [zr|].
  - specialize (IH (Int.u64 (total + sumUncompressed zr))
                  (proj1 (u64_range _))).
    by destruct (totalsPass w (inputDir opt) rest _) as [[zt tot] warns].
  - specialize (IH total Ht).
    by destruct (totalsPass w (inputDir opt) rest total) as [[zt tot] warns].
Qed.

(** C9 as stated fails when an entry cannot be read to its end: the read
    error is a warning, half of the bytes counted are never copied, and the
    last line rendered says 50. *)
Lemma read_failure_stops_short :
  (mergeZIP read_failure_world (sample_options false false)).1
  = Ok "in_output/merged.zip"
  /\ rendered (mergeZIP read_failure_world (sample_options false false)).2
     = [50; 50]
  /\ last (rendered (mergeZIP read_failure_world
                       (sample_options false false)).2) <> Some 100.
Proof. repeat split; vm_compute; (reflexivity || discriminate). Qed.

(** *** The bytes a job copies *)

Lemma copied_reads_bounds rs : 0 <= copied_reads rs <= offered_reads rs.
Proof.
  induction rs as [|r rest IH]; [done|].
  cbn [copied_reads]. rewrite offered_reads_cons.
  pose proof (offered_reads_nonneg rest). destruct (rd_err r); lia.
Qed.

Lemma copyLoop_copied z i tz T rs : forall s s',
  copyLoop z i tz T rs s = Next s' ->
  0 <= overallDone s ->
  overallDone s + offered_reads rs < Int.two64 ->
  overallDone s' = overallDone s + copied_reads rs.
Proof.
  induction rs as [|r rest IH]; intros s s'; cbn [copyLoop copied_reads].
  - intros [= <-] _ _. lia.
  - cbv zeta. rewrite offered_reads_cons. intros Hrun Hd Hb.
    pose proof (offered_reads_nonneg rest) as Hrest.
    destruct (Z.ltb_spec 0 (rd_n r)) as [Hn|Hn].
    + destruct (wr_fails r); [done|].
      rewrite (u64_small (rd_n r)) in Hrun by lia.
      rewrite (u64_small (overallDone s + rd_n r)) in Hrun by lia.
      set (s1 := State (overallDone s + rd_n r) _ _ _ _ _) in Hrun.
      set (s2 := printZipProgress _ _ _ _ s1) in Hrun.
      assert (overallDone s2 = overallDone s + rd_n r) as Hod2
        by (subst s2; apply printZipProgress_overallDone).
      destruct (rd_err r) as [[|]|].
      * injection Hrun as <-. lia.
      * injection Hrun as <-. cbn [emit overallDone]. lia.
      * rewrite (IH s2 s' Hrun) by lia. lia.
    + destruct (rd_err r) as [[|]|].
      * injection Hrun as <-. lia.
      * injection Hrun as <-. cbn [emit overallDone]. lia.
      * rewrite (IH s s' Hrun) by lia. lia.
Qed.

Lemma copied_files_cons f rest :
  copied_files (f :: rest) = copied_entry f + copied_files rest.
Proof. reflexivity. Qed.

Lemma copied_entry_bounds f : 0 <= copied_entry f <= offered_reads (reads f).
Proof.
  unfold copied_entry. pose proof (offered_reads_nonneg (reads f)).
  pose proof (copied_reads_bounds (reads f)). destruct (_ || _); lia.
Qed.

Lemma copied_files_bounds zr : 0 <= copied_files zr <= offered_files zr.
Proof.
  induction zr as [|f rest IH]; [done|].
  rewrite copied_files_cons, offered_files_cons.
  pose proof (copied_entry_bounds f). lia.
Qed.

Lemma entryLoop_copied opt z tz T files : forall s s',
  entryLoop opt z tz T files s = Next s' ->
  0 <= overallDone s ->
  overallDone s + offered_files files < Int.two64 ->
  overallDone s' = overallDone s + copied_files files.
Proof.
  induction files as [|f rest IH]; intros s s'; cbn [entryLoop].
  - intros [= <-] _ _. change (copied_files []) with 0. lia.
  - rewrite offered_files_cons, copied_files_cons. unfold copied_entry.
    pose proof (offered_reads_nonneg (reads f)) as Hf.
    pose proof (offered_files_nonneg rest) as Hrest.
    intros Hrun Hd Hb.
    destruct (IsDir f); cbn [orb].
    { rewrite (IH s s' Hrun) by lia. lia. }
    destruct (shouldSkipPath (Name f)); cbn [orb].
    { rewrite (IH s s' Hrun) by lia. lia. }
    destruct (mapTargetName (prefixByZip opt) z (Name f) (dedup s))
      as [target dedup'].
    cbv zeta in Hrun.
    destruct (createHeader_fails f); cbn [orb].
    { rewrite (IH _ s' Hrun) by (cbn [emit overallDone]; lia).
      cbn [emit overallDone]. lia. }
    destruct (open_fails f); cbn [orb].
    { rewrite (IH _ s' Hrun) by (cbn [emit overallDone]; lia).
      cbn [emit overallDone]. lia. }
    set (s2 := emit _ _) in Hrun.
    destruct (copyLoop z (Name f) tz T (reads f) s2) as [s1|e s1] eqn:Hc;
      [|done].
    pose proof (copied_reads_bounds (reads f)) as Hcb.
    apply copyLoop_copied in Hc; [|cbn [s2 emit overallDone]; lia..].
    cbn [s2 emit overallDone] in Hc.
    rewrite (IH _ s' Hrun) by (cbn [emit overallDone]; lia).
    cbn [emit overallDone]. lia.
Qed.

Lemma copied_cons w opt name names :
  copied w opt (name :: names)
  = match OpenReader w 2 (filepath.Join [inputDir opt; name]) with
    | Some zr => copied_files zr
    | None => 0
    end + copied w opt names.
Proof. reflexivity. Qed.

Lemma zipLoop_copied w opt T names : forall zipTotals s s',
  length zipTotals = length names ->
  zipLoop w opt T names zipTotals s = Next s' ->
  0 <= overallDone s ->
  overallDone s + offered w opt names < Int.two64 ->
  overallDone s' = overallDone s + copied w opt names.
Proof.
  induction names as [|name rest IH]; intros zipTotals s s' Hlen;
    cbn [zipLoop].
  - intros [= <-] _ _. change (copied w opt []) with 0. lia.
  - destruct zipTotals as [|tz zipTotals']; [done|].
    cbn [length] in Hlen. apply Nat.succ_inj in Hlen.
    rewrite offered_cons, copied_cons.
    pose proof (offered_nonneg w opt rest) as Hrest.
    destruct (OpenReader w 2 (filepath.Join [inputDir opt; name]))
      as [zr|]; intros Hrun Hd Hb.
    + cbv zeta in Hrun. set (s1 := State _ _ 0 (-1) (-1) (log s)) in Hrun.
      pose proof (copied_files_bounds zr) as Hcb.
      destruct (entryLoop opt name tz T zr s1) as [s2|e s2] eqn:He; [|done].
      apply entryLoop_copied in He; [|cbn [s1 overallDone]; lia..].
      cbn [s1 overallDone] in He.
      rewrite (IH _ _ s' Hlen Hrun);
        cbn [emit overallDone]; rewrite ?printZipProgress_overallDone; lia.
    + rewrite (IH _ _ s' Hlen Hrun); cbn [emit overallDone]; lia.
Qed.

(** When no archive opens for copying, no line is rendered. *)
Lemma zipLoop_none_opens w opt T names : forall zipTotals s,
  Forall (fun name => ~ opens w opt name) names ->
  rendered (log (state_of (zipLoop w opt T names zipTotals s)))
  = rendered (log s).
Proof.
  induction names as [|name rest IH]; intros zipTotals s Hnone; [done|].
  destruct zipTotals as [|tz zipTotals']; [done|].
  apply Forall_cons in Hnone as [Hname Hnone]. cbn [zipLoop].
  unfold opens in Hname.
  destruct (OpenReader w 2 (filepath.Join [inputDir opt; name])) as [zr|].
  - destruct Hname. by eexists.
  - rewrite (IH _ _ Hnone). cbn [emit log].
    by rewrite rendered_app, app_nil_r.
Qed.

(** C9, amended.  As long as the bytes the archives can hand out, times
    100, stay within a 64-bit integer, the overall percentages rendered in a
    job are non-decreasing; a job that panics when it allocates the copy
    buffer renders none.  Take a job that gets to copy.  When an archive
    opens for copying and no write fails, the last percentage rendered is
    that of the bytes copied out of the total of the scan.  It is 100 when
    every archive opens neither at the scan nor at the copy, or opens the
    same at both with every entry copied in full with the size it
    declares.  When no archive opens for copying, nothing is rendered. *)
Theorem progress_lines (w : world) (opt : options) :
  (forall names,
      listZipFiles w (inputDir opt) (filterGlob opt) = Ok names ->
      offered w opt names * 100 < Int.two63) ->
  StronglySorted Z.le (rendered (mergeZIP w opt).2)
  /\ (copyBuffer_panics w (chunkMB opt) = true ->
      rendered (mergeZIP w opt).2 = [])
  /\ (forall names,
        MkdirAll_fails w (outDir opt) = false ->
        listZipFiles w (inputDir opt) (filterGlob opt) = Ok names ->
        names <> [] ->
        ~ (0 < freeBytesOf w (outDir opt) < neededBytes w opt names) ->
        Create_fails w (outPathOf opt) = false ->
        copyBuffer_panics w (chunkMB opt) = false ->
        (Exists (opens w opt) names ->
         job_write_fails w opt names = false ->
         last (rendered (mergeZIP w opt).2)
         = Some (percent (copied w opt names) (scanTotal w opt names)))
        /\ (Exists (opens w opt) names ->
            faithful w opt names ->
            last (rendered (mergeZIP w opt).2) = Some 100)
        /\ (Forall (fun name => ~ opens w opt name) names ->
            rendered (mergeZIP w opt).2 = [])).
Proof.
  intros Hbound. split; [|split].
  - destruct (MkdirAll_fails w (outDir opt)) eqn:Hmk.
    { unfold mergeZIP. rewrite Hmk. constructor. }
    destruct (listZipFiles w (inputDir opt) (filterGlob opt))
      as [names'|e] eqn:Hls.
    2:{ unfold mergeZIP. rewrite Hmk, Hls. constructor. }
    destruct names' as [|n0 rest] eqn:Hn.
    { unfold mergeZIP. rewrite Hmk, Hls. constructor. }
    rewrite <- Hn in *. assert (names' <> []) as Hne by (by subst).
    specialize (Hbound names' eq_refl).
    rewrite (mergeZIP_reaches_gate w opt names' Hmk Hls Hne). cbv zeta.
    pose proof (totalsPass_warnings w (inputDir opt) names' 0) as Hw'.
    fold (scanWarnings w opt names') in Hw'.
    destruct (_ && _).
    { cbn [snd]. rewrite rendered_warnings by done. constructor. }
    destruct (Create_fails w _).
    { cbn [snd]. rewrite rendered_warnings by done. constructor. }
    destruct (copyBuffer_panics w (chunkMB opt)).
    { cbn [snd]. rewrite rendered_app, rendered_warnings by done.
      constructor. }
    set (s0 := State _ _ _ _ _ _).
    rewrite rendered_finishJob.
    assert (rendered (log s0) = []) as Hr0.
    { subst s0. cbn [log]. rewrite rendered_app, rendered_warnings by done.
      done. }
    pose proof (offered_nonneg w opt names') as Hoff.
    pose proof (zipLoop_inv w opt (scanTotal w opt names')
                  (offered w opt names') names'
                  (totalsPass w (inputDir opt) names' 0).1.1 s0 Hbound
                  (totalsPass_length _ _ _ _)) as Hinv.
    rewrite Hr0 in Hinv. cbv zeta in Hinv.
    destruct Hinv as (Hs & _); [done|constructor|constructor| |done].
    subst s0. cbn [overallDone]. lia.
  - intros Hbuf.
    destruct (mergeZIP_cases w opt)
      as [(e & warns & -> & _ & Hw)
         |[(warns & Hw & _ & ->)|(? & ? & ? & _ & Hno & _)]].
    + cbn [snd]. by apply rendered_warnings.
    + cbn [snd]. by rewrite rendered_app, rendered_warnings.
    + congruence.
  - intros names Hmk Hls Hne Hgate Hcr Hbuf.
    specialize (Hbound names Hls).
    rewrite (mergeZIP_after_gate w opt names Hmk Hls Hne Hgate Hcr Hbuf).
    rewrite rendered_finishJob.
    set (s0 := State _ _ _ _ _ _).
    assert (rendered (log s0) = []) as Hr0.
    { subst s0. cbn [log]. rewrite rendered_app, rendered_warnings; [done|].
      apply totalsPass_warnings. }
    pose proof (offered_nonneg w opt names) as Hoff.
    pose proof (zipLoop_inv w opt (scanTotal w opt names)
                  (offered w opt names) names
                  (totalsPass w (inputDir opt) names 0).1.1 s0 Hbound
                  (totalsPass_length _ _ _ _)) as Hinv.
    rewrite Hr0 in Hinv. cbv zeta in Hinv.
    destruct Hinv as (_ & _ & Hlast); [done|constructor|constructor| |].
    { subst s0. cbn [overallDone]. lia. }
    split; [|split].
    + intros Hopen Hnw.
      pose proof (zipLoop_write_fails w opt (scanTotal w opt names) names
                    (totalsPass w (inputDir opt) names 0).1.1 s0
                    (totalsPass_length _ _ _ _)) as Hwf.
      destruct (zipLoop _ _ _ _ _ s0) as [s'|e s'] eqn:Hloop.
      2:{ destruct Hwf as [_ Hwf]. congruence. }
      cbn [state_of]. rewrite (Hlast s' eq_refl) by (by right).
      apply zipLoop_copied in Hloop.
      * rewrite Hloop. subst s0. cbn [overallDone]. by rewrite Z.add_0_l.
      * apply totalsPass_length.
      * done.
      * subst s0. cbn [overallDone]. unfold Int.two63, Int.two64 in *. lia.
    + intros Hopen Hf.
      pose proof (declared_bounds w opt names Hf) as Hdb.
      assert (scanTotal w opt names = declared w opt names) as HT.
      { unfold scanTotal. rewrite totalsPass_declared; [lia|done|lia|].
        unfold Int.two63, Int.two64 in *. lia. }
      destruct (zipLoop_exact w opt (scanTotal w opt names) names
                  (totalsPass w (inputDir opt) names 0).1.1 s0 Hf)
        as (s' & Hloop & Hod').
      { apply totalsPass_length. }
      { done. }
      { subst s0. cbn [overallDone]. unfold Int.two63, Int.two64 in *. lia. }
      rewrite Hloop in Hlast |- *. cbn [state_of].
      rewrite (Hlast s' eq_refl) by (by right).
      rewrite Hod'. subst s0. cbn [overallDone]. rewrite Z.add_0_l, HT.
      f_equal. apply percent_all; lia.
    + intros Hnone. rewrite zipLoop_none_opens by done. exact Hr0.
Qed.

Lemma progress_lines_witness :
  let w := unreadable_archive_world in
  let opt := sample_options false false in
  StronglySorted Z.le (rendered (mergeZIP w opt).2)
  /\ last (rendered (mergeZIP w opt).2) = Some (percent 5 5)
  /\ last (rendered (mergeZIP w opt).2) = Some 100
  /\ rendered (mergeZIP w opt).2 = [20; 100].
Proof.
  intros w opt. destruct (progress_lines w opt) as (Hs & _ & Hl).
  - intros names H. vm_compute in H. injection H as <-.
    vm_compute. reflexivity.
  - destruct (Hl ["a.zip"; "bad.zip"; "c.zip"]) as (Hc & Hf & _).
    + reflexivity.
    + vm_compute. reflexivity.
    + discriminate.
    + intros [H1 _]. vm_compute in H1. discriminate.
    + reflexivity.
    + vm_compute. reflexivity.
    + assert (Exists (opens w opt) ["a.zip"; "bad.zip"; "c.zip"]) as Hopen.
      { apply Exists_cons. left. by eexists. }
      split; [exact Hs|]. split; [|split].
      * rewrite (Hc Hopen) by (vm_compute; reflexivity).
        vm_compute. reflexivity.
      * apply (Hf Hopen).
        apply Forall_cons; split; [|apply Forall_cons; split;
          [|apply Forall_cons; split; [|apply Forall_nil_2]]].
        -- right. eexists. split; [vm_compute; reflexivity|].
           split; [vm_compute; reflexivity|].
           apply Forall_cons; split; [|apply Forall_nil_2].
           right. repeat split; vm_compute; reflexivity.
        -- left. split; vm_compute; reflexivity.
        -- right. eexists. split; [vm_compute; reflexivity|].
           split; [vm_compute; reflexivity|].
           apply Forall_cons; split; [|apply Forall_nil_2].
           right. repeat split; vm_compute; reflexivity.
      * vm_compute. reflexivity.
Defined.

(** ** Raw splitting *)

Lemma i64_range x : - Int.two63 <= Int.i64 x < Int.two63.
Proof.
  unfold Int.i64.
  pose proof (Z.mod_pos_bound (x + Int.two63) Int.two64).
  unfold Int.two63, Int.two64 in *. lia.
Qed.

Lemma parseSize_range w s p :
  parseSize w s = Ok p -> - Int.two63 <= p < Int.two63.
Proof.
  unfold parseSize. destruct (splitSizeRe _) as [[m1 m2]|]; [|done].
  intros [= <-]. apply i64_range.
Qed.

Lemma take_drop_extend (l : list Byte.byte) (s a n : nat) :
  take a (drop s l) ++ take n (drop (s + a) l) = take (a + n) (drop s l).
Proof. rewrite <- drop_drop. apply take_take_drop. Qed.

(** Filling one part: from [copied] bytes on, the loop brings the part to
    [min partSize (total - start)] bytes, the bytes of the file from
    [start] on. *)
Lemma copyPart_spec w content name partSize base start :
  (forall k, Read_fails w k = false) ->
  (forall k, Write_fails w k = false) ->
  0 < partSize < Int.two63 ->
  Z.of_nat (length content) < Int.two63 ->
  0 <= start ->
  let total := Z.of_nat (length content) in
  let size := Z.min partSize (total - start) in
  forall fuel copied st,
    0 <= copied <= partSize ->
    start + copied <= total ->
    offset st = start + copied ->
    written st = start + copied ->
    fs st = <[name := take (Z.to_nat copied) (drop (Z.to_nat start) content)]>
              base ->
    total - (start + copied) < Z.of_nat fuel ->
    exists k',
      copyPart fuel w content name partSize copied st
      = Some (Ok size,
              SplitState
                (<[name := take (Z.to_nat size)
                             (drop (Z.to_nat start) content)]> base)
                (start + size) k' (start + size) (out st)).
Proof.
  intros Hrd Hwr Hps Hlen Hstart total size.
  induction fuel as [|fuel IH]; intros copied st Hc Hle Hoff Hwrt Hfs Hfuel.
  { lia. }
  cbn [copyPart]. destruct (Z.ltb_spec copied partSize) as [Hlt|Hge].
  2:{ assert (copied = partSize) as -> by lia.
      assert (size = partSize) as -> by (unfold size; lia).
      exists (nreads st). destruct st as [f o k wr ou]. cbn in *.
      by subst. }
  cbv zeta.
  rewrite (i64_small (partSize - copied)) by (unfold Int.two63 in *; lia).
  set (toRead := if partSize - copied <? 4 * 1024 * 1024
                 then partSize - copied else 4 * 1024 * 1024).
  assert (1 <= toRead <= partSize - copied) as HtoRead.
  { unfold toRead. destruct (Z.ltb_spec (partSize - copied) (4 * 1024 * 1024));
      lia. }
  unfold readAt. rewrite Hrd, Hoff. fold total.
  destruct (Z.leb_spec (total - (start + copied)) 0) as [Heof|Hmore].
  - change (0 <? 0) with false. cbn [andb].
    assert (size = copied) as -> by (unfold size; lia).
    exists (S (nreads st)). by rewrite Hfs, Hwrt.
  - set (n := Z.min (Z.min toRead (total - (start + copied)))
                    (Z.max 1 (Read_limit w (nreads st)))).
    assert (1 <= n <= partSize - copied /\ n <= total - (start + copied))
      as [Hn Hn'] by (unfold n; lia).
    assert ((0 <? n) = true) as -> by (apply Z.ltb_lt; lia).
    rewrite Hwr. cbn [andb].
    rewrite Hwrt.
    rewrite (i64_small (start + copied + n)) by (unfold Int.two63 in *; lia).
    rewrite (i64_small (copied + n)) by (unfold Int.two63 in *; lia).
    set (st' := SplitState _ _ _ _ _).
    destruct (IH (copied + n) st') as (k' & ->).
    + lia.
    + lia.
    + subst st'. cbn [offset]. lia.
    + subst st'. cbn [written]. lia.
    + subst st'. cbn [fs]. rewrite Hfs, alter_insert_eq. f_equal.
      replace (Z.to_nat (copied + n))
        with (Z.to_nat copied + Z.to_nat n)%nat by lia.
      replace (Z.to_nat (start + copied))
        with (Z.to_nat start + Z.to_nat copied)%nat by lia.
      apply take_drop_extend.
    + lia.
    + exists k'. done.
Qed.

Lemma take_min_length (l : list Byte.byte) (p r : Z) :
  Z.of_nat (length l) = r -> 0 < p ->
  take (Z.to_nat (Z.min p r)) l = take (Z.to_nat p) l.
Proof.
  intros Hl Hp. destruct (Z.le_ge_cases p r) as [Hle|Hge].
  - by rewrite Z.min_l.
  - rewrite Z.min_r by done. rewrite !take_ge; [done|lia..].
Qed.

Lemma store_parts_cons path content partSize fs0 i m :
  store_parts path content partSize fs0 i (S m)
  = store_parts path content partSize
      (<[partName path (Z.of_nat i) := chunk content partSize i]> fs0) (S i) m.
Proof. reflexivity. Qed.

(** The part loop, started at part [i] with [m] parts to go. *)
Lemma splitLoop_spec w path content partSize :
  (forall name, Create_fails w name = false) ->
  (forall k, Read_fails w k = false) ->
  (forall k, Write_fails w k = false) ->
  0 < partSize < Int.two63 ->
  Z.of_nat (length content) < Int.two63 ->
  let total := Z.of_nat (length content) in
  forall m i fuel st,
    Z.of_nat (i + m) * partSize < total ->
    total <= Z.of_nat (i + S m) * partSize ->
    offset st = Z.of_nat i * partSize ->
    written st = Z.of_nat i * partSize ->
    total - Z.of_nat i * partSize < Z.of_nat fuel ->
    exists k' evs,
      splitLoop fuel w content (path +:+ ".part-") partSize total
        (Z.of_nat i) st
      = Some (Ok tt,
              SplitState
                (store_parts path content partSize (fs st) i (S m))
                total k' total (out st ++ evs)).
Proof.
  intros Hcr Hrd Hwr Hps Hlen total.
  induction m as [|m IH]; intros i fuel st Hlo Hhi Hoff Hwrt Hfuel.
  all: destruct fuel as [|fuel]; [nia|].
  all: cbn [splitLoop]; cbv zeta; rewrite Hcr.
  all: fold (partName path (Z.of_nat i)).
  all: set (st1 := SplitState _ _ _ _ _).
  all: destruct (copyPart_spec w content (partName path (Z.of_nat i)) partSize
                   (fs st) (Z.of_nat i * partSize) Hrd Hwr Hps Hlen
                   ltac:(nia) (S fuel) 0 st1) as (k' & Hcopy);
    [lia|fold total; nia|subst st1; cbn [offset]; lia
    |subst st1; cbn [written]; lia
    |subst st1; cbn [fs]; by rewrite Z2Nat.inj_0
    |fold total; lia|].
  all: fold total in Hcopy; rewrite Hcopy; clear Hcopy.
  all: cbn [written fs offset nreads out].
  all: rewrite (take_min_length _ partSize (total - Z.of_nat i * partSize))
         by (rewrite ?length_drop; lia).
  all: replace (Z.to_nat (Z.of_nat i * partSize))
         with (i * Z.to_nat partSize)%nat by nia.
  all: fold (chunk content partSize i).
  - assert (Z.min partSize (total - Z.of_nat i * partSize)
            = total - Z.of_nat i * partSize) as -> by nia.
    replace (Z.of_nat i * partSize + (total - Z.of_nat i * partSize))
      with total by lia.
    rewrite Z.leb_refl. eexists _, [_]. reflexivity.
  - assert (Z.min partSize (total - Z.of_nat i * partSize) = partSize)
      as -> by nia.
    destruct (Z.leb_spec total (Z.of_nat i * partSize + partSize)) as [H|_];
      [nia|].
    rewrite i64_small by (unfold Int.two63 in *; nia).
    replace (Z.of_nat i + 1) with (Z.of_nat (S i)) by lia.
    set (st2 := SplitState _ _ _ _ _).
    destruct (IH (S i) fuel st2) as (k'' & evs & ->).
    + replace (S i + m)%nat with (i + S m)%nat by lia. done.
    + replace (S i + S m)%nat with (i + S (S m))%nat by lia. done.
    + subst st2. cbn [offset]. lia.
    + subst st2. cbn [written]. lia.
    + nia.
    + subst st2. cbn [fs out]. rewrite (store_parts_cons _ _ _ _ i (S m)).
      eexists k'', (_ :: evs). rewrite <- app_assoc. reflexivity.
Qed.

(** *** Part names *)

Lemma uint_of_string_zeros k s :
  NilEmpty.uint_of_string (String.concat "" (repeat "0" k) +:+ s)
  = Nat.iter k (option_map D0) (NilEmpty.uint_of_string s).
Proof.
  induction k as [|k IH]; [done|].
  cbn [repeat Nat.iter].
  assert (forall l, String.concat "" ("0" :: l) = String "0" (String.concat "" l))
    as -> by (by intros [|? ?]).
  rewrite append_cons. cbn [NilEmpty.uint_of_string].
  rewrite IH, Nat.iter_succ.
  by destruct (Nat.iter k _ _).
Qed.

Lemma of_uint_iter_zeros k d :
  option_map Z.of_uint (Nat.iter k (option_map D0) (Some d))
  = Some (Z.of_uint d).
Proof.
  induction k as [|k IH]; [done|]. rewrite Nat.iter_succ.
  destruct (Nat.iter k _ _) as [d'|]; [|done].
  cbn [option_map] in *. injection IH as IH. rewrite <- IH. reflexivity.
Qed.

Lemma uint_of_fmt_d n :
  0 <= n ->
  exists d, NilEmpty.uint_of_string (fmt_d n) = Some d /\ Z.of_uint d = n.
Proof.
  intros Hn. destruct n as [|p|p]; [by exists (D0 Nil)| |lia].
  exists (Pos.to_uint p). unfold fmt_d. cbn [Z.to_int NilZero.string_of_int].
  split.
  - unfold NilZero.string_of_uint.
    pose proof (DecimalPos.Unsigned.to_uint_nonnil p) as Hnn.
    destruct (Pos.to_uint p) eqn:Hd; [done|..]; rewrite <- Hd;
      apply NilEmpty.usu.
  - unfold Z.of_uint. by rewrite DecimalPos.Unsigned.of_to.
Qed.

(** Reading the digits of a part suffix back gives the part number. *)
Lemma decode_fmt_03d n :
  0 <= n ->
  option_map Z.of_uint (NilEmpty.uint_of_string (fmt_03d n)) = Some n.
Proof.
  intros Hn. unfold fmt_03d. cbv zeta.
  destruct (Z.ltb_spec n 0); [lia|].
  destruct (uint_of_fmt_d n Hn) as (d & Hd & <-).
  rewrite uint_of_string_zeros, Hd. apply of_uint_iter_zeros.
Qed.

Lemma fmt_03d_inj a b : 0 <= a -> 0 <= b -> fmt_03d a = fmt_03d b -> a = b.
Proof.
  intros Ha Hb Heq. apply decode_fmt_03d in Ha, Hb.
  rewrite Heq in Ha. congruence.
Qed.

Lemma partName_inj path a b :
  0 <= a -> 0 <= b -> partName path a = partName path b -> a = b.
Proof.
  intros Ha Hb Heq. unfold partName in Heq.
  apply String.app_inj in Heq. by apply fmt_03d_inj.
Qed.

Lemma partName_not_path path i : partName path i <> path.
Proof.
  intros Heq. apply (f_equal String.length) in Heq.
  unfold partName in Heq. rewrite !length_append in Heq. cbn in Heq. lia.
Qed.

Lemma fmt_03d_three_digits i :
  0 <= i < 1000 ->
  String.length (fmt_03d i) = 3%nat /\ all_digits (fmt_03d i) = true.
Proof.
  intros Hi.
  assert (forallb (fun k => (String.length (fmt_03d (Z.of_nat k)) =? 3)%nat
                            && all_digits (fmt_03d (Z.of_nat k)))
                  (seq 0 1000) = true) as Hall by (vm_compute; reflexivity).
  rewrite forallb_forall in Hall.
  specialize (Hall (Z.to_nat i)). rewrite Z2Nat.id in Hall by lia.
  destruct (andb_prop _ _ (Hall ltac:(apply in_seq; lia))) as [H1 H2].
  split; [by apply Nat.eqb_eq|done].
Qed.

(** *** The parts in the file system *)

Lemma store_parts_other path content partSize q : forall m i fs0,
  (forall j, (i <= j < i + m)%nat -> q <> partName path (Z.of_nat j)) ->
  store_parts path content partSize fs0 i m !! q = fs0 !! q.
Proof.
  induction m as [|m IH]; intros i fs0 Hq; [done|].
  rewrite store_parts_cons, IH by (intros j Hj; apply Hq; lia).
  apply lookup_insert_ne. intros Heq. by apply (Hq i ltac:(lia)).
Qed.

Lemma store_parts_lookup path content partSize : forall m i fs0 j,
  (i <= j < i + m)%nat ->
  store_parts path content partSize fs0 i m !! partName path (Z.of_nat j)
  = Some (chunk content partSize j).
Proof.
  induction m as [|m IH]; intros i fs0 j Hj; [lia|].
  rewrite store_parts_cons.
  destruct (decide (j = i)) as [->|Hne].
  - rewrite store_parts_other; [apply lookup_insert_eq|].
    intros j Hj' Heq. apply partName_inj in Heq; lia.
  - apply IH. lia.
Qed.

(** *** The parts as pieces of the file *)

Lemma length_chunk content partSize i :
  0 < partSize ->
  Z.of_nat (length (chunk content partSize i))
  = Z.max 0 (Z.min partSize
               (Z.of_nat (length content) - Z.of_nat i * partSize)).
Proof.
  intros Hp. unfold chunk. rewrite length_take, length_drop. nia.
Qed.

Lemma concat_chunks content partSize : forall m i,
  concat (map (chunk content partSize) (seq i m))
  = take (m * Z.to_nat partSize) (drop (i * Z.to_nat partSize) content).
Proof.
  induction m as [|m IH]; intros i; [done|].
  cbn [seq map concat]. rewrite IH. unfold chunk.
  replace (S i * Z.to_nat partSize)%nat
    with (i * Z.to_nat partSize + Z.to_nat partSize)%nat by lia.
  rewrite take_drop_extend. f_equal.
Qed.

Lemma nparts_bounds total partSize :
  0 < total -> 0 < partSize ->
  exists m, nparts total partSize = S m
    /\ Z.of_nat m * partSize < total
    /\ total <= Z.of_nat (S m) * partSize.
Proof.
  intros Ht Hp. unfold nparts.
  set (q := (total + partSize - 1) / partSize).
  assert (partSize * q <= total + partSize - 1 < partSize * (q + 1))
    as [Hq1 Hq2].
  { subst q. split.
    - apply Z.mul_div_le. lia.
    - rewrite Z.mul_add_distr_l, Z.mul_1_r.
      pose proof (Z.mod_pos_bound (total + partSize - 1) partSize Hp).
      pose proof (Z.div_mod (total + partSize - 1) partSize ltac:(lia)). lia. }
  assert (1 <= q) as Hq by nia.
  exists (Z.to_nat (q - 1)). repeat split; try lia; nia.
Qed.

(** C10.  On an empty file [rawSplit] returns success at once: the file
    system is as before (no part file, the original still there) and nothing
    is printed, whatever the remove-original flag says. *)
Theorem rawSplit_empty_file (fuel : nat) (w : world) (path sizeStr : string)
    (partSize : Z) (rmAfter : bool) (fs0 : gmap string (list Byte.byte)) :
  parseSize w sizeStr = Ok partSize ->
  0 < partSize ->
  Open_fails w path = false ->
  Stat_fails w path = false ->
  fs0 !! path = Some [] ->
  rawSplit fuel w path sizeStr rmAfter fs0 = Some (Ok tt, fs0, []).
Proof.
  intros Hsize Hpos Hopen Hstat Hfile. unfold rawSplit.
  rewrite Hsize. destruct (Z.leb_spec partSize 0); [lia|].
  by rewrite Hopen, Hfile, Hstat.
Qed.

Lemma rawSplit_empty_file_witness :
  rawSplit 0 (sample_world [] None) "out/merged.zip" "1900m" true
    {[ "out/merged.zip" := [] ]}
  = Some (Ok tt, {[ "out/merged.zip" := [] ]}, []).
Proof.
  apply (rawSplit_empty_file 0 (sample_world [] None) "out/merged.zip"
           "1900m" (1900 * 1024 * 1024) true).
  - vm_compute. reflexivity.
  - reflexivity.
  - reflexivity.
  - reflexivity.
  - apply lookup_singleton_eq.
Defined.

(** C8.  A non-empty file is split into [nparts] parts: part [i] is named
    [<path>.part-] followed by [i] zero-padded to three digits, holds bytes
    [i * partSize] up to [(i + 1) * partSize] of the file, is not empty and
    not longer than [partSize], and is exactly [partSize] long unless it is
    the last; the parts in ascending order concatenate to the file; the
    original is removed exactly when asked; no other file changes.  A
    10 MiB file split at 4 MiB gives three parts of 4, 4 and 2 MiB. *)
Theorem rawSplit_parts (fuel : nat) (w : world) (path sizeStr : string)
    (partSize : Z) (rmAfter : bool) (fs0 : gmap string (list Byte.byte))
    (content : list Byte.byte) :
  fs0 !! path = Some content ->
  content <> [] ->
  Z.of_nat (length content) < Int.two63 ->
  parseSize w sizeStr = Ok partSize ->
  0 < partSize ->
  split_io_ok w path ->
  (length content < fuel)%nat ->
  let total := Z.of_nat (length content) in
  let n := nparts total partSize in
  let len i := Z.of_nat (length (chunk content partSize i)) in
  exists fs' evs,
    rawSplit fuel w path sizeStr rmAfter fs0 = Some (Ok tt, fs', evs)
    /\ (forall i, (i < n)%nat ->
          fs' !! partName path (Z.of_nat i) = Some (chunk content partSize i)
          /\ 0 < len i <= partSize
          /\ ((S i < n)%nat -> len i = partSize))
    /\ concat (map (chunk content partSize) (seq 0 n)) = content
    /\ fs' !! path = (if rmAfter then None else Some content)
    /\ (forall q, q <> path ->
          (forall i, (i < n)%nat -> q <> partName path (Z.of_nat i)) ->
          fs' !! q = fs0 !! q)
    /\ partName path 0 = path +:+ ".part-000"
    /\ (forall i, 0 <= i < 1000 ->
          String.length (fmt_03d i) = 3%nat /\ all_digits (fmt_03d i) = true)
    /\ (total = 10 * 2 ^ 20 -> partSize = 4 * 2 ^ 20 ->
          n = 3%nat
          /\ map len (seq 0 n) = [4 * 2 ^ 20; 4 * 2 ^ 20; 2 * 2 ^ 20]).
Proof.
  intros Hfile Hne Hlen Hsize Hpos (Hopen & Hstat & Hrm & Hcr & Hrd & Hwr)
    Hfuel total n len.
  assert (0 < total) as Htot.
  { subst total. destruct content; [done|]. cbn [length]. lia. }
  pose proof (parseSize_range w sizeStr partSize Hsize) as Hrange.
  destruct (nparts_bounds total partSize Htot Hpos) as (m & Hn & Hlo & Hhi).
  fold n in Hn.
  destruct (splitLoop_spec w path content partSize Hcr Hrd Hwr
              ltac:(lia) Hlen m 0%nat fuel (SplitState fs0 0 0 0 []))
    as (k' & evs & Hloop); [done|done|done|done|fold total; lia|].
  fold total in Hloop. cbn [fs out] in Hloop. rewrite <- Hn in Hloop.
  assert (forall i, (i < n)%nat ->
            0 < len i <= partSize /\ ((S i < n)%nat -> len i = partSize))
    as Hlens.
  { intros i Hi. unfold len. rewrite length_chunk by done. fold total. nia. }
  assert (exists fs' evs',
             rawSplit fuel w path sizeStr rmAfter fs0 = Some (Ok tt, fs', evs')
             /\ fs' = (if rmAfter then delete path else id)
                        (store_parts path content partSize fs0 0 n))
    as (fs' & evs' & Hrun & Hfs').
  { unfold rawSplit. rewrite Hsize.
    destruct (Z.leb_spec partSize 0); [lia|].
    rewrite Hopen, Hfile, Hstat. cbv zeta. fold total.
    destruct (Z.eqb_spec total 0); [lia|].
    change (Z.of_nat 0) with 0 in Hloop. rewrite Hloop. cbn [fs out].
    destruct rmAfter; [rewrite Hrm|]; eexists _, _; split; reflexivity. }
  exists fs', evs'. split; [exact Hrun|]. subst fs'.
  assert (forall j, partName path (Z.of_nat j) <> path) as Hpn
    by (intros j; apply partName_not_path).
  split; [|split; [|split; [|split; [|split; [|split]]]]].
  - intros i Hi. split; [|by apply Hlens].
    destruct rmAfter; cbn [id].
    + rewrite lookup_delete_ne by (by apply not_eq_sym).
      apply store_parts_lookup. lia.
    + apply store_parts_lookup. lia.
  - rewrite concat_chunks, drop_0. apply take_ge.
    assert (total <= Z.of_nat n * partSize) by (rewrite Hn; done).
    subst total. nia.
  - destruct rmAfter; cbn [id]; [apply lookup_delete_eq|].
    rewrite store_parts_other; [done|]. intros j _. by apply not_eq_sym.
  - intros q Hq Hparts. destruct rmAfter; cbn [id].
    + rewrite lookup_delete_ne by (by apply not_eq_sym).
      apply store_parts_other. intros j Hj. apply Hparts. lia.
    + apply store_parts_other. intros j Hj. apply Hparts. lia.
  - unfold partName. change (fmt_03d 0) with "000". apply append_assoc.
  - apply fmt_03d_three_digits.
  - intros Ht Hp.
    assert (n = 3%nat) as Hn3.
    { subst n. rewrite Ht, Hp. vm_compute. reflexivity. }
    split; [exact Hn3|]. rewrite Hn3. cbn [seq map]. unfold len.
    rewrite !length_chunk by done. fold total. rewrite Ht, Hp.
    reflexivity.
Qed.

Lemma rawSplit_parts_witness :
  let content := [Byte.x50; Byte.x4b; Byte.x03; Byte.x04; Byte.x14;
                  Byte.x00; Byte.x08; Byte.x00; Byte.x08; Byte.x00] in
  exists fs' evs,
    rawSplit 11 (sample_world [] None) "m.zip" "4" true {[ "m.zip" := content ]}
    = Some (Ok tt, fs', evs)
    /\ fs' !! "m.zip.part-000" = Some [Byte.x50; Byte.x4b; Byte.x03; Byte.x04]
    /\ fs' !! "m.zip.part-001" = Some [Byte.x14; Byte.x00; Byte.x08; Byte.x00]
    /\ fs' !! "m.zip.part-002" = Some [Byte.x08; Byte.x00]
    /\ fs' !! "m.zip" = None.
Proof.
  intros content.
  destruct (rawSplit_parts 11 (sample_world [] None) "m.zip" "4" 4 true
              {[ "m.zip" := content ]} content)
    as (fs' & evs & Hrun & Hparts & _ & Horig & _).
  - apply lookup_singleton_eq.
  - discriminate.
  - vm_compute. reflexivity.
  - vm_compute. reflexivity.
  - reflexivity.
  - by repeat split.
  - cbn. lia.
  - exists fs', evs. split; [exact Hrun|].
    split; [apply (Hparts 0%nat); vm_compute; lia|].
    split; [apply (Hparts 1%nat); vm_compute; lia|].
    split; [apply (Hparts 2%nat); vm_compute; lia|exact Horig].
Defined.

(** * Further properties of the program *)

(** ** The listing of archives *)

Lemma ascii_compare_lt_trans a b c :
  Ascii.compare a b = Lt -> Ascii.compare b c = Lt -> Ascii.compare a c = Lt.
Proof.
  unfold Ascii.compare. rewrite !N.compare_lt_iff. lia.
Qed.

Lemma string_compare_lt_trans a : forall b c,
  String.compare a b = Lt -> String.compare b c = Lt -> String.compare a c = Lt.
Proof.
  induction a as [|x a IH]; intros [|y b] [|z c]; simpl; try done.
  destruct (Ascii.compare x y) eqn:Hxy; try done.
  - apply Ascii.compare_eq_iff in Hxy as ->.
    destruct (Ascii.compare y z); try done. apply IH.
  - destruct (Ascii.compare y z) eqn:Hyz; try done.
    + apply Ascii.compare_eq_iff in Hyz as <-. by rewrite Hxy.
    + by rewrite (ascii_compare_lt_trans _ _ _ Hxy Hyz).
Qed.

Lemma str_le_refl a : str_le a a.
Proof.
  unfold str_le, String.ltb.
  destruct (String.compare a a) eqn:H; try done.
  pose proof (String.compare_antisym a a) as H'. rewrite H in H'. done.
Qed.

Lemma str_le_total a b : str_le a b \/ str_le b a.
Proof.
  unfold str_le, String.ltb. rewrite (String.compare_antisym a b).
  destruct (String.compare b a); simpl; auto.
Qed.

Lemma str_lt_le a b : String.ltb a b = true -> str_le a b.
Proof.
  unfold str_le, String.ltb. rewrite (String.compare_antisym a b).
  by destruct (String.compare b a).
Qed.

Lemma str_le_trans a b c : str_le a b -> str_le b c -> str_le a c.
Proof.
  unfold str_le, String.ltb. intros Hab Hbc.
  destruct (String.compare c a) eqn:Hca; try done.
  destruct (String.compare b a) eqn:Hba; try done.
  - apply String.compare_eq_iff in Hba as ->. by rewrite Hca in Hbc.
  - rewrite String.compare_antisym in Hba.
    destruct (String.compare a b) eqn:Hab'; try done.
    by rewrite (string_compare_lt_trans _ _ _ Hca Hab') in Hbc.
Qed.

Lemma str_le_antisym a b : str_le a b -> str_le b a -> a = b.
Proof.
  unfold str_le, String.ltb. rewrite (String.compare_antisym b a).
  destruct (String.compare a b) eqn:H; try done.
  intros _ _. by apply String.compare_eq_iff.
Qed.

#[local] Instance str_le_antisymm : AntiSymm eq str_le.
Proof. intros a b. apply str_le_antisym. Qed.

Lemma swap_if_less_length l i j : length (swap_if_less l i j) = length l.
Proof.
  unfold swap_if_less. destruct (l !! i), (l !! j); try done.
  destruct (String.ltb _ _); [|done]. by rewrite !length_insert.
Qed.

Lemma swap_if_less_perm l i j : swap_if_less l i j ≡ₚ l.
Proof.
  unfold swap_if_less.
  destruct (l !! i) as [a|] eqn:Hi, (l !! j) as [b|] eqn:Hj; try done.
  destruct (String.ltb _ _); [|done].
  by apply Permutation_insert_swap.
Qed.

(** A swap of two positions behind [a] keeps position [a] least. *)
Lemma swap_if_less_least l i j a :
  (a < i)%nat -> (a < j)%nat -> least_at l a -> least_at (swap_if_less l i j) a.
Proof.
  intros Hai Haj Hl. unfold swap_if_less.
  destruct (l !! i) as [u|] eqn:Hi, (l !! j) as [v|] eqn:Hj; try done.
  destruct (String.ltb _ _); [|done].
  intros b x y Hab Hx Hy.
  rewrite !list_lookup_insert_ne in Hx by lia.
  destruct (decide (b = i)) as [->|Hbi].
  - rewrite list_lookup_insert_eq in Hy
      by (rewrite length_insert; by eapply lookup_lt_Some).
    inversion Hy; subst. by eapply (Hl j).
  - rewrite list_lookup_insert_ne in Hy by done.
    destruct (decide (b = j)) as [->|Hbj].
    + rewrite list_lookup_insert_eq in Hy by (by eapply lookup_lt_Some).
      inversion Hy; subst. by eapply (Hl i).
    + rewrite list_lookup_insert_ne in Hy by done. by eapply (Hl b).
Qed.

(** Lines 77-79 for one [i]: afterwards position [i] holds a least
    element of what follows it. *)
Lemma simple_sort_inner i l : forall m,
  (forall a, (a < i)%nat -> least_at l a) ->
  let l' := foldl (fun out j => swap_if_less out i j) l (seq (S i) m) in
  length l' = length l
  /\ l' ≡ₚ l
  /\ (forall a, (a < i)%nat -> least_at l' a)
  /\ (forall b x y, (i < b < S i + m)%nat ->
        l' !! i = Some x -> l' !! b = Some y -> str_le x y).
Proof.
  induction m as [|m IH]; intros Hl; cbv zeta.
  { simpl. repeat split; try done. intros; lia. }
  rewrite seq_S, foldl_snoc.
  destruct (IH Hl) as (Hlen & Hperm & Hleast & Hi).
  set (l1 := foldl _ l (seq (S i) m)) in *.
  split; [by rewrite swap_if_less_length|].
  split; [by rewrite swap_if_less_perm|].
  split; [intros a Ha; apply swap_if_less_least; [lia|lia|by apply Hleast]|].
  intros b x y Hb. unfold swap_if_less.
  destruct (l1 !! i) as [u|] eqn:Hu; [|by rewrite Hu].
  destruct (l1 !! (S i + m)%nat) as [v|] eqn:Hv.
  2:{ rewrite Hu. intros Hx Hy. apply (Hi b x y); [|done|done].
      destruct (decide (b = S i + m)%nat) as [->|]; [congruence|lia]. }
  destruct (String.ltb v u) eqn:Hlt.
  - rewrite list_lookup_insert_eq
      by (rewrite length_insert; by eapply lookup_lt_Some).
    intros [= <-].
    destruct (decide (b = S i + m)%nat) as [->|Hne].
    + rewrite list_lookup_insert_ne by lia.
      rewrite list_lookup_insert_eq by (by eapply lookup_lt_Some).
      intros [= <-]. by apply str_lt_le.
    + rewrite !list_lookup_insert_ne by lia. intros Hy.
      apply (str_le_trans _ u); [by apply str_lt_le|].
      apply (Hi b u y); [lia|done|done].
  - rewrite Hu. intros [= <-] Hy.
    destruct (decide (b = S i + m)%nat) as [->|Hne].
    + rewrite Hv in Hy. by inversion Hy; subst.
    + apply (Hi b u y); [lia|done|done].
Qed.

Lemma simple_sort_outer n l : forall k,
  (k <= n)%nat -> length l = n ->
  let l' := foldl (fun out i =>
                     foldl (fun out j => swap_if_less out i j) out
                           (seq (S i) (n - S i))) l (seq 0 k) in
  length l' = n /\ l' ≡ₚ l /\ (forall a, (a < k)%nat -> least_at l' a).
Proof.
  induction k as [|k IH]; intros Hk Hlen; cbv zeta.
  { simpl. repeat split; try done. intros; lia. }
  rewrite seq_S, foldl_snoc. simpl.
  destruct (IH ltac:(lia) Hlen) as (Hlen1 & Hperm1 & Hleast1).
  set (l1 := foldl _ l (seq 0 k)) in *.
  destruct (simple_sort_inner k l1 (n - S k) Hleast1)
    as (Hlen2 & Hperm2 & Hleast2 & Hk2).
  split; [congruence|]. split; [by rewrite Hperm2|].
  intros a Ha. destruct (decide (a = k)) as [->|Hne].
  - intros b x y Hb Hx Hy. apply (Hk2 b x y); [|done|done].
    apply lookup_lt_Some in Hy. lia.
  - apply Hleast2. lia.
Qed.

Lemma least_at_sorted (l : list string) :
  (forall a, least_at l a) -> StronglySorted str_le l.
Proof.
  induction l as [|x l IH]; intros H; constructor.
  - apply IH. intros a b u v Hab Hu Hv. by apply (H (S a) (S b) u v); [lia| |].
  - apply Forall_lookup. intros b y Hy. by apply (H 0%nat (S b) x y); [lia| |].
Qed.

Lemma simple_sort_sorted out :
  StronglySorted str_le (simple_sort out) /\ simple_sort out ≡ₚ out.
Proof.
  destruct (simple_sort_outer (length out) out (length out) ltac:(lia) eq_refl)
    as (Hlen & Hperm & Hleast).
  split; [|exact Hperm].
  apply least_at_sorted. intros a.
  destruct (decide (a < length out)%nat) as [Ha|Ha]; [by apply Hleast|].
  intros b x y _ Hx. apply lookup_lt_Some in Hx.
  unfold simple_sort in Hx. lia.
Qed.

(** *** The filter loop *)

Lemma listZipFiles_filter_spec w glob ents : forall out,
  (Exists (bad_pattern_at w glob) ents
   /\ listZipFiles_filter w glob ents out = Err ErrBadPattern)
  \/ (Forall (fun e => ~ bad_pattern_at w glob e) ents
      /\ listZipFiles_filter w glob ents out
         = Ok (out ++ zip_candidates w glob ents)).
Proof.
  unfold bad_pattern_at.
  induction ents as [|e ents IH]; intros out; simpl.
  { right. split; [constructor|by rewrite app_nil_r]. }
  destruct (de_IsDir e) eqn:Hdir.
  { destruct (IH out) as [[Hex ->]|[Hall ->]].
    - left. split; [by apply Exists_cons_tl|done].
    - right. split; [constructor; [intros [? _]; congruence|done]|done]. }
  destruct (Match w glob (de_Name e)) as [m|] eqn:Hm.
  2:{ left. split; [by apply Exists_cons_hd|done]. }
  assert (~ (de_IsDir e = false /\ Match w glob (de_Name e) = None))
    as Hok by (intros [_ ?]; congruence).
  destruct m; simpl.
  - destruct (Str.HasSuffix _ _).
    + destruct (IH (out ++ [de_Name e])) as [[Hex ->]|[Hall ->]].
      * left. split; [by apply Exists_cons_tl|done].
      * right. split; [by constructor|]. by rewrite <- app_assoc.
    + destruct (IH out) as [[Hex ->]|[Hall ->]].
      * left. split; [by apply Exists_cons_tl|done].
      * right. split; [by constructor|done].
  - destruct (IH out) as [[Hex ->]|[Hall ->]].
    + left. split; [by apply Exists_cons_tl|done].
    + right. split; [by constructor|done].
Qed.

Lemma elem_of_zip_candidates w glob ents name :
  name ∈ zip_candidates w glob ents
  <-> exists e, e ∈ ents /\ de_IsDir e = false /\ de_Name e = name
        /\ Match w glob name = Some true
        /\ Str.HasSuffix (ToLower w name) ".zip" = true.
Proof.
  unfold zip_candidates. rewrite list_elem_of_omap. split.
  - intros (e & He & Hsome). exists e. split; [done|].
    destruct (de_IsDir e); [done|].
    destruct (Match w glob (de_Name e)) as [[]|] eqn:Hm; try done.
    destruct (Str.HasSuffix _ _) eqn:Hs; [|done].
    inversion Hsome; subst. done.
  - intros (e & He & Hdir & <- & Hm & Hs). exists e. split; [done|].
    by rewrite Hdir, Hm, Hs.
Qed.

(** X1.  What [listZipFiles] returns is in ascending byte order, and it
    is a rearrangement of the names it keeps: the names of the entries of
    the directory that are not directories, match the glob and end in
    [.zip] when put in lower case. *)
Theorem listZipFiles_sorted (w : world) (dir glob : string)
    (ents : list DirEntry) (names : list string) :
  ReadDir w dir = Some ents ->
  listZipFiles w dir glob = Ok names ->
  StronglySorted str_le names
  /\ names ≡ₚ zip_candidates w glob ents
  /\ (forall name,
        name ∈ names
        <-> exists e, e ∈ ents /\ de_IsDir e = false /\ de_Name e = name
              /\ Match w glob name = Some true
              /\ Str.HasSuffix (ToLower w name) ".zip" = true).
Proof.
  intros Hdir Hls. unfold listZipFiles in Hls. rewrite Hdir in Hls.
  destruct (listZipFiles_filter_spec w glob ents []) as [[_ H]|[_ H]];
    rewrite H in Hls; [done|].
  inversion Hls; subst names. simpl.
  destruct (simple_sort_sorted (zip_candidates w glob ents)) as [Hs Hp].
  split; [done|]. split; [done|].
  intros name. rewrite Hp. apply elem_of_zip_candidates.
Qed.

Lemma listZipFiles_sorted_witness :
  listZipFiles
    (sample_world [("b.zip", []); ("notes.txt", []); ("a.zip", []);
                   ("B.zip", [])] None) "in" "*.zip"
  = Ok ["B.zip"; "a.zip"; "b.zip"]
  /\ StronglySorted str_le ["B.zip"; "a.zip"; "b.zip"].
Proof.
  split; [reflexivity|].
  eapply (listZipFiles_sorted
            (sample_world [("b.zip", []); ("notes.txt", []); ("a.zip", []);
                           ("B.zip", [])] None) "in" "*.zip").
  - reflexivity.
  - reflexivity.
Defined.

(** X2.  [listZipFiles] fails in two ways only: the directory cannot be
    read, or [filepath.Match] rejects the pattern on an entry that is not a
    directory.  Directories are never matched, so a malformed pattern goes
    unnoticed in a directory without files. *)
Theorem listZipFiles_errors (w : world) (dir glob : string) (e : error) :
  listZipFiles w dir glob = Err e
  <-> (ReadDir w dir = None /\ e = ErrReadDir)
      \/ (exists ents, ReadDir w dir = Some ents /\ e = ErrBadPattern
            /\ Exists (bad_pattern_at w glob) ents).
Proof.
  unfold listZipFiles. destruct (ReadDir w dir) as [ents|].
  - destruct (listZipFiles_filter_spec w glob ents []) as [[Hex ->]|[Hall ->]].
    + split.
      * intros [= <-]. right. by exists ents.
      * intros [[? _]|(? & _ & -> & _)]; done.
    + split; [done|].
      intros [[? _]|(ents' & [= <-] & _ & Hex)]; [done|].
      apply Exists_exists in Hex as (x & Hx & Hbad).
      rewrite Forall_forall in Hall. by destruct (Hall x Hx).
  - split.
    + intros [= <-]. by left.
    + intros [[_ ->]|(? & ? & _)]; done.
Qed.

(** X3.  The order in which the operating system lists the directory has
    no influence on the result. *)
Theorem listZipFiles_listing_order (w w' : world) (dir dir' glob : string)
    (ents ents' : list DirEntry) :
  Match w = Match w' ->
  ToLower w = ToLower w' ->
  ReadDir w dir = Some ents ->
  ReadDir w' dir' = Some ents' ->
  ents ≡ₚ ents' ->
  listZipFiles w dir glob = listZipFiles w' dir' glob.
Proof.
  intros HM HL Hd Hd' Hperm. unfold listZipFiles. rewrite Hd, Hd'.
  assert (forall e, bad_pattern_at w glob e <-> bad_pattern_at w' glob e)
    as Hbad by (intros e; unfold bad_pattern_at; by rewrite HM).
  assert (zip_candidates w glob ents ≡ₚ zip_candidates w' glob ents') as Hc.
  { unfold zip_candidates. rewrite HM, HL. by apply omap_Permutation. }
  destruct (listZipFiles_filter_spec w glob ents []) as [[Hex ->]|[Hall ->]];
    destruct (listZipFiles_filter_spec w' glob ents' [])
      as [[Hex' ->]|[Hall' ->]]; try done.
  - exfalso. rewrite Hperm in Hex.
    apply Exists_exists in Hex as (x & Hx & Hb).
    rewrite Forall_forall in Hall'. apply (Hall' x Hx). by apply Hbad.
  - exfalso. rewrite <- Hperm in Hex'.
    apply Exists_exists in Hex' as (x & Hx & Hb).
    rewrite Forall_forall in Hall. apply (Hall x Hx). by apply Hbad.
  - f_equal. simpl.
    destruct (simple_sort_sorted (zip_candidates w glob ents)) as [Hs Hp].
    destruct (simple_sort_sorted (zip_candidates w' glob ents')) as [Hs' Hp'].
    apply (StronglySorted_unique str_le); [done|done|].
    by rewrite Hp, Hp', Hc.
Qed.

Lemma listZipFiles_listing_order_witness :
  listZipFiles (sample_world [("b.zip", []); ("a.zip", [])] None) "in" "*.zip"
  = listZipFiles (sample_world [("a.zip", []); ("b.zip", [])] None) "in" "*.zip".
Proof.
  eapply (listZipFiles_listing_order
            (sample_world [("b.zip", []); ("a.zip", [])] None)
            (sample_world [("a.zip", []); ("b.zip", [])] None)).
  - reflexivity.
  - reflexivity.
  - reflexivity.
  - reflexivity.
  - apply Permutation_swap.
Defined.

(** ** Size texts *)

Lemma rev_app_append s : forall t, String.rev_app s t = String.rev s +:+ t.
Proof.
  unfold String.rev. induction s as [|c s IH]; intros t; simpl; [done|].
  rewrite (IH (String c t)), (IH (String c "")), append_assoc. done.
Qed.

Lemma rev_append a b : String.rev (a +:+ b) = String.rev b +:+ String.rev a.
Proof.
  induction a as [|c a IH]; simpl.
  - by rewrite append_nil_r.
  - unfold String.rev at 1 3. simpl. rewrite !rev_app_append.
    fold (String.rev (a +:+ b)). by rewrite IH, append_assoc.
Qed.

Lemma rev_rev s : String.rev (String.rev s) = s.
Proof.
  induction s as [|c s IH]; [done|].
  unfold String.rev at 2. simpl. rewrite rev_app_append, rev_append, IH. done.
Qed.

Lemma chars_append a b : chars (a +:+ b) = chars a ++ chars b.
Proof. induction a as [|c a IH]; simpl; [done|]. by rewrite IH. Qed.

Lemma chars_rev s : chars (String.rev s) = rev (chars s).
Proof.
  induction s as [|c s IH]; [done|].
  unfold String.rev. simpl. rewrite rev_app_append, chars_append, IH. done.
Qed.

Lemma rev_cons c s : String.rev (String c s) = String.rev s +:+ String c "".
Proof. unfold String.rev at 1. simpl. apply rev_app_append. Qed.

(** *** [strings.TrimSpace] *)

Lemma re_space_asciiSpace c : re_space c = true -> asciiSpace c = true.
Proof.
  destruct c as [[] [] [] [] [] [] [] []]; simpl; done.
Qed.

Lemma plain_not_re_space c : plain c -> re_space c = false.
Proof.
  intros [_ H]. destruct (re_space c) eqn:Hc; [|done].
  apply re_space_asciiSpace in Hc. congruence.
Qed.

Lemma plain_space2_l c b : plain c -> space2 c b = false.
Proof.
  intros [H _]. unfold space2.
  destruct (Ascii.eqb_spec c "194") as [->|]; [|done]. by vm_compute in H.
Qed.

Lemma plain_space2_r b c : plain c -> space2 b c = false.
Proof.
  intros [H _]. unfold space2.
  destruct (Ascii.eqb_spec c "133") as [->|]; [by vm_compute in H|].
  destruct (Ascii.eqb_spec c "160") as [->|]; [by vm_compute in H|].
  apply andb_false_r.
Qed.

Lemma plain_space3_l c x y : plain c -> space3 c x y = false.
Proof.
  intros [H _]. unfold space3.
  destruct (Ascii.eqb_spec c "225") as [->|]; [by vm_compute in H|].
  destruct (Ascii.eqb_spec c "226") as [->|]; [by vm_compute in H|].
  destruct (Ascii.eqb_spec c "227") as [->|]; [by vm_compute in H|].
  done.
Qed.

Lemma plain_space3_r x y c : plain c -> space3 x y c = false.
Proof.
  intros [H _]. unfold space3. cbv zeta.
  destruct (Ascii.eqb_spec c "128") as [->|]; [by vm_compute in H|].
  destruct (Ascii.eqb_spec c "159") as [->|]; [by vm_compute in H|].
  assert ((128 <=? Ascii.N_of_ascii c)%N = false) as -> by (apply N.leb_gt; lia).
  assert ((Ascii.N_of_ascii c =? 168)%N = false) as -> by (apply N.eqb_neq; lia).
  assert ((Ascii.N_of_ascii c =? 169)%N = false) as -> by (apply N.eqb_neq; lia).
  assert ((Ascii.N_of_ascii c =? 175)%N = false) as -> by (apply N.eqb_neq; lia).
  simpl. rewrite !andb_false_r. done.
Qed.

(** Trimming stops at an ASCII character that is not white space. *)
Lemma trimSpaceFront_plain back c s :
  plain c -> trimSpaceFront back (String c s) = String c s.
Proof.
  intros Hc. simpl. rewrite (proj2 Hc).
  destruct s as [|b s2]; [done|].
  rewrite (plain_space2_l c b Hc), (plain_space2_r b c Hc).
  destruct s2 as [|d s3]; [by destruct back|].
  rewrite (plain_space3_l c b d Hc), (plain_space3_r d b c Hc).
  by destruct back.
Qed.

Lemma trimSpaceFront_blanks back sp s :
  blanks sp = true ->
  trimSpaceFront back (sp +:+ s) = trimSpaceFront back s.
Proof.
  induction sp as [|c sp IH]; [done|]. simpl blanks.
  intros [Hc Hsp]%andb_prop. rewrite append_cons.
  cbn [trimSpaceFront]. rewrite (re_space_asciiSpace c Hc). by apply IH.
Qed.

Lemma blanks_append a b : blanks (a +:+ b) = blanks a && blanks b.
Proof.
  induction a as [|c a IH]; [done|]. rewrite append_cons. simpl.
  by rewrite IH, andb_assoc.
Qed.

Lemma blanks_rev s : blanks (String.rev s) = blanks s.
Proof.
  induction s as [|c s IH]; [done|].
  rewrite rev_cons, blanks_append, IH. simpl. rewrite andb_true_r.
  apply andb_comm.
Qed.

(** White space around a text that begins and ends with ASCII
    characters other than white space is removed, and nothing else. *)
Lemma TrimSpace_blanks sp1 sp3 c0 t t' c1 :
  blanks sp1 = true -> blanks sp3 = true ->
  plain c0 -> plain c1 ->
  String c0 t = t' +:+ String c1 "" ->
  TrimSpace (sp1 +:+ String c0 t +:+ sp3) = String c0 t.
Proof.
  intros H1 H3 Hc0 Hc1 Hbody. unfold TrimSpace.
  rewrite trimSpaceFront_blanks by done.
  rewrite append_cons, trimSpaceFront_plain by done.
  rewrite <- append_cons, rev_append, Hbody, rev_append.
  rewrite trimSpaceFront_blanks by (by rewrite blanks_rev).
  change (String.rev (String c1 "")) with (String c1 "").
  rewrite append_cons, append_nil_l, trimSpaceFront_plain by done.
  by rewrite rev_cons, rev_rev.
Qed.

(** *** The regular expression *)

Lemma skip_re_space_blanks sp s :
  blanks sp = true -> skip_re_space (sp +:+ s) = skip_re_space s.
Proof.
  induction sp as [|c sp IH]; [done|]. simpl blanks.
  intros [Hc Hsp]%andb_prop. rewrite append_cons. simpl. rewrite Hc. by apply IH.
Qed.

Lemma skip_re_space_stop c s :
  re_space c = false -> skip_re_space (String c s) = String c s.
Proof. intros H. simpl. by rewrite H. Qed.

Lemma take_digits_append ds rest :
  all_digits ds = true ->
  match rest with String c _ => is_digit c = false | EmptyString => True end ->
  take_digits (ds +:+ rest) = (ds, rest).
Proof.
  intros Hds Hrest. induction ds as [|c ds IH].
  - rewrite append_nil_l. destruct rest as [|c r]; [done|]. simpl. by rewrite Hrest.
  - simpl in Hds. apply andb_prop in Hds as [Hc Hds].
    rewrite append_cons. simpl. rewrite Hc, (IH Hds). done.
Qed.

Lemma all_digits_string_of_uint d :
  all_digits (NilEmpty.string_of_uint d) = true.
Proof. induction d; simpl; done. Qed.

Lemma fmt_d_digits n :
  0 <= n -> all_digits (fmt_d n) = true /\ fmt_d n <> "".
Proof.
  intros Hn. destruct n as [|p|p]; [done| |lia].
  unfold fmt_d. cbn [Z.to_int NilZero.string_of_int].
  unfold NilZero.string_of_uint.
  pose proof (DecimalPos.Unsigned.to_uint_nonnil p) as Hnn.
  destruct (Pos.to_uint p) eqn:Hd; [done|..]; rewrite <- Hd;
    (split; [apply all_digits_string_of_uint|]); rewrite Hd; done.
Qed.

Lemma digit_plain c : is_digit c = true -> plain c.
Proof.
  unfold is_digit, plain. cbv zeta.
  intros [H1 H2]%andb_prop. apply N.leb_le in H1, H2.
  split; [lia|].
  destruct c as [[] [] [] [] [] [] [] []]; try done; vm_compute in H1, H2; done.
Qed.

Lemma digit_not_re_space c : is_digit c = true -> re_space c = false.
Proof. intros H. apply plain_not_re_space. by apply digit_plain. Qed.

Lemma ParseInt_fmt_d n : 0 <= n -> ParseInt_digits (fmt_d n) = Z.min n Int.MaxInt64.
Proof.
  intros Hn. unfold ParseInt_digits.
  destruct (uint_of_fmt_d n Hn) as (d & -> & ->). done.
Qed.

(** The regular expression on a number, blanks, and a unit letter or
    nothing. *)
Lemma splitSizeRe_number n sp2 u f :
  0 <= n -> blanks sp2 = true -> unit_factor u = Some f ->
  splitSizeRe (fmt_d n +:+ sp2 +:+ u) = Some (fmt_d n, u).
Proof.
  intros Hn Hsp Hu. destruct (fmt_d_digits n Hn) as [Hds Hne].
  unfold splitSizeRe.
  assert (skip_re_space (fmt_d n +:+ sp2 +:+ u) = fmt_d n +:+ sp2 +:+ u) as ->.
  { destruct (fmt_d n) as [|c ds]; [done|]. rewrite append_cons.
    apply skip_re_space_stop, digit_not_re_space.
    simpl in Hds. by apply andb_prop in Hds as [? _]. }
  rewrite take_digits_append; [|done|].
  2:{ destruct sp2 as [|c sp2].
      - rewrite append_nil_l. unfold unit_factor in Hu.
        repeat match type of Hu with
        | context [String.eqb u ?x] =>
            destruct (String.eqb_spec u x) as [->|]; [done|]
        end. done.
      - rewrite append_cons. simpl in Hsp. apply andb_prop in Hsp as [Hc _].
        destruct (is_digit c) eqn:Hd; [|done].
        apply digit_not_re_space in Hd. congruence. }
  destruct (String.eqb_spec (fmt_d n) ""); [done|].
  rewrite skip_re_space_blanks by done.
  unfold unit_factor in Hu.
  repeat match type of Hu with
  | context [String.eqb u ?x] =>
      destruct (String.eqb_spec u x) as [->|]; [done|]
  end. done.
Qed.

(** X4.  A decimal number, optionally followed by one of the letters
    k, m, g, t in either case, with white space allowed around both, is a
    size: the number, capped at the largest [int64], times 1024 to the power
    1, 2, 3, 4 for the four letters, wrapped to 64 bits. *)
Theorem parseSize_number_unit (w : world) (n f : Z) (u sp1 sp2 sp3 : string) :
  0 <= n ->
  unit_factor u = Some f ->
  ToLower w u = lower_ascii u ->
  blanks sp1 = true -> blanks sp2 = true -> blanks sp3 = true ->
  parseSize w (sp1 +:+ fmt_d n +:+ sp2 +:+ u +:+ sp3)
  = Ok (Int.i64 (Z.min n Int.MaxInt64 * f)).
Proof.
  intros Hn Hu Hlow H1 H2 H3. unfold parseSize.
  destruct (fmt_d_digits n Hn) as [Hds Hne].
  destruct (fmt_d n) as [|c0 ds] eqn:Hfmt; [done|].
  assert (plain c0) as Hc0.
  { apply digit_plain. simpl in Hds. by apply andb_prop in Hds as [? _]. }
  assert (exists t' c1, String c0 ds = t' +:+ String c1 "" /\ is_digit c1 = true)
    as (t' & c1 & Hlast & Hc1).
  { clear Hfmt Hne Hc0. revert c0 Hds. induction ds as [|d ds IH]; intros c0 Hds.
    - exists "", c0. split; [done|]. simpl in Hds. by apply andb_prop in Hds as [? _].
    - simpl in Hds. apply andb_prop in Hds as [_ Hds].
      destruct (IH d Hds) as (t' & c1 & -> & Hc1).
      by exists (String c0 t'), c1. }
  assert (TrimSpace (sp1 +:+ String c0 ds +:+ sp2 +:+ u +:+ sp3)
          = String c0 ds +:+ (if String.eqb u "" then "" else sp2 +:+ u)) as ->.
  { destruct (String.eqb_spec u "") as [->|Hune].
    - rewrite append_nil_l, append_nil_r.
      apply (TrimSpace_blanks sp1 (sp2 +:+ sp3) c0 ds t' c1);
        [done|by rewrite blanks_append, H2, H3|done|by apply digit_plain|done].
    - assert (exists c, u = String c "" /\ plain c) as (cu & -> & Hcu).
      { unfold unit_factor in Hu.
        repeat match type of Hu with
        | context [String.eqb u ?x] =>
            destruct (String.eqb_spec u x) as [->|];
              [first [done|eexists; split; [reflexivity|by split]]|]
        end; done. }
      replace (sp1 +:+ String c0 ds +:+ sp2 +:+ String cu "" +:+ sp3)
        with (sp1 +:+ String c0 (ds +:+ sp2 +:+ String cu "") +:+ sp3)
        by (by rewrite !append_cons, !append_assoc).
      rewrite (append_cons c0 ds).
      apply (TrimSpace_blanks sp1 sp3 c0 (ds +:+ sp2 +:+ String cu "")
               (String c0 ds +:+ sp2) cu); try done.
      by rewrite !append_cons, append_assoc. }
  rewrite <- Hfmt.
  assert (splitSizeRe (fmt_d n +:+ (if String.eqb u "" then "" else sp2 +:+ u))
          = Some (fmt_d n, u)) as ->.
  { destruct (String.eqb_spec u "") as [->|Hune].
    - by apply (splitSizeRe_number n "" "" 1).
    - by apply (splitSizeRe_number n sp2 u f). }
  rewrite ParseInt_fmt_d by done. rewrite Hlow.
  unfold unit_factor in Hu.
  repeat match type of Hu with
  | context [String.eqb u ?x] =>
      destruct (String.eqb_spec u x) as [->|];
        [injection Hu as <-; reflexivity|]
  end. done.
Qed.

Lemma parseSize_number_unit_witness :
  parseSize (sample_world [] None) " 1900 M" = Ok (1900 * 1024 * 1024).
Proof.
  apply (parseSize_number_unit (sample_world [] None) 1900 (1024 * 1024)
           "M" " " " " ""); try reflexivity. lia.
Defined.

Lemma foreign_not_size_char c : foreign c -> size_char c = false.
Proof.
  intros (Hp & Hd & Hu). unfold size_char.
  rewrite (plain_not_re_space c Hp), Hd, Hu. simpl.
  apply N.leb_gt. apply Hp.
Qed.

Lemma skip_re_space_split s :
  exists sp, s = sp +:+ skip_re_space s /\ blanks sp = true.
Proof.
  induction s as [|c s (sp & IH & Hsp)]; [by exists ""|].
  simpl. destruct (re_space c) eqn:Hc.
  - exists (String c sp). rewrite append_cons, <- IH. simpl. by rewrite Hc.
  - by exists "".
Qed.

Lemma take_digits_split s :
  s = (take_digits s).1 +:+ (take_digits s).2
  /\ all_digits (take_digits s).1 = true.
Proof.
  induction s as [|c s [IH1 IH2]]; [done|].
  simpl. destruct (is_digit c) eqn:Hc; [|done].
  destruct (take_digits s) as [d r]. simpl in *. rewrite Hc, IH2.
  by rewrite IH1 at 1.
Qed.

Lemma take_unit_split s :
  s = (take_unit s).1 +:+ (take_unit s).2
  /\ forallb size_char (chars (take_unit s).1) = true.
Proof.
  unfold take_unit. destruct s as [|c s]; [done|].
  destruct (Str.contains_char c "kmgtKMGT") eqn:Hc.
  { split; [done|]. simpl. unfold size_char. rewrite Hc.
    by rewrite orb_true_r. }
  destruct s as [|c2 [|c3 s3]]; try done.
  destruct (Ascii.eqb_spec c "226") as [->|]; [|done].
  destruct (Ascii.eqb_spec c2 "132") as [->|]; [|done].
  destruct (Ascii.eqb_spec c3 "170") as [->|]; [|done].
  done.
Qed.

Lemma blanks_size_chars s : blanks s = true -> forallb size_char (chars s) = true.
Proof.
  induction s as [|c s IH]; [done|]. simpl.
  intros [Hc Hs]%andb_prop. unfold size_char at 1. rewrite Hc. simpl. by apply IH.
Qed.

Lemma digits_size_chars s :
  all_digits s = true -> forallb size_char (chars s) = true.
Proof.
  induction s as [|c s IH]; [done|]. simpl.
  intros [Hc Hs]%andb_prop. unfold size_char at 1. rewrite Hc.
  rewrite orb_true_r. simpl. by apply IH.
Qed.

Lemma skip_re_space_empty s : skip_re_space s = "" -> blanks s = true.
Proof.
  destruct (skip_re_space_split s) as (sp & Hs & Hsp).
  intros H. rewrite H, append_nil_r in Hs. by subst.
Qed.

(** What the regular expression matches is made of white space, digits,
    unit letters and the bytes of the Kelvin sign, and its first group is
    a non-empty run of digits of the text. *)
Lemma splitSizeRe_chars t m1 m2 :
  splitSizeRe t = Some (m1, m2) ->
  forallb size_char (chars t) = true
  /\ exists c, c ∈ chars t /\ is_digit c = true.
Proof.
  unfold splitSizeRe.
  destruct (skip_re_space_split t) as (a & Ht & Ha).
  destruct (take_digits_split (skip_re_space t)) as [Hd1 Hd2].
  destruct (take_digits (skip_re_space t)) as [d r]. simpl in Hd1, Hd2.
  destruct (String.eqb_spec d ""); [done|].
  destruct (skip_re_space_split r) as (b & Hr & Hb).
  destruct (take_unit_split (skip_re_space r)) as [Hu1 Hu2].
  destruct (take_unit (skip_re_space r)) as [u r']. simpl in Hu1, Hu2.
  destruct (String.eqb_spec (skip_re_space r') ""); [|done].
  intros _.
  assert (t = a +:+ d +:+ b +:+ u +:+ r') as ->
    by (rewrite Ht at 1; rewrite Hd1; rewrite Hr at 1; by rewrite Hu1 at 1).
  split.
  - rewrite !chars_append, !forallb_app.
    rewrite (blanks_size_chars a Ha), (digits_size_chars d Hd2),
      (blanks_size_chars b Hb), Hu2.
    by rewrite (blanks_size_chars r' (skip_re_space_empty r' ltac:(done))).
  - destruct d as [|c d]; [done|]. exists c. split.
    + rewrite !chars_append. simpl. set_solver.
    + simpl in Hd2. by apply andb_prop in Hd2 as [? _].
Qed.

(** What [trimSpaceFront] removes has no ASCII character other than
    white space. *)
Lemma trimSpaceFront_split back s :
  exists pre, s = pre +:+ trimSpaceFront back s
    /\ Forall (fun c => ~ plain c) (chars pre).
Proof.
  assert (forall c, asciiSpace c = true -> ~ plain c) as Hsp
    by (intros c Hc [_ ?]; congruence).
  assert (forall n s, (String.length s < n)%nat ->
            exists pre, s = pre +:+ trimSpaceFront back s
              /\ Forall (fun c => ~ plain c) (chars pre)) as H.
  { induction n as [|n IH]; intros s' Hlen; [lia|].
    destruct s' as [|a s1]; [by exists ""|].
    cbn [trimSpaceFront]. destruct (asciiSpace a) eqn:Ha.
    { destruct (IH s1 ltac:(simpl in Hlen; lia)) as (pre & Hs1 & Hpre).
      exists (String a pre). rewrite append_cons, <- Hs1.
      split; [done|]. constructor; [by apply Hsp|done]. }
    destruct s1 as [|b s2]; [by exists ""|].
    destruct (if back then space2 b a else space2 a b) eqn:H2.
    { destruct (IH s2 ltac:(simpl in Hlen; lia)) as (pre & Hs2 & Hpre).
      exists (String a (String b pre)). rewrite !append_cons, <- Hs2.
      split; [done|].
      constructor; [|constructor; [|done]]; intros Hp; destruct back;
        first [ by rewrite (plain_space2_l _ _ Hp) in H2
              | by rewrite (plain_space2_r _ _ Hp) in H2 ]. }
    destruct s2 as [|c s3]; [by exists ""|].
    destruct (if back then space3 c b a else space3 a b c) eqn:H3;
      [|by exists ""].
    destruct (IH s3 ltac:(simpl in Hlen; lia)) as (pre & Hs3 & Hpre).
    exists (String a (String b (String c pre))). rewrite !append_cons, <- Hs3.
    split; [done|].
    assert (forall x y z, space3 x y z = true -> ~ plain y) as Hmid.
    { intros x y z Hxyz [Hy _]. unfold space3 in Hxyz. cbv zeta in Hxyz.
      destruct (Ascii.eqb_spec y "154") as [->|]; [by vm_compute in Hy|].
      destruct (Ascii.eqb_spec y "128") as [->|]; [by vm_compute in Hy|].
      destruct (Ascii.eqb_spec y "129") as [->|]; [by vm_compute in Hy|].
      rewrite !andb_false_r in Hxyz. done. }
    constructor; [|constructor; [|constructor; [|done]]]; intros Hp;
      destruct back;
      first [ by rewrite (plain_space3_l _ _ _ Hp) in H3
            | by rewrite (plain_space3_r _ _ _ Hp) in H3
            | by eapply Hmid ]. }
  apply (H (S (String.length s))). lia.
Qed.

(** X5.  A text that [parseSize] accepts holds a digit, and apart from
    white space, digits and the letters k, m, g, t in either case it holds
    no ASCII character: no sign, no decimal point, no other unit. *)
Theorem parseSize_accepts_only (w : world) (s : string) (v : Z) :
  parseSize w s = Ok v ->
  (exists c, c ∈ chars s /\ is_digit c = true)
  /\ (forall c, c ∈ chars s -> ~ foreign c).
Proof.
  unfold parseSize.
  destruct (splitSizeRe (TrimSpace s)) as [[m1 m2]|] eqn:Hre; [|done].
  intros _. apply splitSizeRe_chars in Hre as [Hall (c & Hc & Hd)].
  unfold TrimSpace in *.
  destruct (trimSpaceFront_split false s) as (pre & Hs & Hpre).
  set (t1 := trimSpaceFront false s) in *.
  destruct (trimSpaceFront_split true (String.rev t1)) as (pre2 & Ht1 & Hpre2).
  set (t2 := trimSpaceFront true (String.rev t1)) in *.
  assert (chars s = chars pre ++ chars (String.rev t2) ++ rev (chars pre2))
    as Hchars.
  { rewrite Hs at 1. rewrite chars_append. f_equal.
    rewrite <- (rev_rev t1), Ht1, rev_append, chars_append.
    f_equal. apply chars_rev. }
  split.
  - exists c. split; [|done]. rewrite Hchars. set_solver.
  - intros x Hx Hfor. rewrite Hchars in Hx.
    apply elem_of_app in Hx as [Hx|Hx].
    { rewrite Forall_forall in Hpre. apply (Hpre x Hx), Hfor. }
    apply elem_of_app in Hx as [Hx|Hx].
    + rewrite forallb_forall in Hall.
      apply list_elem_of_In in Hx. specialize (Hall x Hx).
      by rewrite (foreign_not_size_char x Hfor) in Hall.
    + apply list_elem_of_In, in_rev, list_elem_of_In in Hx.
      rewrite Forall_forall in Hpre2. apply (Hpre2 x Hx), Hfor.
Qed.

Lemma parseSize_accepts_only_witness :
  (exists c, c ∈ chars "2g" /\ is_digit c = true)
  /\ (forall c, c ∈ chars "2g" -> ~ foreign c).
Proof.
  apply (parseSize_accepts_only (sample_world [] None) "2g"
           (2 * 1024 * 1024 * 1024)).
  reflexivity.
Defined.

(** ** The report and the failures of a split *)

(** Filling one part, whatever the reads and writes do: the loop ends
    within the fuel, changes no file but the part, prints nothing, and when
    it ends without an error the part is full or the input is at its
    end. *)
Lemma copyPart_any w content name partSize :
  0 < partSize < Int.two63 ->
  Z.of_nat (length content) < Int.two63 ->
  let total := Z.of_nat (length content) in
  forall fuel copied st,
    0 <= copied <= partSize ->
    0 <= offset st <= total ->
    written st = offset st ->
    total - offset st < Z.of_nat fuel ->
    exists r st',
      copyPart fuel w content name partSize copied st = Some (r, st')
      /\ (forall q, q <> name -> fs st' !! q = fs st !! q)
      /\ out st' = out st
      /\ offset st <= offset st' <= total
      /\ match r with
         | Ok c =>
             copied <= c <= partSize
             /\ offset st' - offset st = c - copied
             /\ written st' = offset st'
             /\ (c = partSize \/ offset st' = total)
         | Err _ => True
         end.
Proof.
  intros Hps Hlen total.
  induction fuel as [|fuel IH]; intros copied st Hc Hoff Hwrt Hfuel; [lia|].
  cbn [copyPart]. destruct (Z.ltb_spec copied partSize) as [Hlt|Hge].
  2:{ exists (Ok copied), st. repeat split; try done; try lia. }
  cbv zeta.
  rewrite (i64_small (partSize - copied)) by (unfold Int.two63 in *; lia).
  set (toRead := if partSize - copied <? 4 * 1024 * 1024
                 then partSize - copied else 4 * 1024 * 1024).
  assert (1 <= toRead <= partSize - copied) as HtoRead.
  { unfold toRead. destruct (Z.ltb_spec (partSize - copied) (4 * 1024 * 1024));
      lia. }
  unfold readAt. destruct (Read_fails w (nreads st)).
  { change (0 <? 0) with false. cbn [andb].
    eexists _, _. split; [reflexivity|]. cbn. repeat split; try done; lia. }
  fold total.
  destruct (Z.leb_spec (total - offset st) 0) as [Heof|Hmore].
  { change (0 <? 0) with false. cbn [andb].
    eexists _, _. split; [reflexivity|]. cbn. repeat split; try done; lia. }
  set (n := Z.min (Z.min toRead (total - offset st))
                  (Z.max 1 (Read_limit w (nreads st)))).
  assert (1 <= n <= partSize - copied /\ n <= total - offset st)
    as [Hn Hn'] by (unfold n; lia).
  assert ((0 <? n) = true) as -> by (apply Z.ltb_lt; lia).
  destruct (Write_fails w (nreads st)).
  { cbn [andb]. eexists _, _. split; [reflexivity|]. cbn.
    repeat split; try done; lia. }
  cbn [andb].
  rewrite (i64_small (written st + n)) by (unfold Int.two63 in *; lia).
  rewrite (i64_small (copied + n)) by (unfold Int.two63 in *; lia).
  set (st1 := SplitState _ _ _ _ _).
  destruct (IH (copied + n) st1) as (r & st' & Hrun & Hfs & Hout & Hoff' & Hr).
  - lia.
  - subst st1. cbn [offset]. lia.
  - subst st1. cbn [offset written]. lia.
  - subst st1. cbn [offset]. lia.
  - exists r, st'. rewrite Hrun. subst st1. cbn [fs out offset] in *.
    split; [done|]. split.
    { intros q Hq. rewrite (Hfs q Hq). by apply lookup_alter_ne. }
    split; [done|]. split; [lia|].
    destruct r as [c|e]; [|done]. lia.
Qed.

Lemma part_lines_cons path i c sizes :
  part_lines path i (c :: sizes)
  = SplitPart (partName path (Z.of_nat i)) c :: part_lines path (S i) sizes.
Proof.
  unfold part_lines. cbn [imap]. rewrite Nat.add_0_r. f_equal.
  apply imap_ext. intros j x _. simpl. do 3 f_equal. lia.
Qed.

(** The part loop, whatever the file system calls do: it ends within the
    fuel, touches part files only, and prints one line for every part it
    completed, in order; when it ends without an error the sizes printed
    add up to what was left of the input. *)
Lemma splitLoop_any w path content partSize :
  0 < partSize < Int.two63 ->
  Z.of_nat (length content) < Int.two63 ->
  let total := Z.of_nat (length content) in
  forall fuel i st,
    0 <= offset st < total ->
    written st = offset st ->
    total - offset st < Z.of_nat fuel ->
    Z.of_nat i + (total - offset st) < Int.two63 ->
    exists r st' sizes,
      splitLoop fuel w content (path +:+ ".part-") partSize total
        (Z.of_nat i) st = Some (r, st')
      /\ (forall q, (forall j, q <> partName path j) ->
            fs st' !! q = fs st !! q)
      /\ out st' = out st ++ part_lines path i sizes
      /\ Forall (fun c => 0 < c <= partSize) sizes
      /\ offset st + sum_sizes sizes <= total
      /\ match r with
         | Ok _ => offset st + sum_sizes sizes = total
         | Err _ => True
         end.
Proof.
  intros Hps Hlen total.
  induction fuel as [|fuel IH]; intros i st Hoff Hwrt Hfuel Hidx; [lia|].
  cbn [splitLoop]. cbv zeta. fold (partName path (Z.of_nat i)).
  destruct (Create_fails w (partName path (Z.of_nat i))).
  { exists (Err ErrCreate), st, []. split; [done|].
    split; [done|]. split; [by rewrite app_nil_r|].
    split; [done|]. split; [cbn; lia|done]. }
  set (st1 := SplitState _ _ _ _ _).
  destruct (copyPart_any w content (partName path (Z.of_nat i)) partSize
              Hps Hlen (S fuel) 0 st1)
    as (r & st' & Hrun & Hfs & Hout & Hoff' & Hr);
    [lia|subst st1; cbn [offset]; lia|by subst st1
    |subst st1; cbn [offset]; lia|].
  fold total in Hrun. rewrite Hrun. subst st1. cbn [fs out offset] in *.
  assert (forall q, (forall j, q <> partName path j) ->
            fs st' !! q = fs st !! q) as Hframe.
  { intros q Hq. rewrite (Hfs q (Hq _)). apply lookup_insert_ne.
    by apply not_eq_sym. }
  destruct r as [c|e].
  2:{ exists (Err e), st', []. split; [done|]. split; [done|].
      split; [by rewrite app_nil_r|].
      split; [done|]. split; [cbn; lia|done]. }
  destruct Hr as (Hc & Hread & Hwrt' & Hfull). cbn [written].
  fold total in Hoff', Hfull.
  destruct (Z.leb_spec total (written st')) as [Hdone|Hmore].
  { eexists (Ok tt), _, [c]. split; [reflexivity|]. cbn [fs out].
    split; [done|]. split; [by rewrite Hout, part_lines_cons|].
    split; [constructor; [lia|constructor]|]. cbn. lia. }
  rewrite (i64_small (Z.of_nat i + 1)) by (unfold Int.two63 in *; lia).
  replace (Z.of_nat i + 1) with (Z.of_nat (S i)) by lia.
  set (st2 := SplitState _ _ _ _ _).
  destruct (IH (S i) st2)
    as (r & st3 & sizes & Hloop & Hfs3 & Hout3 & Hsz & Hle & Hr).
  - subst st2. cbn [offset]. lia.
  - subst st2. cbn [offset written]. done.
  - subst st2. cbn [offset]. lia.
  - subst st2. cbn [offset]. lia.
  - exists r, st3, (c :: sizes). rewrite Hloop. subst st2.
    cbn [fs out offset] in *. split; [done|].
    split; [intros q Hq; by rewrite (Hfs3 q Hq), (Hframe q Hq)|].
    split; [by rewrite Hout3, Hout, part_lines_cons, <- app_assoc|].
    split; [constructor; [lia|done]|].
    unfold sum_sizes in *. cbn [foldr].
    split; [lia|]. destruct r; [lia|done].
Qed.

(** [rawSplit] from the part loop on, for a file that opens and is not
    empty. *)
Lemma rawSplit_run fuel w path s rmAfter fs0 content partSize :
  parseSize w s = Ok partSize -> 0 < partSize ->
  Open_fails w path = false -> fs0 !! path = Some content ->
  Stat_fails w path = false -> content <> [] ->
  (length content < fuel)%nat -> Z.of_nat (length content) < Int.two63 ->
  exists (r : result unit) st sizes,
    (forall q, (forall j, q <> partName path j) -> fs st !! q = fs0 !! q)
    /\ out st = part_lines path 0 sizes
    /\ Forall (fun c => 0 < c <= partSize) sizes
    /\ sum_sizes sizes <= Z.of_nat (length content)
    /\ match r with
       | Ok _ => sum_sizes sizes = Z.of_nat (length content)
       | Err _ => True
       end
    /\ rawSplit fuel w path s rmAfter fs0
       = Some match r with
              | Err e => (Err e, fs st, out st)
              | Ok _ =>
                  if rmAfter then
                    if Remove_fails w path then (Err ErrRemove, fs st, out st)
                    else (Ok tt, delete path (fs st),
                          out st ++ [RemovedOriginal path;
                                     DoneRawSplit (path +:+ ".part-")])
                  else (Ok tt, fs st,
                        out st ++ [DoneRawSplit (path +:+ ".part-")])
              end.
Proof.
  intros Hsize Hpos Hopen Hfile Hstat Hne Hfuel Hlen.
  pose proof (parseSize_range w s partSize Hsize) as Hrange.
  assert (0 < Z.of_nat (length content)) as Htot
    by (destruct content; [done|cbn [length]; lia]).
  destruct (splitLoop_any w path content partSize ltac:(lia) Hlen fuel 0%nat
              (SplitState fs0 0 0 0 []))
    as (r & st & sizes & Hloop & Hfs & Hout & Hsz & Hle & Hr);
    [cbn [offset]; lia|done|cbn [offset]; lia|cbn [offset]; lia|].
  cbn [fs out offset] in *. exists r, st, sizes.
  split; [done|]. split; [done|]. split; [done|]. split; [lia|].
  split; [destruct r; [lia|done]|].
  unfold rawSplit. rewrite Hsize.
  destruct (Z.leb_spec partSize 0); [lia|].
  rewrite Hopen, Hfile, Hstat. cbv zeta.
  destruct (Z.eqb_spec (Z.of_nat (length content)) 0); [lia|].
  change (Z.of_nat 0) with 0 in Hloop. rewrite Hloop.
  destruct r as [[]|e]; [|done]. destruct rmAfter; [|done].
  by destruct (Remove_fails w path).
Qed.


Lemma part_lines_events path i sizes e :
  e ∈ part_lines path i sizes -> exists name c, e = SplitPart name c.
Proof.
  unfold part_lines. intros (j & c & -> & _)%elem_of_lookup_imap. by eexists _, _.
Qed.

(** The goal of a run that returns before anything is created. *)
Ltac untouched Hearly Hnil :=
  split; [done|split; [done|split;
    [intros _; by apply (Hearly _ True)|apply Hnil]]].

(** X6.  Whatever fails -- the size text, opening the file, creating a
    part, a read, a write, the removal -- [rawSplit] ends, changes no file
    other than the original and its parts, and leaves the original as it
    was unless the split succeeded and its removal was asked for. *)
Theorem rawSplit_keeps_original (fuel : nat) (w : world) (path s : string)
    (rmAfter : bool) (fs0 : gmap string (list Byte.byte)) :
  (forall content, fs0 !! path = Some content ->
     (length content < fuel)%nat /\ Z.of_nat (length content) < Int.two63) ->
  exists r fs' evs,
    rawSplit fuel w path s rmAfter fs0 = Some (r, fs', evs)
    /\ (forall q, q <> path -> (forall j, q <> partName path j) ->
          fs' !! q = fs0 !! q)
    /\ (r <> Ok tt \/ rmAfter = false ->
          fs' !! path = fs0 !! path /\ RemovedOriginal path ∉ evs)
    /\ (RemovedOriginal path ∈ evs -> fs' !! path = None).
Proof.
  intros Hfile.
  assert (forall (x : option (list Byte.byte)) (P : Prop),
            P -> x = x /\ RemovedOriginal path ∉ [])
    as Hearly by (intros x P _; split; [done|apply not_elem_of_nil]).
  assert (forall Q : Prop, RemovedOriginal path ∈ [] -> Q)
    as Hnil by (by intros Q ?%elem_of_nil).
  destruct (parseSize w s) as [partSize|e] eqn:Hsize.
  2:{ exists (Err e), fs0, []. unfold rawSplit. rewrite Hsize. untouched Hearly Hnil. }
  destruct (Z.leb_spec partSize 0) as [Hle|Hpos].
  { exists (Err ErrSizeNotPositive), fs0, []. unfold rawSplit. rewrite Hsize.
    destruct (Z.leb_spec partSize 0); [untouched Hearly Hnil|lia]. }
  destruct (if Open_fails w path then None else fs0 !! path)
    as [content|] eqn:Hopen.
  2:{ exists (Err ErrOpen), fs0, []. unfold rawSplit. rewrite Hsize.
      destruct (Z.leb_spec partSize 0); [lia|]. rewrite Hopen. untouched Hearly Hnil. }
  destruct (Open_fails w path) eqn:Hof; [done|].
  destruct (Stat_fails w path) eqn:Hstat.
  { exists (Err ErrStat), fs0, []. unfold rawSplit. rewrite Hsize.
    destruct (Z.leb_spec partSize 0); [lia|]. rewrite Hof, Hopen, Hstat. untouched Hearly Hnil. }
  destruct content as [|b content'] eqn:Hcontent.
  { exists (Ok tt), fs0, []. unfold rawSplit. rewrite Hsize.
    destruct (Z.leb_spec partSize 0); [lia|]. rewrite Hof, Hopen, Hstat. untouched Hearly Hnil. }
  rewrite <- Hcontent in *.
  destruct (Hfile content Hopen) as [Hfuel Hlen].
  destruct (rawSplit_run fuel w path s rmAfter fs0 content partSize)
    as (r & st & sizes & Hfs & Hout & _ & _ & _ & Hrun); try done.
  { by subst. }
  assert (fs st !! path = fs0 !! path) as Hpath.
  { apply Hfs. intros j. apply not_eq_sym, partName_not_path. }
  assert (RemovedOriginal path ∉ out st) as Hno.
  { rewrite Hout. intros (? & ? & ?)%part_lines_events. done. }
  rewrite Hrun.
  destruct r as [[]|e].
  2:{ eexists _, _, _. split; [reflexivity|]. split; [by auto|]. by split. }
  destruct rmAfter.
  - destruct (Remove_fails w path).
    + eexists _, _, _. split; [reflexivity|]. split; [by auto|]. by split.
    + eexists _, _, _. split; [reflexivity|].
      split; [intros q Hq Hj; rewrite lookup_delete_ne by done; by auto|].
      split; [by intros [?|?]|]. intros _. apply lookup_delete_eq.
  - eexists _, _, _. split; [reflexivity|]. split; [by auto|].
    split; [|intros [H|H]%elem_of_app; [done|]; exfalso; revert H; by absent].
    intros _. split; [done|]. by absent.
Qed.

(** X7.  The report of a split: one line for every part completed, in
    order from part 000, each with a size between 1 and the part size.  On
    success the sizes add up to the size of the file, and the lines are
    followed by the removal notice, if removal was asked for, and the
    closing message; on an error by nothing. *)
Theorem rawSplit_report (fuel : nat) (w : world) (path s : string)
    (rmAfter : bool) (fs0 : gmap string (list Byte.byte))
    (content : list Byte.byte) (partSize : Z) :
  parseSize w s = Ok partSize -> 0 < partSize ->
  Open_fails w path = false -> fs0 !! path = Some content ->
  Stat_fails w path = false -> content <> [] ->
  (length content < fuel)%nat -> Z.of_nat (length content) < Int.two63 ->
  exists r fs' evs sizes,
    rawSplit fuel w path s rmAfter fs0 = Some (r, fs', evs)
    /\ Forall (fun c => 0 < c <= partSize) sizes
    /\ sum_sizes sizes <= Z.of_nat (length content)
    /\ match r with
       | Ok _ =>
           sum_sizes sizes = Z.of_nat (length content)
           /\ evs = part_lines path 0 sizes
                    ++ (if rmAfter then [RemovedOriginal path] else [])
                    ++ [DoneRawSplit (path +:+ ".part-")]
       | Err _ => evs = part_lines path 0 sizes
       end.
Proof.
  intros Hsize Hpos Hopen Hfile Hstat Hne Hfuel Hlen.
  destruct (rawSplit_run fuel w path s rmAfter fs0 content partSize)
    as (r & st & sizes & _ & Hout & Hsz & Hle & Hsum & Hrun); try done.
  rewrite Hrun, Hout. destruct r as [[]|e].
  2:{ by eexists _, _, _, sizes. }
  destruct rmAfter; [destruct (Remove_fails w path)|];
    by eexists _, _, _, sizes.
Qed.

Lemma rawSplit_report_witness :
  let content := [Byte.x50; Byte.x4b; Byte.x03; Byte.x04; Byte.x14;
                  Byte.x00; Byte.x08; Byte.x00; Byte.x08; Byte.x00] in
  exists r fs' evs sizes,
    rawSplit 11 (sample_world [] None) "m.zip" "4" false
      {[ "m.zip" := content ]} = Some (r, fs', evs)
    /\ Forall (fun c => 0 < c <= 4) sizes
    /\ sum_sizes sizes <= 10
    /\ match r with
       | Ok _ =>
           sum_sizes sizes = 10
           /\ evs = part_lines "m.zip" 0 sizes ++ []
                    ++ [DoneRawSplit "m.zip.part-"]
       | Err _ => evs = part_lines "m.zip" 0 sizes
       end.
Proof.
  intros content.
  apply (rawSplit_report 11 (sample_world [] None) "m.zip" "4" false
           {[ "m.zip" := content ]} content 4).
  - vm_compute. reflexivity.
  - reflexivity.
  - reflexivity.
  - apply lookup_singleton_eq.
  - reflexivity.
  - discriminate.
  - cbn. lia.
  - vm_compute. reflexivity.
Defined.

Lemma rawSplit_keeps_original_witness :
  let content := [Byte.x50; Byte.x4b; Byte.x03; Byte.x04; Byte.x14;
                  Byte.x00; Byte.x08; Byte.x00; Byte.x08; Byte.x00] in
  rawSplit 11 part_failure_world "m.zip" "4" true {[ "m.zip" := content ]}
  = Some (Err ErrCreate,
          {[ "m.zip" := content;
             "m.zip.part-000" := [Byte.x50; Byte.x4b; Byte.x03; Byte.x04] ]},
          [SplitPart "m.zip.part-000" 4])
  /\ exists r fs' evs,
       rawSplit 11 part_failure_world "m.zip" "4" true {[ "m.zip" := content ]}
       = Some (r, fs', evs)
       /\ (forall q, q <> "m.zip" -> (forall j, q <> partName "m.zip" j) ->
             fs' !! q = ({[ "m.zip" := content ]} : gmap _ _) !! q)
       /\ (r <> Ok tt \/ true = false ->
             fs' !! "m.zip" = ({[ "m.zip" := content ]} : gmap _ _) !! "m.zip"
             /\ RemovedOriginal "m.zip" ∉ evs)
       /\ (RemovedOriginal "m.zip" ∈ evs -> fs' !! "m.zip" = None).
Proof.
  intros content. split; [vm_compute; reflexivity|].
  apply (rawSplit_keeps_original 11 part_failure_world "m.zip" "4" true
           {[ "m.zip" := content ]}).
  intros c Hc. rewrite lookup_singleton_eq in Hc. injection Hc as <-.
  split; [cbn; lia|vm_compute; reflexivity].
Defined.

(** ** The entries of the output *)

Lemma mapTargets_app p l1 : forall l2 d,
  mapTargets p (l1 ++ l2) d
  = mapTargets p l1 d ++ mapTargets p l2 (dedup_from p l1 d).
Proof.
  induction l1 as [|[z i] l1 IH]; intros l2 d; [done|].
  cbn [app mapTargets dedup_from fold_left fst snd].
  destruct (mapTargetName p z i d) as [t d'] eqn:Hm. cbn [snd app].
  f_equal. apply IH.
Qed.

Lemma dedup_from_app p l1 l2 d :
  dedup_from p (l1 ++ l2) d = dedup_from p l2 (dedup_from p l1 d).
Proof. apply fold_left_app. Qed.

Lemma header_targets_app a b :
  header_targets (a ++ b) = header_targets a ++ header_targets b.
Proof. apply omap_app. Qed.

Lemma created_app a b : created (a ++ b) = created a ++ created b.
Proof. apply omap_app. Qed.

(** The copy loop of one entry asks for no header and leaves the table
    alone. *)
Lemma printZipProgress_headers a b c d s :
  dedup (printZipProgress a b c d s) = dedup s
  /\ exists evs, log (printZipProgress a b c d s) = log s ++ evs
       /\ header_targets evs = [] /\ created evs = [].
Proof.
  unfold printZipProgress. cbv zeta. destruct (_ || _).
  - split; [done|]. by eexists [_].
  - split; [done|]. exists []. by rewrite app_nil_r.
Qed.

Lemma copyLoop_headers z i tz ot rs : forall s,
  dedup (state_of (copyLoop z i tz ot rs s)) = dedup s
  /\ exists evs, log (state_of (copyLoop z i tz ot rs s)) = log s ++ evs
       /\ header_targets evs = [] /\ created evs = [].
Proof.
  induction rs as [|r rest IH]; intros s; cbn [copyLoop].
  { split; [done|]. exists []. by rewrite app_nil_r. }
  cbv zeta. destruct (0 <? rd_n r).
  - destruct (wr_fails r).
    { split; [done|]. by exists [WriteFailed; Flush]. }
    set (s1 := State _ _ _ _ _ _).
    destruct (printZipProgress_headers
                (Int.u64 (doneZip s + Int.u64 (rd_n r))) tz
                (Int.u64 (overallDone s + Int.u64 (rd_n r))) ot s1)
      as (Hd1 & evs1 & Hl1 & Hh1 & Hc1).
    set (s2 := printZipProgress _ _ _ _ s1) in *.
    assert (log s2 = log s ++ (Wrote (rd_n r) :: evs1)) as Hl2.
    { rewrite Hl1. subst s1. cbn [log]. by rewrite <- app_assoc. }
    assert (header_targets (Wrote (rd_n r) :: evs1) = []) as Hh2 by exact Hh1.
    assert (created (Wrote (rd_n r) :: evs1) = []) as Hc2 by exact Hc1.
    destruct (rd_err r) as [[|]|]; cbn [state_of].
    + split; [done|]. by exists (Wrote (rd_n r) :: evs1).
    + split; [done|]. exists ((Wrote (rd_n r) :: evs1) ++ [WarnRead z i]).
      unfold emit. cbn [log]. rewrite Hl2, <- app_assoc.
      split; [done|]. by rewrite header_targets_app, created_app, Hh2, Hc2.
    + destruct (IH s2) as (Hd & evs & Hl & Hh & Hc).
      split; [by rewrite Hd|].
      exists ((Wrote (rd_n r) :: evs1) ++ evs).
      rewrite Hl, Hl2, <- app_assoc. split; [done|].
      by rewrite header_targets_app, created_app, Hh2, Hc2, Hh, Hc.
  - destruct (rd_err r) as [[|]|]; cbn [state_of].
    + split; [done|]. exists []. by rewrite app_nil_r.
    + split; [done|]. by exists [WarnRead z i].
    + apply IH.
Qed.

Lemma entry_of_cons z f files x : entry_of z files x -> entry_of z (f :: files) x.
Proof.
  intros (Hz & g & Hg & H). split; [done|]. exists g. split; [|done].
  by apply list_elem_of_further.
Qed.

Lemma entryLoop_headers opt z tz ot files : forall s,
  let p := prefixByZip opt in
  let r := entryLoop opt z tz ot files s in
  exists evs,
    log (state_of r) = log s ++ evs
    /\ Forall (entry_of z files) (created evs)
    /\ header_targets evs `prefix_of`
         mapTargets p (archive_inputs z files) (dedup s)
    /\ (forall s', r = Next s' ->
          header_targets evs = mapTargets p (archive_inputs z files) (dedup s)
          /\ dedup s' = dedup_from p (archive_inputs z files) (dedup s)).
Proof.
  induction files as [|f rest IH]; intros s p r; subst r; cbn [entryLoop].
  { exists []. rewrite app_nil_r. split; [done|]. split; [constructor|].
    split; [done|]. by intros s' [= <-]. }
  assert (forall s0 evs0,
            log s0 = log s ++ evs0 ->
            created evs0 = [] -> header_targets evs0 = [] ->
            dedup s0 = dedup s ->
            archive_inputs z (f :: rest) = archive_inputs z rest ->
            let r := entryLoop opt z tz ot rest s0 in
            exists evs,
              log (state_of r) = log s ++ evs
              /\ Forall (entry_of z (f :: rest)) (created evs)
              /\ header_targets evs `prefix_of`
                   mapTargets p (archive_inputs z (f :: rest)) (dedup s)
              /\ (forall s', r = Next s' ->
                    header_targets evs
                    = mapTargets p (archive_inputs z (f :: rest)) (dedup s)
                    /\ dedup s'
                       = dedup_from p (archive_inputs z (f :: rest)) (dedup s)))
    as Hpass.
  { intros s0 evs0 Hl0 Hc0 Hh0 Hd0 Hin. cbv zeta.
    destruct (IH s0) as (evs & Hl & Hc & Hpre & Hnext).
    exists (evs0 ++ evs). rewrite Hl, Hl0, <- app_assoc.
    rewrite created_app, header_targets_app, Hc0, Hh0, Hin, <- Hd0.
    split; [done|]. split; [|by split].
    eapply Forall_impl; [exact Hc|]. intros x. apply entry_of_cons. }
  destruct (IsDir f) eqn:Hdir.
  { apply (Hpass s []); try done; [by rewrite app_nil_r|].
    unfold archive_inputs, wanted. cbn [List.filter]. by rewrite Hdir. }
  destruct (shouldSkipPath (Name f)) eqn:Hskip.
  { apply (Hpass s []); try done; [by rewrite app_nil_r|].
    unfold archive_inputs, wanted. cbn [List.filter]. by rewrite Hdir, Hskip. }
  clear Hpass.
  assert (archive_inputs z (f :: rest) = (z, Name f) :: archive_inputs z rest)
    as Hin.
  { unfold archive_inputs, wanted. cbn [List.filter]. by rewrite Hdir, Hskip. }
  rewrite Hin. cbn [mapTargets dedup_from fold_left fst snd].
  fold (dedup_from p (archive_inputs z rest)).
  fold p. destruct (mapTargetName p z (Name f) (dedup s)) as [t d'] eqn:Hm.
  cbn [snd]. cbv zeta. set (s1 := State _ _ _ _ _ (log s)).
  change (filepath.ToSlash t) with t.
  assert (forall s0 evs0,
            log s0 = log s ++ evs0 -> dedup s0 = d' ->
            header_targets evs0 = [t] ->
            Forall (entry_of z (f :: rest)) (created evs0) ->
            let r := entryLoop opt z tz ot rest s0 in
            exists evs,
              log (state_of r) = log s ++ evs
              /\ Forall (entry_of z (f :: rest)) (created evs)
              /\ header_targets evs `prefix_of`
                   t :: mapTargets p (archive_inputs z rest) d'
              /\ (forall s', r = Next s' ->
                    header_targets evs
                    = t :: mapTargets p (archive_inputs z rest) d'
                    /\ dedup s' = dedup_from p (archive_inputs z rest) d'))
    as Hgo.
  { intros s0 evs0 Hl0 Hd0 Hh0 Hc0. cbv zeta.
    destruct (IH s0) as (evs & Hl & Hc & Hpre & Hnext).
    exists (evs0 ++ evs). rewrite Hl, Hl0, <- app_assoc.
    rewrite created_app, header_targets_app, Hh0. rewrite Hd0 in *.
    split; [done|]. split.
    { apply Forall_app. split; [done|].
      eapply Forall_impl; [exact Hc|]. intros x. apply entry_of_cons. }
    split; [by apply prefix_cons|].
    intros s' Hs'. destruct (Hnext s' Hs') as [-> ->]. done. }
  destruct (createHeader_fails f) eqn:Hhdr.
  { by apply (Hgo _ [WarnHeader t]). }
  assert (entry_of z (f :: rest) (z, Name f, t)) as Hentry.
  { split; [done|]. exists f. split; [apply list_elem_of_here|done]. }
  destruct (open_fails f).
  { apply (Hgo _ [EntryHeader z (Name f) t; WarnOpenEntry z (Name f)]);
      try done.
    - unfold emit. cbn [log]. by rewrite <- app_assoc.
    - by constructor. }
  set (s2 := emit [EntryHeader z (Name f) t] s1).
  destruct (copyLoop_headers z (Name f) tz ot (reads f) s2)
    as (Hd & evsc & Hlc & Hhc & Hcc).
  destruct (copyLoop z (Name f) tz ot (reads f) s2) as [s'|e s'];
    cbn [state_of] in *.
  - apply (Hgo _ (EntryHeader z (Name f) t :: evsc ++ [Flush])).
    + unfold emit. cbn [log]. rewrite Hlc. subst s2 s1. unfold emit.
      cbn [log]. by rewrite <- !app_assoc.
    + unfold emit. cbn [dedup]. rewrite Hd. reflexivity.
    + change (header_targets (EntryHeader z (Name f) t :: evsc ++ [Flush]))
        with (t :: header_targets (evsc ++ [Flush])).
      by rewrite header_targets_app, Hhc.
    + change (created (EntryHeader z (Name f) t :: evsc ++ [Flush]))
        with ((z, Name f, t) :: created (evsc ++ [Flush])).
      rewrite created_app, Hcc. by constructor.
  - exists (EntryHeader z (Name f) t :: evsc). split.
    { rewrite Hlc. subst s2 s1. unfold emit. cbn [log].
      by rewrite <- app_assoc. }
    change (header_targets (EntryHeader z (Name f) t :: evsc))
      with (t :: header_targets evsc).
    change (created (EntryHeader z (Name f) t :: evsc))
      with ((z, Name f, t) :: created evsc).
    rewrite Hhc, Hcc. split; [by constructor|].
    split; [apply prefix_cons, prefix_nil|done].
Qed.

Lemma job_entry_cons w opt name names x :
  job_entry w opt names x -> job_entry w opt (name :: names) x.
Proof. intros [Hin H]. split; [by apply list_elem_of_further|done]. Qed.

Lemma zipLoop_headers w opt ot names : forall zipTotals s,
  length zipTotals = length names ->
  let p := prefixByZip opt in
  let r := zipLoop w opt ot names zipTotals s in
  exists evs,
    log (state_of r) = log s ++ evs
    /\ Forall (job_entry w opt names) (created evs)
    /\ header_targets evs `prefix_of`
         mapTargets p (job_inputs w opt names) (dedup s)
    /\ (forall s', r = Next s' ->
          header_targets evs = mapTargets p (job_inputs w opt names) (dedup s)).
Proof.
  induction names as [|name names' IH]; intros zipTotals s Hlen p r; subst r.
  { exists []. rewrite app_nil_r. destruct zipTotals; by repeat split. }
  destruct zipTotals as [|tz zt']; [done|]. injection Hlen as Hlen.
  cbn [zipLoop job_inputs flat_map].
  fold (job_inputs w opt names').
  destruct (OpenReader w 2 (filepath.Join [inputDir opt; name]))
    as [zr|] eqn:Hopen.
  2:{ destruct (IH zt' (emit [WarnOpenZip name] s) Hlen)
        as (evs & Hl & Hc & Hpre & Hnext).
      exists (WarnOpenZip name :: evs). rewrite Hl.
      unfold emit in *. cbn [log dedup] in *.
      rewrite <- app_assoc. split; [done|]. split; [|by split].
      eapply (Forall_impl _ _ _ Hc). intros x. apply job_entry_cons. }
  cbv zeta. set (s1 := State _ _ _ _ _ (log s)).
  destruct (entryLoop_headers opt name tz ot zr s1)
    as (evse & Hle & Hce & Hpree & Hnexte).
  fold p in Hpree, Hnexte. rewrite mapTargets_app.
  assert (Forall (job_entry w opt (name :: names')) (created evse)) as Hce'.
  { eapply (Forall_impl _ _ _ Hce). intros x Hx. split.
    - destruct Hx as [-> _]. apply list_elem_of_here.
    - exists zr. destruct Hx as [Hz Hx]. rewrite Hz. by repeat split. }
  destruct (entryLoop opt name tz ot zr s1) as [s'|e s'] eqn:Hrun;
    cbn [state_of] in *.
  2:{ exists evse. split; [done|]. split; [done|].
      split; [by apply prefix_app_r|done]. }
  destruct (Hnexte s' eq_refl) as [Hheq Hdeq].
  destruct (printZipProgress_headers tz tz (overallDone s') ot s')
    as (Hdp & evsp & Hlp & Hhp & Hcp).
  set (s2 := emit [Newline] (printZipProgress tz tz (overallDone s') ot s')).
  destruct (IH zt' s2 Hlen) as (evs & Hl & Hc & Hpre & Hnext).
  assert (dedup s2 = dedup_from p (archive_inputs name zr) (dedup s)) as Hd2.
  { subst s2. unfold emit. cbn [dedup]. by rewrite Hdp, Hdeq. }
  assert (log s2 = log s ++ evse ++ evsp ++ [Newline]) as Hl2.
  { subst s2. unfold emit. cbn [log]. rewrite Hlp, Hle. subst s1. cbn [log].
    by rewrite <- !app_assoc. }
  exists ((evse ++ evsp ++ [Newline]) ++ evs).
  rewrite Hl, Hl2, <- !app_assoc. split; [done|].
  rewrite !created_app, !header_targets_app, Hhp, Hcp, Hheq.
  rewrite Hd2 in *. fold p in Hpre, Hnext. cbn [app]. split.
  { apply Forall_app. split; [done|].
    eapply (Forall_impl _ _ _ Hc). intros x. apply job_entry_cons. }
  split; [by apply prefix_app|].
  intros s'' Hs''. by rewrite (Hnext s'' Hs'').
Qed.

(** How [mergeZIP] returns: what it appends to the log of the archive
    loop names no entry, and success needs a loop that fell through. *)
Lemma finishJob_log w opt r :
  exists tail,
    (finishJob w opt r).2 = log (state_of r) ++ tail
    /\ created tail = [] /\ header_targets tail = []
    /\ (forall p, (finishJob w opt r).1 = Ok p -> exists s', r = Next s').
Proof.
  destruct r as [s'|e s']; cbn [finishJob state_of].
  2:{ exists deferred. by repeat split. }
  destruct (zwClose_fails w); [by eexists|].
  destruct (outFileClose_fails w); [by eexists|].
  eexists. repeat split; try done. by exists s'.
Qed.

Lemma created_warnings evs : Forall only_warning evs -> created evs = [].
Proof.
  induction 1 as [|e evs He _ IH]; [done|]. by destruct e.
Qed.

Lemma header_targets_warnings evs :
  Forall only_warning evs -> header_targets evs = [].
Proof.
  induction 1 as [|e evs He _ IH]; [done|]. by destruct e.
Qed.

(** The log of a job that reached the archive loop, as far as headers
    go. *)
Lemma mergeZIP_headers w opt names :
  listZipFiles w (inputDir opt) (filterGlob opt) = Ok names ->
  Forall (job_entry w opt names) (created (mergeZIP w opt).2)
  /\ header_targets (mergeZIP w opt).2 `prefix_of`
       mapTargets (prefixByZip opt) (job_inputs w opt names) ∅
  /\ (forall p, (mergeZIP w opt).1 = Ok p ->
        header_targets (mergeZIP w opt).2
        = mapTargets (prefixByZip opt) (job_inputs w opt names) ∅).
Proof.
  intros Hls.
  destruct (MkdirAll_fails w (outDir opt)) eqn:Hmk.
  { unfold mergeZIP. rewrite Hmk. cbn. split; [constructor|].
    split; [apply prefix_nil|done]. }
  destruct names as [|n0 names'] eqn:Hn.
  { unfold mergeZIP. rewrite Hmk, Hls. cbn. split; [constructor|].
    split; [apply prefix_nil|done]. }
  rewrite <- Hn in *.
  rewrite (mergeZIP_reaches_gate w opt names Hmk Hls) by (by subst).
  cbv zeta. pose proof (totalsPass_warnings w (inputDir opt) names 0) as Hw.
  fold (scanWarnings w opt names) in Hw.
  pose proof (created_warnings _ Hw) as Hcw.
  pose proof (header_targets_warnings _ Hw) as Hhw.
  destruct (_ && _).
  { cbn [fst snd]. rewrite Hcw, Hhw. split; [constructor|].
    split; [apply prefix_nil|done]. }
  destruct (Create_fails w _).
  { cbn [fst snd]. rewrite Hcw, Hhw. split; [constructor|].
    split; [apply prefix_nil|done]. }
  destruct (copyBuffer_panics w (chunkMB opt)).
  { cbn [fst snd]. rewrite !created_app, !header_targets_app, Hcw, Hhw.
    split; [constructor|]. split; [apply prefix_nil|done]. }
  set (s0 := State _ _ _ _ _ _).
  destruct (zipLoop_headers w opt (scanTotal w opt names) names
              (totalsPass w (inputDir opt) names 0).1.1 s0)
    as (evs & Hl & Hc & Hpre & Hnext).
  { apply totalsPass_length. }
  destruct (finishJob_log w opt
              (zipLoop w opt (scanTotal w opt names) names
                 (totalsPass w (inputDir opt) names 0).1.1 s0))
    as (tail & Hfin & Hct & Hht & Hok).
  rewrite Hfin, Hl. subst s0. cbn [log dedup] in *.
  rewrite !created_app, !header_targets_app, Hcw, Hhw, Hct, Hht.
  cbn [created header_targets omap app]. rewrite !app_nil_r.
  split; [done|]. split; [done|].
  intros p Hp. destruct (Hok p Hp) as (s' & Hs'). by apply (Hnext s').
Qed.

(** X8.  The names for which [mergeZIP] asks the archive writer for a
    header are the deduplicator's targets, from an empty table, over the
    wanted entries of the archives that open for copying, in listing and
    archive order: all of them when the job succeeds, a first part of them
    when it fails.  Sizes, read results and progress have no part in
    them. *)
Theorem mergeZIP_header_targets (w : world) (opt : options)
    (names : list string) :
  listZipFiles w (inputDir opt) (filterGlob opt) = Ok names ->
  header_targets (mergeZIP w opt).2 `prefix_of`
    mapTargets (prefixByZip opt) (job_inputs w opt names) ∅
  /\ (forall p, (mergeZIP w opt).1 = Ok p ->
        header_targets (mergeZIP w opt).2
        = mapTargets (prefixByZip opt) (job_inputs w opt names) ∅).
Proof.
  intros Hls. destruct (mergeZIP_headers w opt names Hls) as (_ & Hpre & Heq).
  by split.
Qed.

Lemma mergeZIP_header_targets_witness :
  header_targets
    (mergeZIP two_archives_world (sample_options false false)).2
  = ["docs/a.txt"; "docs/a__dup1.txt"]
  /\ job_inputs two_archives_world (sample_options false false)
       ["a.zip"; "b.zip"]
     = [("a.zip", "docs/a.txt"); ("b.zip", "docs/a.txt")].
Proof.
  split; [|reflexivity].
  destruct (mergeZIP_header_targets two_archives_world
              (sample_options false false) ["a.zip"; "b.zip"] eq_refl)
    as [_ Heq].
  rewrite (Heq "in_output/merged.zip"); [reflexivity|].
  vm_compute. reflexivity.
Defined.

(** X9.  Every entry of the output comes from an archive of the listing
    that opened for copying, and there from an entry that is not a
    directory, is not excluded by [shouldSkipPath], and whose header the
    archive writer accepted. *)
Theorem mergeZIP_created_entries (w : world) (opt : options)
    (x : string * string * string) :
  x ∈ created (mergeZIP w opt).2 ->
  exists names,
    listZipFiles w (inputDir opt) (filterGlob opt) = Ok names
    /\ job_entry w opt names x.
Proof.
  intros Hx.
  destruct (listZipFiles w (inputDir opt) (filterGlob opt)) as [names|e] eqn:Hls.
  - exists names. split; [done|].
    destruct (mergeZIP_headers w opt names Hls) as (Hall & _).
    rewrite Forall_forall in Hall. by apply Hall.
  - exfalso. revert Hx. unfold mergeZIP. rewrite Hls.
    destruct (MkdirAll_fails w (outDir opt)); cbn; apply not_elem_of_nil.
Qed.

Lemma mergeZIP_created_entries_witness :
  exists names,
    listZipFiles two_archives_world "in" "*.zip" = Ok names
    /\ job_entry two_archives_world (sample_options false false) names
         ("b.zip", "docs/a.txt", "docs/a__dup1.txt").
Proof.
  apply (mergeZIP_created_entries two_archives_world
           (sample_options false false)).
  vm_compute. apply list_elem_of_further, list_elem_of_here.
Defined.

(** ** The output file *)


(** *** A listing of archives that cannot be opened *)

Lemma totalsPass_unreadable w dir names total :
  (forall name, name ∈ names -> OpenReader w 0 (filepath.Join [dir; name]) = None) ->
  totalsPass w dir names total
  = (map (fun _ => 0) names, total, map WarnOpenZip names).
Proof.
  induction names as [|name rest IH]; intros Hno; [done|].
  cbn [totalsPass]. rewrite (Hno name) by apply list_elem_of_here.
  rewrite IH; [done|]. intros n Hn. apply Hno. by apply list_elem_of_further.
Qed.

Lemma compressedPass_unreadable w dir names total :
  (forall name, name ∈ names -> OpenReader w 1 (filepath.Join [dir; name]) = None) ->
  compressedPass w dir names total = total.
Proof.
  induction names as [|name rest IH]; intros Hno; [done|].
  cbn [compressedPass]. rewrite (Hno name) by apply list_elem_of_here.
  apply IH. intros n Hn. apply Hno. by apply list_elem_of_further.
Qed.

Lemma zipLoop_unreadable w opt ot names : forall s,
  (forall name, name ∈ names ->
     OpenReader w 2 (filepath.Join [inputDir opt; name]) = None) ->
  zipLoop w opt ot names (map (fun _ => 0) names) s
  = Next (emit (map WarnOpenZip names) s).
Proof.
  induction names as [|name rest IH]; intros s Hno.
  { unfold emit. cbn. rewrite app_nil_r. by destruct s. }
  cbn [zipLoop map]. rewrite (Hno name) by apply list_elem_of_here.
  rewrite IH by (intros n Hn; apply Hno; by apply list_elem_of_further).
  unfold emit. cbn [log overallDone dedup doneZip lastZipPct lastAllPct].
  by rewrite <- app_assoc.
Qed.

Lemma diskNeed_nothing w st : diskNeed w st 0 0 = 0.
Proof. by destruct st. Qed.

Lemma freeBytesOf_nonneg w dir : 0 <= freeBytesOf w dir.
Proof.
  unfold freeBytesOf. destruct (negb _); [|done].
  destruct (Statfs w dir) as [[a b]|]; [|done]. apply u64_range.
Qed.

(** X11.  When none of the listed archives can be opened, the job does
    not fail for that: each archive is reported twice, once by the scan and
    once by the copy, in between the output file is created and the copy
    buffer allocated, and [mergeZIP] finalises an archive without entries
    and returns its path. *)
Theorem mergeZIP_no_archive_opens (w : world) (opt : options)
    (names : list string) :
  MkdirAll_fails w (outDir opt) = false ->
  listZipFiles w (inputDir opt) (filterGlob opt) = Ok names ->
  names <> [] ->
  (forall k name, name ∈ names ->
     OpenReader w k (filepath.Join [inputDir opt; name]) = None) ->
  Create_fails w (outPathOf opt) = false ->
  copyBuffer_panics w (chunkMB opt) = false ->
  zwClose_fails w = false ->
  outFileClose_fails w = false ->
  mergeZIP w opt
  = (Ok (outPathOf opt),
     map WarnOpenZip names ++ [CreateFile (outPathOf opt)]
       ++ map WarnOpenZip names
       ++ [CloseZip; CloseFile; Done (outPathOf opt); CloseZip; CloseFile]).
Proof.
  intros Hmk Hls Hne Hno Hcr Hbuf Hzw Hof.
  rewrite (mergeZIP_reaches_gate w opt names Hmk Hls Hne). cbv zeta.
  unfold neededBytes, scanTotal, scanWarnings.
  rewrite totalsPass_unreadable by (intros; by apply Hno).
  rewrite compressedPass_unreadable by (intros; by apply Hno).
  cbn [fst snd]. rewrite diskNeed_nothing.
  pose proof (freeBytesOf_nonneg w (outDir opt)).
  destruct (Z.ltb_spec (freeBytesOf w (outDir opt)) 0); [lia|].
  rewrite andb_false_r, Hcr, Hbuf.
  rewrite zipLoop_unreadable by (intros; by apply Hno).
  cbn [finishJob]. rewrite Hzw, Hof. unfold emit. cbn [log].
  by rewrite <- !app_assoc.
Qed.

Lemma mergeZIP_no_archive_opens_witness :
  mergeZIP unreadable_world (sample_options true false)
  = (Ok "in_output/merged.zip",
     [WarnOpenZip "a.zip"; WarnOpenZip "b.zip";
      CreateFile "in_output/merged.zip";
      WarnOpenZip "a.zip"; WarnOpenZip "b.zip";
      CloseZip; CloseFile; Done "in_output/merged.zip"; CloseZip; CloseFile]).
Proof.
  apply (mergeZIP_no_archive_opens unreadable_world
           (sample_options true false) ["a.zip"; "b.zip"]); try reflexivity.
  discriminate.
Defined.

(** ** The copy buffer *)



(** ** Byte counts and clock times *)

Lemma forallb_zrange (P : Z -> bool) n start x :
  forallb P (zrange n start) = true ->
  start <= x < start + Z.of_nat n -> P x = true.
Proof.
  intros Hall Hx. rewrite forallb_forall in Hall. apply Hall.
  apply zrange_In. lia.
Qed.

(** X15.  A whole number of units below 1024 is printed as that number
    with [.0] and the unit: bytes as [B], and whole multiples of 1024,
    1024^2, 1024^3 and 1024^4 as [KB], [MB], [GB] and [TB].  [TB] is the
    last unit: 1024 TB and more (checked up to 2047 TB) are printed in [TB]
    as well. *)
Theorem humanBytes_whole_units (k : Z) (j : nat) :
  (0 <= k < 1024 /\ j = 0%nat) \/ (1 <= k < 1024 /\ (j <= 4)%nat)
  \/ (1024 <= k < 2048 /\ j = 4%nat) ->
  humanBytes (k * 1024 ^ Z.of_nat j) = fmt_d k +:+ ".0 " +:+ unit_name j.
Proof.
  set (ok j k := String.eqb (humanBytes (k * 1024 ^ Z.of_nat j))
                            (fmt_d k +:+ ".0 " +:+ unit_name j)).
  assert (forallb (fun j => forallb (ok j) (zrange 1023 1)) (seq 0 5) = true)
    as Hunits by (vm_compute; reflexivity).
  assert (forallb (ok 4%nat) (zrange 1024 1024) = true)
    as Htb by (vm_compute; reflexivity).
  assert (ok 0%nat 0 = true) as Hzero by (vm_compute; reflexivity).
  intros H. apply String.eqb_eq. fold (ok j k).
  destruct H as [[Hk ->]|[[Hk Hj]|[Hk ->]]].
  - destruct (Z.eq_dec k 0) as [->|]; [exact Hzero|].
    rewrite forallb_forall in Hunits.
    specialize (Hunits 0%nat ltac:(apply in_seq; lia)).
    apply (forallb_zrange _ _ _ k Hunits).
    change (Z.of_nat 1023) with 1023. lia.
  - rewrite forallb_forall in Hunits.
    specialize (Hunits j ltac:(apply in_seq; lia)).
    apply (forallb_zrange _ _ _ k Hunits).
    change (Z.of_nat 1023) with 1023. lia.
  - apply (forallb_zrange _ _ _ k Htb).
    change (Z.of_nat 1024) with 1024. lia.
Qed.

Lemma humanBytes_whole_units_witness :
  humanBytes (10 * 1024 ^ 3) = "10.0 GB".
Proof.
  apply (humanBytes_whole_units 10 3). right. left. split; lia.
Defined.

(** X16.  The number printed can be [1024.0]: the 51 byte counts from
    1048525 to 1048575, just below 1024^2, are printed as [1024.0 KB], the
    1024 bytes of the next unit being reached only in the rounding of the
    fraction. *)
Theorem humanBytes_below_next_unit (n : Z) :
  1048525 <= n < 1048576 -> humanBytes n = "1024.0 KB".
Proof.
  intros Hn. apply String.eqb_eq.
  assert (forallb (fun n => String.eqb (humanBytes n) "1024.0 KB")
                  (zrange 51 1048525) = true) as Hall
    by (vm_compute; reflexivity).
  apply (forallb_zrange _ _ _ n Hall). change (Z.of_nat 51) with 51. lia.
Qed.

Lemma humanBytes_below_next_unit_witness :
  humanBytes 1048575 = "1024.0 KB".
Proof. apply humanBytes_below_next_unit. lia. Defined.

(** X17.  [fmtHMS] prints a negative duration as [00:00:00].  For a
    duration of less than 4096 seconds it prints the whole seconds as
    hours, minutes and seconds on two digits each, whether no nanosecond or
    999999999 nanoseconds follow them.  Hours are not limited to two
    digits: 100 hours are printed as [100:00:00]. *)
Theorem fmtHMS_fields :
  (forall d, d < 0 -> fmtHMS d = "00:00:00")
  /\ (forall s ns, 0 <= s < 4096 -> ns = 0 \/ ns = 999999999 ->
        fmtHMS (s * 1000000000 + ns) = hms s)
  /\ fmtHMS (360000 * 1000000000) = "100:00:00".
Proof.
  split; [|split].
  - intros d Hd. unfold fmtHMS.
    destruct (Z.ltb_spec d 0); [|lia]. vm_compute. reflexivity.
  - intros s ns Hs Hns.
    assert (forallb (fun s =>
                       (int_of_float (Seconds (s * 1000000000 + 0)) =? s)
                       && (int_of_float (Seconds (s * 1000000000 + 999999999))
                           =? s))
                    (zrange 4096 0) = true) as Hall
      by (vm_compute; reflexivity).
    pose proof (forallb_zrange _ _ _ s Hall) as H. cbv beta in H.
    destruct (andb_prop _ _ (H ltac:(change (Z.of_nat 4096) with 4096; lia)))
      as [H0%Z.eqb_eq H1%Z.eqb_eq].
    unfold fmtHMS, hms.
    destruct (Z.ltb_spec (s * 1000000000 + ns) 0); [lia|]. cbv zeta.
    assert (int_of_float (Seconds (s * 1000000000 + ns)) = s) as ->
      by (by destruct Hns as [-> | ->]).
    rewrite (Z.rem_mod_nonneg s 3600), (Z.rem_mod_nonneg s 60) by lia.
    assert (0 <= s mod 3600 < 3600) as Hm by (apply Z.mod_pos_bound; lia).
    rewrite (Z.quot_div_nonneg s 3600) by lia.
    rewrite (Z.quot_div_nonneg (s mod 3600) 60) by lia.
    assert (0 <= s / 3600 < 4096) as Hh
      by (split; [apply Z.div_pos; lia|apply Z.div_lt_upper_bound; lia]).
    assert (0 <= s mod 3600 / 60 < 4096) as Hmin
      by (split; [apply Z.div_pos; lia|apply Z.div_lt_upper_bound; lia]).
    rewrite (i64_small (s / 3600)) by (unfold Int.two63; lia).
    rewrite (i64_small (s mod 3600 / 60)) by (unfold Int.two63; lia).
    reflexivity.
  - vm_compute. reflexivity.
Qed.

(** ** Flags and exit codes *)













(** *** The options [mergeZIP] reads *)

Lemma entryLoop_prefixByZip opt opt' z tz ot files : forall s,
  prefixByZip opt = prefixByZip opt' ->
  entryLoop opt z tz ot files s = entryLoop opt' z tz ot files s.
Proof.
  intros s Hp. revert s.
  induction files as [|f rest IH]; intros s; cbn [entryLoop]; [done|].
  rewrite Hp. destruct (IsDir f); [apply IH|].
  destruct (shouldSkipPath (Name f)); [apply IH|].
  destruct (mapTargetName _ _ _ _) as [t d']. cbv zeta.
  destruct (createHeader_fails f); [apply IH|].
  destruct (open_fails f); [apply IH|].
  destruct (copyLoop _ _ _ _ _ _); [apply IH|done].
Qed.

Lemma zipLoop_options w opt opt' ot names : forall zt s,
  inputDir opt = inputDir opt' ->
  prefixByZip opt = prefixByZip opt' ->
  zipLoop w opt ot names zt s = zipLoop w opt' ot names zt s.
Proof.
  intros zt s Hi Hp. revert zt s.
  induction names as [|name rest IH]; intros zt s; cbn [zipLoop]; [done|].
  destruct zt as [|tz zt']; [done|]. rewrite Hi.
  destruct (OpenReader w 2 _); [|apply IH]. cbv zeta.
  rewrite (entryLoop_prefixByZip opt opt') by done.
  destruct (entryLoop _ _ _ _ _ _); [apply IH|done].
Qed.

Lemma mergeZIP_splitMode w m opt :
  mergeZIP w (with_splitMode m opt) = mergeZIP w opt.
Proof.
  unfold mergeZIP, with_splitMode at 1 2 3 4 5 6 7 8 9.
  cbn [inputDir outDir outBase filterGlob store].
  destruct (MkdirAll_fails w (outDir opt)); [done|].
  destruct (listZipFiles _ _ _) as [names|]; [|done].
  destruct (_ =? _)%nat; [done|].
  destruct (totalsPass _ _ _ _) as [[zt ot] warns].
  destruct (_ && _); [done|]. destruct (Create_fails _ _); [done|].
  cbn [chunkMB]. destruct (copyBuffer_panics _ _); [done|].
  by rewrite (zipLoop_options w (with_splitMode m opt) opt).
Qed.

(** X14.  The value of [-splitmode] decides one thing: whether the note
    that zip-split is not implemented is printed.  The exit code, the files
    written and everything else printed are the same for every value; the
    split is always the raw one. *)
Theorem main_splitMode_ignored (fuel : nat) (w : world) (flags : options)
    (fs1 : gmap string (list Byte.byte)) (m : string) :
  match main fuel w (with_splitMode m flags) fs1, main fuel w flags fs1 with
  | Some (code, outs, fs2), Some (code', outs', fs2') =>
      code = code' /\ fs2 = fs2' /\ without_note outs = without_note outs'
  | None, None => True
  | _, _ => False
  end.
Proof.
  assert (forall evs, without_note (map MergeEvent evs) = map MergeEvent evs)
    as Hme by (unfold without_note; induction evs as [|e evs IH]; [done|];
               cbn [map List.filter]; by rewrite IH).
  assert (forall evs, without_note (map SplitEvent evs) = map SplitEvent evs)
    as Hse by (unfold without_note; induction evs as [|e evs IH]; [done|];
               cbn [map List.filter]; by rewrite IH).
  assert (forall a b, without_note (a ++ b) = without_note a ++ without_note b)
    as Happ by (intros a b; apply List.filter_app).
  unfold main.
  assert (parseFlags w (with_splitMode m flags)
          = with_splitMode m <$> parseFlags w flags) as ->.
  { unfold parseFlags, with_splitMode at 1 2 3 4 5.
    cbn [outBase chunkMB outDir inputDir].
    by destruct (String.eqb (outBase flags) ""). }
  destruct (parseFlags w flags) as [opt|]; cbn [fmap option_fmap option_map];
    [|done].
  rewrite mergeZIP_splitMode.
  destruct (mergeZIP w opt) as [[p|e] evs]; [|by destruct e].
  cbn [splitSize splitMode rmAfterSplit with_splitMode].
  destruct (negb (String.eqb (splitSize opt) "")); [|done].
  cbv zeta.
  destruct (rawSplit fuel w p (splitSize opt) (rmAfterSplit opt) fs1)
    as [[[[[]|e] fs'] sevs]|]; [| |done].
  - split; [done|]. split; [done|]. rewrite !Happ, !Hme, !Hse.
    by do 2 destruct (negb (String.eqb _ "raw")).
  - split; [done|]. split; [done|]. rewrite !Happ, !Hme, !Hse.
    by do 2 destruct (negb (String.eqb _ "raw")).
Qed.

(** ** The status line on the screen *)

Lemma line_after_app line a b :
  line_after line (a ++ b) = line_after (line_after line a) b.
Proof.
  revert line. induction a as [|e a IH]; intros line; [done|].
  destruct e; cbn [app line_after]; apply IH.
Qed.

Lemma fresh_lines_app line a b :
  fresh_lines line (a ++ b)
  <-> fresh_lines line a /\ fresh_lines (line_after line a) b.
Proof.
  revert line. induction a as [|e a IH]; intros line.
  { cbn. tauto. }
  destruct e; cbn [app fresh_lines line_after]; rewrite ?IH; tauto.
Qed.

Lemma closed_lines_app line a b :
  closed_lines line (a ++ b)
  = closed_lines line a ++ closed_lines (line_after line a) b.
Proof.
  revert line. induction a as [|e a IH]; intros line; [done|].
  destruct e; cbn [app closed_lines line_after]; rewrite ?IH; done.
Qed.

Lemma quiet_line_after line evs :
  Forall quiet evs -> line_after line evs = line.
Proof. induction 1 as [|e evs He _ IH]; [done|]. by destruct e. Qed.

Lemma quiet_fresh_lines line evs : Forall quiet evs -> fresh_lines line evs.
Proof. induction 1 as [|e evs He _ IH]; [done|]. by destruct e. Qed.

Lemma quiet_closed_lines line evs : Forall quiet evs -> closed_lines line evs = [].
Proof. induction 1 as [|e evs He _ IH]; [done|]. by destruct e. Qed.

Lemma line_inv_quiet s evs :
  Forall quiet evs -> line_inv s -> line_inv (emit evs s).
Proof.
  intros Hq [Hf Hl]. unfold line_inv, emit. cbn [log lastZipPct lastAllPct].
  rewrite fresh_lines_app, line_after_app, (quiet_line_after _ _ Hq).
  split; [|done]. split; [done|]. by apply quiet_fresh_lines.
Qed.

Lemma percent_not_minus_one done total : percent done total <> -1.
Proof.
  unfold percent. destruct (Z.ltb_spec 0 total) as [Ht|Ht]; [|done].
  pose proof (u64_range (done * 100)) as Hu.
  assert (0 <= Int.u64 (done * 100) / total) as Hq
    by (apply Z.div_pos; lia).
  assert (Int.u64 (done * 100) / total < Int.two64) as Hq'.
  { apply Z.div_lt_upper_bound; [lia|]. unfold Int.two64 in *. nia. }
  unfold Int.i64.
  intros H.
  assert ((Int.u64 (done * 100) / total + Int.two63) mod Int.two64
          = Int.two63 - 1) as Hm by lia.
  clear H.
  destruct (Z.lt_ge_cases (Int.u64 (done * 100) / total) Int.two63) as [Hlt|Hge].
  - rewrite Z.mod_small in Hm by (unfold Int.two63, Int.two64 in *; lia). lia.
  - assert ((Int.u64 (done * 100) / total + Int.two63) mod Int.two64
            = Int.u64 (done * 100) / total - Int.two63) as Hm'.
    { symmetry. apply (Z.mod_unique _ _ 1);
        unfold Int.two63, Int.two64 in *; lia. }
    rewrite Hm' in Hm.
    assert (Int.u64 (done * 100) / total = Int.two64 - 1) as Hq2
      by (unfold Int.two63, Int.two64 in *; lia).
    assert (total = 1) as ->.
    { destruct (Z.eq_dec total 1); [done|].
      assert (Int.u64 (done * 100) / total <= Int.u64 (done * 100) / 2)
        by (apply Z.div_le_compat_l; lia).
      assert (Int.u64 (done * 100) / 2 < Int.two63).
      { apply Z.div_lt_upper_bound; unfold Int.two63, Int.two64 in *; lia. }
      unfold Int.two63, Int.two64 in *. lia. }
    rewrite Z.div_1_r in Hq2. unfold Int.u64 in Hq2.
    assert ((done * 100) mod 4 = 0) as H4.
    { replace (done * 100) with (done * 25 * 4) by lia. apply Z.mod_mul. lia. }
    assert (((done * 100) mod Int.two64) mod 4 = (done * 100) mod 4) as H5.
    { apply Z.mod_mod_divide. exists (2 ^ 62). by unfold Int.two64. }
    rewrite Hq2, H4 in H5. by vm_compute in H5.
Qed.

Ltac quiets :=
  repeat first [apply Forall_nil_2 | apply Forall_cons_2; [exact I|]].

(** The invariant depends on the log and the two variables only. *)
Lemma line_inv_ext s s' evs :
  log s' = log s ++ evs -> Forall quiet evs ->
  lastZipPct s' = lastZipPct s -> lastAllPct s' = lastAllPct s ->
  line_inv s -> line_inv s'.
Proof.
  intros Hl Hq Hz Ha [Hf Hline]. unfold line_inv. rewrite Hl, Hz, Ha.
  rewrite fresh_lines_app, line_after_app, (quiet_line_after _ _ Hq).
  split; [|done]. split; [done|]. by apply quiet_fresh_lines.
Qed.

Lemma printZipProgress_line done total od ot s :
  line_inv s ->
  line_inv (printZipProgress done total od ot s)
  /\ closed_lines None (log (printZipProgress done total od ot s))
     = closed_lines None (log s)
  /\ line_after None (log (printZipProgress done total od ot s))
     = Some (percent done total, percent od ot).
Proof.
  intros [Hf Hline]. unfold printZipProgress. cbv zeta.
  destruct (negb (percent done total =? lastZipPct s)
            || negb (percent od ot =? lastAllPct s)) eqn:Hchg.
  - unfold line_inv. cbn [log lastZipPct lastAllPct].
    rewrite fresh_lines_app, line_after_app, closed_lines_app.
    cbn [line_after fresh_lines closed_lines]. rewrite app_nil_r.
    split; [|done]. split; [|done]. split; [done|]. split; [|done].
    destruct (line_after None (log s)) as [[z a]|]; [|done].
    destruct Hline as [<- <-]. intros [= Hz Ha].
    rewrite Hz, Ha, !Z.eqb_refl in Hchg. done.
  - apply orb_false_elim in Hchg as [Hz Ha].
    apply negb_false_iff, Z.eqb_eq in Hz, Ha.
    split; [done|]. split; [done|].
    destruct (line_after None (log s)) as [[z a]|].
    + destruct Hline as [<- <-]. by rewrite Hz, Ha.
    + rewrite Hline in Hz. by apply percent_not_minus_one in Hz.
Qed.

Lemma copyLoop_line z i tz ot rs : forall s,
  line_inv s ->
  line_inv (state_of (copyLoop z i tz ot rs s))
  /\ closed_lines None (log (state_of (copyLoop z i tz ot rs s)))
     = closed_lines None (log s).
Proof.
  induction rs as [|r rest IH]; intros s Hs; cbn [copyLoop]; [done|].
  cbv zeta. destruct (0 <? rd_n r).
  - destruct (wr_fails r).
    { cbn [state_of]. split; [apply line_inv_quiet; [quiets|done]|].
      unfold emit. cbn [log]. rewrite closed_lines_app.
      cbn. apply app_nil_r. }
    set (s1 := State _ _ _ _ _ _).
    assert (line_inv s1) as Hs1
      by (apply (line_inv_ext s s1 [Wrote (rd_n r)]); [done|quiets|done..]).
    assert (closed_lines None (log s1) = closed_lines None (log s)) as Hc1.
    { subst s1. cbn [log]. rewrite closed_lines_app. cbn. apply app_nil_r. }
    destruct (printZipProgress_line
                (Int.u64 (doneZip s + Int.u64 (rd_n r))) tz
                (Int.u64 (overallDone s + Int.u64 (rd_n r))) ot s1 Hs1)
      as (Hs2 & Hc2 & _).
    set (s2 := printZipProgress _ _ _ _ s1) in *.
    destruct (rd_err r) as [[|]|]; cbn [state_of].
    + split; [done|]. by rewrite Hc2.
    + split; [apply line_inv_quiet; [quiets|done]|].
      unfold emit. cbn [log]. rewrite closed_lines_app, Hc2, Hc1.
      cbn. apply app_nil_r.
    + destruct (IH s2 Hs2) as [H1 H2]. split; [done|]. by rewrite H2, Hc2.
  - destruct (rd_err r) as [[|]|]; cbn [state_of].
    + done.
    + split; [apply line_inv_quiet; [quiets|done]|].
      unfold emit. cbn [log]. rewrite closed_lines_app. cbn. apply app_nil_r.
    + by apply IH.
Qed.

Lemma emit_quiet_line s evs :
  Forall quiet evs -> line_inv s ->
  line_inv (emit evs s)
  /\ closed_lines None (log (emit evs s)) = closed_lines None (log s).
Proof.
  intros Hq Hs. split; [by apply line_inv_quiet|].
  unfold emit. cbn [log]. rewrite closed_lines_app.
  rewrite (quiet_closed_lines _ _ Hq). apply app_nil_r.
Qed.

Lemma entryLoop_line opt z tz ot files : forall s,
  line_inv s ->
  line_inv (state_of (entryLoop opt z tz ot files s))
  /\ closed_lines None (log (state_of (entryLoop opt z tz ot files s)))
     = closed_lines None (log s).
Proof.
  induction files as [|f rest IH]; intros s Hs; cbn [entryLoop]; [done|].
  destruct (IsDir f); [by apply IH|].
  destruct (shouldSkipPath (Name f)); [by apply IH|].
  destruct (mapTargetName _ _ _ _) as [t d']. cbv zeta.
  set (s1 := State _ _ _ _ _ (log s)).
  assert (line_inv s1) as Hs1.
  { apply (line_inv_ext s s1 []); [by rewrite app_nil_r|quiets|done..]. }
  change (log s) with (log s1).
  destruct (createHeader_fails f).
  { destruct (emit_quiet_line s1 [WarnHeader (filepath.ToSlash t)])
      as [H1 H2]; [quiets|done|].
    destruct (IH _ H1) as [H3 H4]. split; [done|]. by rewrite H4. }
  destruct (emit_quiet_line s1 [EntryHeader z (Name f) (filepath.ToSlash t)])
    as [H1 H2]; [quiets|done|].
  set (s2 := emit [EntryHeader z (Name f) (filepath.ToSlash t)] s1) in *.
  destruct (open_fails f).
  { destruct (emit_quiet_line s2 [WarnOpenEntry z (Name f)])
      as [H3 H4]; [quiets|done|].
    destruct (IH _ H3) as [H5 H6]. split; [done|]. by rewrite H6, H4. }
  destruct (copyLoop_line z (Name f) tz ot (reads f) s2 H1) as [H3 H4].
  destruct (copyLoop _ _ _ _ _ _) as [s'|e s']; cbn [state_of] in *.
  - destruct (emit_quiet_line s' [Flush]) as [H5 H6]; [quiets|done|].
    destruct (IH _ H5) as [H7 H8].
    split; [done|]. by rewrite H8, H6, H4.
  - split; [done|]. by rewrite H4.
Qed.

Lemma zipLoop_line w opt ot names : forall zt s,
  fresh_lines None (log s) ->
  line_after None (log s) = None ->
  let r := zipLoop w opt ot names zt s in
  fresh_lines None (log (state_of r))
  /\ (forall s', r = Next s' -> line_after None (log s') = None)
  /\ exists lines,
       closed_lines None (log (state_of r)) = closed_lines None (log s) ++ lines
       /\ Forall (fun l => exists tz ap,
                    tz ∈ zt /\ l = Some (percent tz tz, ap)) lines
       /\ (length zt = length names -> forall s', r = Next s' ->
           length lines = length (List.filter (opensb w opt) names)).
Proof.
  induction names as [|name rest IH]; intros zt s Hf Hl r; subst r.
  { cbn [zipLoop state_of]. split; [done|]. split; [by intros s' [= <-]|].
    exists []. rewrite app_nil_r. by repeat split. }
  destruct zt as [|tz zt'].
  { cbn [zipLoop state_of]. split; [done|]. split; [by intros s' [= <-]|].
    exists []. rewrite app_nil_r. by repeat split. }
  cbn [zipLoop List.filter]. unfold opensb at 1.
  destruct (OpenReader w 2 (filepath.Join [inputDir opt; name])) as [zr|].
  2:{ destruct (IH zt' (emit [WarnOpenZip name] s)) as (H1 & H2 & lines & H3 & H4 & H5).
      - unfold emit. cbn [log]. rewrite fresh_lines_app. by split.
      - unfold emit. cbn [log]. by rewrite line_after_app, Hl.
      - split; [done|]. split; [done|]. exists lines.
        split.
        { rewrite H3. unfold emit. cbn [log]. rewrite closed_lines_app.
          cbn. by rewrite app_nil_r. }
        split.
        { eapply Forall_impl; [exact H4|]. intros l (t & a & Ht & ->).
          exists t, a. split; [by apply list_elem_of_further|done]. }
        intros Hlen s' Hs'. apply (H5 ltac:(cbn in Hlen; lia) s' Hs'). }
  cbv zeta. set (s1 := State _ _ _ _ _ (log s)).
  assert (line_inv s1) as Hs1.
  { unfold line_inv. subst s1. cbn [log lastZipPct lastAllPct].
    by rewrite Hl. }
  destruct (entryLoop_line opt name tz ot zr s1 Hs1) as [He Hce].
  destruct (entryLoop opt name tz ot zr s1) as [s'|e s']; cbn [state_of] in *.
  2:{ split; [apply He|]. split; [done|]. exists []. rewrite app_nil_r.
      split; [done|]. by split. }
  destruct (printZipProgress_line tz tz (overallDone s') ot s' He)
    as (Hp & Hcp & Hlp).
  set (s2 := printZipProgress tz tz (overallDone s') ot s') in *.
  destruct (IH zt' (emit [Newline] s2)) as (H1 & H2 & lines & H3 & H4 & H5).
  { unfold emit. cbn [log]. rewrite fresh_lines_app. split; [apply Hp|done]. }
  { unfold emit. cbn [log]. by rewrite line_after_app. }
  split; [done|]. split; [done|].
  exists (Some (percent tz tz, percent (overallDone s') ot) :: lines).
  split.
  { rewrite H3. unfold emit. cbn [log]. rewrite closed_lines_app, Hcp, Hce, Hlp.
    subst s1. cbn [log closed_lines]. by rewrite <- app_assoc. }
  split.
  { constructor.
    - exists tz, (percent (overallDone s') ot). split; [apply list_elem_of_here|done].
    - eapply Forall_impl; [exact H4|]. intros l (t & a & Ht & ->).
      exists t, a. split; [by apply list_elem_of_further|done]. }
  intros Hlen s'' Hs''. cbn [length]. f_equal.
  apply (H5 ltac:(cbn in Hlen; lia) s'' Hs'').
Qed.

Lemma finishJob_quiet w opt r :
  exists tail, (finishJob w opt r).2 = log (state_of r) ++ tail
    /\ Forall quiet tail.
Proof.
  destruct r as [s'|e s']; cbn [finishJob state_of].
  2:{ exists deferred. split; [done|]. quiets. }
  destruct (zwClose_fails w); [eexists; split; [done|quiets]|].
  destruct (outFileClose_fails w); eexists; (split; [done|quiets]).
Qed.

Lemma warnings_quiet evs : Forall only_warning evs -> Forall quiet evs.
Proof. intros H. eapply Forall_impl; [exact H|]. by intros []. Qed.

(** X18.  The status line is redrawn only when it changes: no progress
    line of a job repeats the percentages of the line it overwrites. *)
Theorem mergeZIP_fresh_lines (w : world) (opt : options) :
  fresh_lines None (mergeZIP w opt).2.
Proof.
  destruct (mergeZIP_cases w opt)
    as [(e & warns & -> & _ & Hw)
       |[(warns & Hw & _ & ->)|(names & zt & warns & Hw & _ & ->)]].
  { by apply quiet_fresh_lines, warnings_quiet. }
  { apply quiet_fresh_lines, Forall_app.
    split; [by apply warnings_quiet|quiets]. }
  set (s0 := State _ _ _ _ _ _).
  assert (Forall quiet (log s0)) as Hq0.
  { subst s0. cbn [log]. apply Forall_app. split; [by apply warnings_quiet|quiets]. }
  destruct (zipLoop_line w opt (scanTotal w opt names) names zt s0)
    as (Hf & _); [by apply quiet_fresh_lines|by apply quiet_line_after|].
  destruct (finishJob_quiet w opt (zipLoop w opt (scanTotal w opt names) names zt s0))
    as (tail & -> & Htail).
  rewrite fresh_lines_app. split; [done|]. by apply quiet_fresh_lines.
Qed.

Lemma sumUncompressed_nonneg zr : 0 <= sumUncompressed zr.
Proof.
  unfold sumUncompressed.
  enough (forall acc, 0 <= acc ->
            0 <= fold_left (fun total f =>
                              if IsDir f then total
                              else Int.u64 (total + UncompressedSize64 f))
                           zr acc) as H by (by apply H).
  induction zr as [|f rest IH]; intros acc Hacc; [done|].
  cbn [fold_left]. apply IH. destruct (IsDir f); [done|apply u64_range].
Qed.

(** The per-archive totals of the scan: 0 for an archive that does not
    open, the sum of the declared sizes for one that does. *)
Lemma totalsPass_totals w dir names : forall total,
  Forall (fun tz =>
            tz = 0
            \/ exists name zr,
                 name ∈ names
                 /\ OpenReader w 0 (filepath.Join [dir; name]) = Some zr
                 /\ tz = sumUncompressed zr)
         (totalsPass w dir names total).1.1.
Proof.
  induction names as [|name rest IH]; intros total; [constructor|].
  cbn [totalsPass].
  destruct (OpenReader w 0 (filepath.Join [dir; name])) as [zr|] eqn:Hopen.
  - specialize (IH (Int.u64 (total + sumUncompressed zr))).
    destruct (totalsPass w dir rest _) as [[zt tot] warns]. cbn [fst] in *.
    constructor.
    + right. exists name, zr. split; [apply list_elem_of_here|done].
    + eapply Forall_impl; [exact IH|].
      intros tz [->|(n & z & Hn & Ho & ->)]; [by left|right].
      exists n, z. split; [by apply list_elem_of_further|done].
  - specialize (IH total).
    destruct (totalsPass w dir rest _) as [[zt tot] warns]. cbn [fst] in *.
    constructor; [by left|].
    eapply Forall_impl; [exact IH|].
    intros tz [->|(n & z & Hn & Ho & ->)]; [by left|right].
    exists n, z. split; [by apply list_elem_of_further|done].
Qed.

(** X19.  When the declared sizes of each archive add up to less than
    2^63 / 100 bytes, the status line of every archive that is copied to
    its end shows 100% for the archive when the newline is printed: whatever
    was copied of it, be its entries skipped, refused by the archive writer
    or cut short by a read failure.  A job that succeeds prints one such
    line for each archive that opened for copying. *)
Theorem mergeZIP_archive_lines (w : world) (opt : options)
    (names : list string) :
  listZipFiles w (inputDir opt) (filterGlob opt) = Ok names ->
  (forall name zr,
     name ∈ names ->
     OpenReader w 0 (filepath.Join [inputDir opt; name]) = Some zr ->
     sumUncompressed zr * 100 < Int.two63) ->
  Forall (fun l => exists ap, l = Some (100, ap))
         (closed_lines None (mergeZIP w opt).2)
  /\ (forall p, (mergeZIP w opt).1 = Ok p ->
        length (closed_lines None (mergeZIP w opt).2)
        = length (List.filter (opensb w opt) names)).
Proof.
  intros Hls Hsmall.
  destruct (MkdirAll_fails w (outDir opt)) eqn:Hmk.
  { unfold mergeZIP. rewrite Hmk. cbn. split; [constructor|done]. }
  destruct names as [|n0 names'] eqn:Hn.
  { unfold mergeZIP. rewrite Hmk, Hls. cbn. split; [constructor|done]. }
  rewrite <- Hn in *.
  rewrite (mergeZIP_reaches_gate w opt names Hmk Hls) by (by subst).
  cbv zeta. pose proof (totalsPass_warnings w (inputDir opt) names 0) as Hw.
  fold (scanWarnings w opt names) in Hw.
  pose proof (warnings_quiet _ Hw) as Hqw.
  destruct (_ && _).
  { cbn [fst snd]. rewrite (quiet_closed_lines _ _ Hqw).
    split; [constructor|done]. }
  destruct (Create_fails w _).
  { cbn [fst snd]. rewrite (quiet_closed_lines _ _ Hqw).
    split; [constructor|done]. }
  destruct (copyBuffer_panics w (chunkMB opt)).
  { cbn [fst snd]. rewrite quiet_closed_lines; [split; [constructor|done]|].
    apply Forall_app. split; [done|quiets]. }
  set (zt := (totalsPass w (inputDir opt) names 0).1.1).
  set (s0 := State _ _ _ _ _ _).
  assert (Forall quiet (log s0)) as Hq0.
  { subst s0. cbn [log]. apply Forall_app. split; [done|quiets]. }
  destruct (zipLoop_line w opt (scanTotal w opt names) names zt s0)
    as (_ & _ & lines & Hcl & Hlines & Hcount);
    [by apply quiet_fresh_lines|by apply quiet_line_after|].
  set (r := zipLoop w opt (scanTotal w opt names) names zt s0) in *.
  destruct (finishJob_quiet w opt r) as (tail & Hfin & Htail).
  rewrite Hfin, closed_lines_app, Hcl, (quiet_closed_lines _ _ Hq0).
  rewrite (quiet_closed_lines _ _ Htail), app_nil_r. cbn [app].
  split.
  - eapply Forall_impl; [exact Hlines|].
    intros l (tz & ap & Htz & ->). exists ap. do 2 f_equal.
    pose proof (totalsPass_totals w (inputDir opt) names 0) as Htot.
    fold zt in Htot. rewrite Forall_forall in Htot.
    destruct (Htot tz Htz) as [->|(name & zr & Hname & Hopen & ->)]; [done|].
    apply percent_all; [apply sumUncompressed_nonneg|by eapply Hsmall].
  - intros p Hp. apply Hcount with (s' := state_of r).
    + apply totalsPass_length.
    + destruct r as [s'|e s']; [done|]. by cbn in Hp.
Qed.

Lemma mergeZIP_archive_lines_witness :
  closed_lines None (mergeZIP read_failure_world (sample_options false false)).2
  = [Some (100, 50)]
  /\ Forall (fun l => exists ap, l = Some (100, ap))
            (closed_lines None
               (mergeZIP read_failure_world (sample_options false false)).2).
Proof.
  split; [reflexivity|].
  apply (mergeZIP_archive_lines read_failure_world
           (sample_options false false) ["a.zip"]).
  - reflexivity.
  - intros name zr Hname Hopen.
    apply list_elem_of_singleton in Hname as ->.
    vm_compute in Hopen. injection Hopen as <-. reflexivity.
Defined.
